(** * The worker bridge of the plugin isolation layer

    A shallow embedding of [src/security/worker-bridge]: the descriptor
    serializer ([serialization.ts]), the request correlator ([rpc.ts]),
    the entry point that runs inside the isolated unit
    ([worker-entry.ts]) and the supervisor on the host side
    ([main-host.ts]), followed by the properties that the specification
    states about them.

    The first half of the file holds the definitions, module by module
    as the source is laid out; the second half holds the lemmas. *)

From Stdlib Require Import ZArith Lia DecimalString.
From stdpp Require Import base option list strings.

Set Warnings "-register-all".

Local Open Scope string_scope.
Local Open Scope Z_scope.

(* ===================================================================== *)
(** * JavaScript values *)
(* ===================================================================== *)

Module Js.

(** Numbers. The bridge performs no arithmetic on payloads, so a finite
    number is kept as the integer it denotes; the values that JSON treats
    specially (negative zero, NaN, the infinities) are separate. An
    integer stands for a JavaScript number when a double holds it
    exactly, as it does every integer up to 2^53 in magnitude; fractions
    are not represented. *)
Inductive JsNumber :=
| NumInt (z : Z)
| NumNegZero
| NumNaN
| NumInf (negative : bool).

(** Values that plugin code can hand to the bridge. A closure is a
    reference [f] into the plugin's code together with its source text
    (what [String(fn)] returns). [VError] is an instance of [Error] or of
    one of its subclasses, with no enumerable property of its own. An
    object is the list of its own enumerable string-keyed properties in
    the order in which they are enumerated, with [Object.prototype] as
    its prototype; a property [toString], [valueOf] or [toJSON] that holds
    a closure is a conversion method of the plugin's. Values are trees:
    cyclic object graphs, getters, symbol-keyed properties and instances
    of classes, built in or the plugin's own, are not values of this
    type. What is stated below about the serializer is stated by the
    outcome of its conversions, whether they return or throw, and so
    does not depend on which values make them throw. *)
Inductive JsValue :=
| VUndefined
| VNull
| VBool (b : bool)
| VNum (n : JsNumber)
| VBigInt (z : Z)
| VStr (s : string)
| VSymbol (description : string)
| VFun (f : nat) (source : string)
| VError (name message : string)
| VArr (items : list JsValue)
| VObj (props : list (string * JsValue)).

(** Completion of a synchronous computation: a value, or a thrown value. *)
Inductive Completion (A : Type) :=
| Normal (a : A)
| Throw (e : JsValue).
Arguments Normal {A} a.
Arguments Throw {A} e.

Definition bind {A B} (c : Completion A) (k : A -> Completion B) : Completion B :=
  match c with
  | Normal a => k a
  | Throw e => Throw e
  end.

(** [obj.key]: the property, or [undefined] when the object has none. *)
Fixpoint prop (key : string) (props : list (string * JsValue)) : JsValue :=
  match props with
  | [] => VUndefined
  | (k, v) :: rest => if String.eqb key k then v else prop key rest
  end.

(** [a ?? b] *)
Definition nullish (a b : JsValue) : JsValue :=
  match a with
  | VUndefined | VNull => b
  | _ => a
  end.

(** ToBoolean *)
Definition truthy (v : JsValue) : bool :=
  match v with
  | VUndefined | VNull => false
  | VBool b => b
  | VNum (NumInt z) => negb (z =? 0)
  | VNum NumNegZero | VNum NumNaN => false
  | VNum (NumInf _) => true
  | VBigInt z => negb (z =? 0)
  | VStr s => negb (String.eqb s "")
  | VSymbol _ | VFun _ _ | VError _ _ | VArr _ | VObj _ => true
  end.

Definition typeof (v : JsValue) : string :=
  match v with
  | VUndefined => "undefined"
  | VNull => "object"
  | VBool _ => "boolean"
  | VNum _ => "number"
  | VBigInt _ => "bigint"
  | VStr _ => "string"
  | VSymbol _ => "symbol"
  | VFun _ _ => "function"
  | VError _ _ | VArr _ | VObj _ => "object"
  end.

(** Decimal digits of an integer, as template literals print them. *)
Definition Z_to_string (z : Z) : string :=
  NilZero.string_of_int (Z.to_int z).

Definition number_to_string (n : JsNumber) : string :=
  match n with
  | NumInt z => Z_to_string z
  | NumNegZero => "0"
  | NumNaN => "NaN"
  | NumInf false => "Infinity"
  | NumInf true => "-Infinity"
  end.

(** [Error.prototype.toString] *)
Definition error_to_string (name message : string) : string :=
  if String.eqb name "" then message
  else if String.eqb message "" then name
  else name +:+ ": " +:+ message.

Definition join_with (sep : string) (parts : list string) : string :=
  match parts with
  | [] => ""
  | p :: rest => fold_left (fun acc q => acc +:+ sep +:+ q) rest p
  end.

(** The own property of an object, [None] when it has none of that name. *)
Fixpoint own_property (key : string) (props : list (string * JsValue)) : option JsValue :=
  match props with
  | [] => None
  | (k, v) :: rest => if String.eqb key k then Some v else own_property key rest
  end.

(** A value that is not an object: what a conversion method must return
    for its result to be used. *)
Definition is_primitive (v : JsValue) : bool :=
  match v with
  | VFun _ _ | VError _ _ | VArr _ | VObj _ => false
  | _ => true
  end.

Definition TypeError (message : string) : JsValue := VError "TypeError" message.

(** ToString on a primitive: a symbol has no implicit conversion. *)
Definition primitive_to_string (v : JsValue) : Completion string :=
  match v with
  | VUndefined => Normal "undefined"
  | VNull => Normal "null"
  | VBool true => Normal "true"
  | VBool false => Normal "false"
  | VNum n => Normal (number_to_string n)
  | VBigInt z => Normal (Z_to_string z)
  | VStr s => Normal s
  | VSymbol _ => Throw (TypeError "Cannot convert a Symbol value to a string")
  | _ => Throw (TypeError "Cannot convert object to primitive value")
  end.

Section Conversions.

(** The conversion methods are code of the plugin: [js_call f this args]
    is what the call [f.call(this, ...args)] of the closure [f] returns
    or throws. A conversion method is taken to compute its result from
    its receiver and arguments, without calling the bridge. *)
Variable js_call : nat -> JsValue -> list JsValue -> Completion JsValue.

(** [method.call(O)], [None] when [method] is not callable. *)
Definition call_method (method O : JsValue) : option (Completion JsValue) :=
  match method with
  | VFun f _ => Some (js_call f O [])
  | _ => None
  end.

(** OrdinaryToPrimitive with hint "string" on a plain object: [toString]
    is tried first and [valueOf] second; a method that is not callable
    is skipped, and so is a result that is an object. Without a property
    of its own the object inherits [Object.prototype.toString], which
    gives "[object Object]", and [Object.prototype.valueOf], which gives
    the object itself. *)
Definition OrdinaryToPrimitive (props : list (string * JsValue)) : Completion JsValue :=
  let O := VObj props in
  let cannot := Throw (TypeError "Cannot convert object to primitive value") in
  let by_valueOf :=
    match own_property "valueOf" props with
    | None => cannot
    | Some method =>
        match call_method method O with
        | Some result =>
            bind result (fun r => if is_primitive r then Normal r else cannot)
        | None => cannot
        end
    end in
  match own_property "toString" props with
  | None => Normal (VStr "[object Object]")
  | Some method =>
      match call_method method O with
      | Some result =>
          bind result (fun r => if is_primitive r then Normal r else by_valueOf)
      | None => by_valueOf
      end
  end.

(** ToString, the conversion behind [String(v)], template literals and
    [Array.prototype.join]. It throws on a symbol, and on an object it
    runs the object's conversion methods, which may throw. *)
Fixpoint ToString (v : JsValue) : Completion string :=
  match v with
  | VFun _ source => Normal source
  | VError name message => Normal (error_to_string name message)
  | VArr items =>
      bind
        ((fix elements (l : list JsValue) : Completion (list string) :=
            match l with
            | [] => Normal []
            | x :: rest =>
                bind (match x with
                      | VUndefined | VNull => Normal ""
                      | _ => ToString x
                      end) (fun part =>
                bind (elements rest) (fun parts =>
                Normal (part :: parts)))
            end) items)
        (fun parts => Normal (join_with "," parts))
  | VObj props => bind (OrdinaryToPrimitive props) primitive_to_string
  | _ => primitive_to_string v
  end.

(** [String(v)]: a symbol given directly is described, not converted. *)
Definition String_ (v : JsValue) : Completion string :=
  match v with
  | VSymbol d => Normal ("Symbol(" +:+ d +:+ ")")
  | _ => ToString v
  end.

(** The loop of [Array.prototype.join], named so that lemmas can speak of
    it. *)
Fixpoint join_parts (l : list JsValue) : Completion (list string) :=
  match l with
  | [] => Normal []
  | x :: rest =>
      bind (match x with
            | VUndefined | VNull => Normal ""
            | _ => ToString x
            end) (fun part =>
      bind (join_parts rest) (fun parts =>
      Normal (part :: parts)))
  end.

End Conversions.

(** A value that holds no closure has no conversion method to run. *)
Definition no_method : nat -> JsValue -> list JsValue -> Completion JsValue :=
  fun _ _ _ => Throw (TypeError "not a function").

(** [new Error(message)] *)
Definition Error (message : string) : JsValue := VError "Error" message.

(** ** [Map<string, V>]

    A JavaScript [Map] iterates in insertion order and [set] on a key that
    is present keeps its position, so the map is an association list. *)
Definition JsMap (V : Type) := list (string * V).

Fixpoint map_get {V} (key : string) (m : JsMap V) : option V :=
  match m with
  | [] => None
  | (k, v) :: rest => if String.eqb key k then Some v else map_get key rest
  end.

Fixpoint map_set {V} (key : string) (value : V) (m : JsMap V) : JsMap V :=
  match m with
  | [] => [(key, value)]
  | (k, v) :: rest =>
      if String.eqb key k then (k, value) :: rest
      else (k, v) :: map_set key value rest
  end.

Fixpoint map_delete {V} (key : string) (m : JsMap V) : JsMap V :=
  match m with
  | [] => []
  | (k, v) :: rest =>
      if String.eqb key k then rest else (k, v) :: map_delete key rest
  end.

Definition map_clear {V} (m : JsMap V) : JsMap V := [].

Definition map_size {V} (m : JsMap V) : nat := length m.

Definition map_keys {V} (m : JsMap V) : list string := map fst m.

(** [hay.includes(needle)] *)
Definition contains (needle hay : string) : Prop :=
  exists before after, hay = before +:+ needle +:+ after.

End Js.
Export Js.

(* ===================================================================== *)
(** * JSON *)
(* ===================================================================== *)

Module JSON.

(** A JSON text, kept as its syntax tree: the lexical layer (escapes,
    white space, the digits of a number) is not represented. *)
Inductive Json :=
| JNull
| JBool (b : bool)
| JNum (z : Z)
| JStr (s : string)
| JArr (items : list Json)
| JObj (members : list (string * Json)).

Section Stringify.

Variable js_call : nat -> JsValue -> list JsValue -> Completion JsValue.

(** [value.toJSON] when it is callable. An array, an [Error] and a
    BigInt have no such method unless plugin code patched a prototype. *)
Definition toJSON_of (v : JsValue) : option nat :=
  match v with
  | VObj props =>
      match own_property "toJSON" props with
      | Some (VFun f _) => Some f
      | _ => None
      end
  | _ => None
  end.

(** The key under which an array holds its element [i]. *)
Definition index_key (i : nat) : string := Z_to_string (Z.of_nat i).

(** SerializeJSONProperty: the JSON text of [holder[key]], whose value is
    [v]; [undefined] (here [None]) for a value with no JSON form, or what
    is thrown. When the value has a [toJSON] method the method is called
    with the key and its result is serialized in place of the value, its
    own [toJSON] not being called again ([hooked] is [false] for it).
    Inside an array a value with no JSON form becomes [null]; inside an
    object its property is left out. A BigInt throws a [TypeError].
    Results of [toJSON] that again hold objects with a [toJSON] nest
    calls; [stack] bounds the nesting, as the call stack of the engine
    does, and a [RangeError] is thrown beyond it. *)
Fixpoint SerializeJSONProperty (stack : nat)
  : bool -> string -> JsValue -> Completion (option Json) :=
  fix property (hooked : bool) (key : string) (v : JsValue) {struct v}
    : Completion (option Json) :=
    match v with
    | VUndefined | VSymbol _ | VFun _ _ => Normal None
    | VNull => Normal (Some JNull)
    | VBool b => Normal (Some (JBool b))
    | VNum (NumInt z) => Normal (Some (JNum z))
    | VNum NumNegZero => Normal (Some (JNum 0))
    | VNum NumNaN | VNum (NumInf _) => Normal (Some JNull)
    | VBigInt _ => Throw (TypeError "Do not know how to serialize a BigInt")
    | VStr s => Normal (Some (JStr s))
    | VError _ _ => Normal (Some (JObj []))
    | VArr items =>
        bind
          ((fix elements (i : nat) (l : list JsValue) : Completion (list Json) :=
              match l with
              | [] => Normal []
              | x :: rest =>
                  bind (property true (index_key i) x) (fun o =>
                  bind (elements (S i) rest) (fun js =>
                  Normal (default JNull o :: js)))
              end) 0%nat items)
          (fun js => Normal (Some (JArr js)))
    | VObj props =>
        match (if hooked then toJSON_of v else None) with
        | Some f =>
            match stack with
            | O => Throw (VError "RangeError" "Maximum call stack size exceeded")
            | S deeper =>
                bind (js_call f v [VStr key]) (SerializeJSONProperty deeper false key)
            end
        | None =>
            bind
              ((fix members (l : list (string * JsValue))
                  : Completion (list (string * Json)) :=
                  match l with
                  | [] => Normal []
                  | (k, x) :: rest =>
                      bind (property true k x) (fun o =>
                      bind (members rest) (fun js =>
                      Normal (match o with
                              | Some j => (k, j) :: js
                              | None => js
                              end)))
                  end) props)
              (fun js => Normal (Some (JObj js)))
        end
    end.

(** [JSON.stringify(v)] *)
Definition stringify (stack : nat) (v : JsValue) : Completion (option Json) :=
  SerializeJSONProperty stack true "" v.

Section Loops.

Variable stack : nat.

(** The two loops inside [SerializeJSONProperty], named so that lemmas
    can speak of them. *)
Fixpoint SerializeJSONArray (i : nat) (l : list JsValue) : Completion (list Json) :=
  match l with
  | [] => Normal []
  | x :: rest =>
      bind (SerializeJSONProperty stack true (index_key i) x) (fun o =>
      bind (SerializeJSONArray (S i) rest) (fun js =>
      Normal (default JNull o :: js)))
  end.

Fixpoint SerializeJSONObject (l : list (string * JsValue))
  : Completion (list (string * Json)) :=
  match l with
  | [] => Normal []
  | (k, x) :: rest =>
      bind (SerializeJSONProperty stack true k x) (fun o =>
      bind (SerializeJSONObject rest) (fun js =>
      Normal (match o with
              | Some j => (k, j) :: js
              | None => js
              end)))
  end.

End Loops.

End Stringify.

(** [JSON.parse(text)] on a well-formed text. A repeated key keeps the
    place of its first occurrence and the value of its last. The
    properties stay in the order of the text; that JavaScript enumerates
    keys that look like array indices first is not represented. *)
Fixpoint parse_text (j : Json) : JsValue :=
  match j with
  | JNull => VNull
  | JBool b => VBool b
  | JNum z => VNum (NumInt z)
  | JStr s => VStr s
  | JArr items => VArr (map parse_text items)
  | JObj members =>
      VObj ((fix build (l : list (string * Json)) (acc : list (string * JsValue)) :=
               match l with
               | [] => acc
               | (k, x) :: rest => build rest (map_set k (parse_text x) acc)
               end) members [])
  end.

(** [JSON.parse(x)] where [x] is what [JSON.stringify] returned: the
    argument [undefined] is read as the text "undefined", which is not
    JSON. *)
Definition parse (text : option Json) : Completion JsValue :=
  match text with
  | Some j => Normal (parse_text j)
  | None => Throw (VError "SyntaxError" "Unexpected token u in JSON at position 0")
  end.

(** The loop inside [parse_text], named so that lemmas can speak of it. *)
Fixpoint parse_members (l : list (string * Json)) (acc : list (string * JsValue))
  : list (string * JsValue) :=
  match l with
  | [] => acc
  | (k, x) :: rest => parse_members rest (map_set k (parse_text x) acc)
  end.

(** The value survives [JSON.parse(JSON.stringify(v))] unchanged, whatever
    the plugin's code and the stack. *)
Definition round_trips (v : JsValue) : Prop :=
  exists j, parse_text j = v /\
    forall js_call stack hooked key,
      SerializeJSONProperty js_call stack hooked key v = Normal (Some j).

(** Plain data, as [JSON.parse] builds it: [null], booleans, finite
    numbers, strings, and arrays and objects of plain data. *)
Fixpoint plain_data (v : JsValue) : bool :=
  match v with
  | VNull | VBool _ | VNum (NumInt _) | VStr _ => true
  | VArr items => forallb plain_data items
  | VObj props => forallb (fun kv => plain_data (snd kv)) props
  | _ => false
  end.

End JSON.

(* ===================================================================== *)
(** * protocol.ts: the messages *)
(* ===================================================================== *)

Module Protocol.

(** [SerializedToolDescriptor] *)
Record SerializedToolDescriptor := {
  name : string;
  label : option string;
  description : option string;
  parameters : option JsValue;
}.

Record PluginMetadata := {
  meta_id : string;
  meta_name : string;
  meta_version : option string;
  meta_description : option string;
}.

Record WorkerInitMessage := {
  pluginId : string;
  pluginSource : string;
  pluginConfig : option JsValue;
  metadata : PluginMetadata;
  jitiAlias : option (list (string * string));
}.

(** The [level] of a log message: "info", "warn", "error" or "debug". *)
Inductive LogLevel := LevelInfo | LevelWarn | LevelError | LevelDebug.

(** Worker to main. In [InvokeResult] an absent [value] or [error]
    property is [None]. *)
Inductive WorkerToMainMessage :=
| RegisterTool (descriptor : SerializedToolDescriptor)
| RegisterHook (hookName handlerId : string) (priority : option JsNumber)
| RegisterService (serviceId : string)
| RegisterCommand (cmdName : string) (cmdDescription usage : option string)
| RegistrationComplete
| RegistrationError (err : string)
| UnsupportedApi (method err : string)
| InvokeResult (reqId : string) (ok : bool) (value : option JsValue) (err : option string)
| Log (level : LogLevel) (message : string) (args : option (list JsValue)).

(** Main to worker. *)
Inductive MainToWorkerMessage :=
| Init (init : WorkerInitMessage)
| InvokeTool (reqId toolName : string) (args : JsValue)
| InvokeHook (reqId hookName handlerId : string) (event : JsValue)
| InvokeServiceStart (reqId serviceId : string)
| InvokeServiceStop (reqId serviceId : string)
| InvokeCommand (reqId commandName : string) (args : list string) (context : JsValue).

(** What the structured clone of [postMessage] accepts: it raises a
    [DataCloneError] on a function or a symbol anywhere in the payload. *)
Fixpoint cloneable (v : JsValue) : bool :=
  match v with
  | VFun _ _ | VSymbol _ => false
  | VArr items => forallb cloneable items
  | VObj props => forallb (fun kv => cloneable (snd kv)) props
  | _ => true
  end.

Definition cloneable_opt (o : option JsValue) : bool :=
  match o with
  | Some v => cloneable v
  | None => true
  end.

Definition worker_message_cloneable (m : WorkerToMainMessage) : bool :=
  match m with
  | RegisterTool d => cloneable_opt (parameters d)
  | InvokeResult _ _ value _ => cloneable_opt value
  | Log _ _ (Some args) => forallb cloneable args
  | _ => true
  end.

Definition main_message_cloneable (m : MainToWorkerMessage) : bool :=
  match m with
  | Init i => cloneable_opt (pluginConfig i)
  | InvokeTool _ _ args => cloneable args
  | InvokeHook _ _ _ event => cloneable event
  | InvokeCommand _ _ _ context => cloneable context
  | InvokeServiceStart _ _ | InvokeServiceStop _ _ => true
  end.

(** The first value, in the order of the traversal, that the structured
    clone refuses. *)
Fixpoint uncloneable_part (v : JsValue) : option JsValue :=
  match v with
  | VFun _ _ | VSymbol _ => Some v
  | VArr items =>
      (fix first (l : list JsValue) : option JsValue :=
         match l with
         | [] => None
         | x :: rest =>
             match uncloneable_part x with
             | Some part => Some part
             | None => first rest
             end
         end) items
  | VObj props =>
      (fix first (l : list (string * JsValue)) : option JsValue :=
         match l with
         | [] => None
         | (_, x) :: rest =>
             match uncloneable_part x with
             | Some part => Some part
             | None => first rest
             end
         end) props
  | _ => None
  end.

(** The error of a failed clone: a [DOMException] whose message quotes
    the value that could not be cloned, a function by its source text and
    a symbol by its description. *)
Definition DataCloneError_message (payload : JsValue) : string :=
  match uncloneable_part payload with
  | Some (VFun _ source) => source
  | Some (VSymbol d) => "Symbol(" +:+ d +:+ ")"
  | _ => "#<Object>"
  end +:+ " could not be cloned.".

Definition DataCloneError (payload : JsValue) : JsValue :=
  VError "DataCloneError" (DataCloneError_message payload).

(** The part of a message that holds values of the plugin. *)
Definition worker_message_payload (m : WorkerToMainMessage) : JsValue :=
  match m with
  | RegisterTool d => default VUndefined (parameters d)
  | InvokeResult _ _ value _ => default VUndefined value
  | Log _ _ (Some args) => VArr args
  | _ => VUndefined
  end.

Definition main_message_payload (m : MainToWorkerMessage) : JsValue :=
  match m with
  | Init i => default VUndefined (pluginConfig i)
  | InvokeTool _ _ args => args
  | InvokeHook _ _ _ event => event
  | InvokeCommand _ _ _ context => context
  | InvokeServiceStart _ _ | InvokeServiceStop _ _ => VUndefined
  end.

(** [msg.reqId]; the [init] message has none. *)
Definition reqId_of (m : MainToWorkerMessage) : option string :=
  match m with
  | Init _ => None
  | InvokeTool reqId _ _ | InvokeHook reqId _ _ _
  | InvokeServiceStart reqId _ | InvokeServiceStop reqId _
  | InvokeCommand reqId _ _ _ => Some reqId
  end.

(** The two messages that end a registration. *)
Definition is_verdict (m : WorkerToMainMessage) : bool :=
  match m with
  | RegistrationComplete | RegistrationError _ => true
  | _ => false
  end.

(** ** The type guards, on any value *)

(** [a !== null] *)
Definition not_null (a : JsValue) : bool :=
  match a with
  | VNull => false
  | _ => true
  end.

(** [(data as Record<string, unknown>).type]: an array or an [Error] has
    no such property, and on a primitive the lookup gives [undefined]. *)
Definition type_property (data : JsValue) : JsValue :=
  match data with
  | VObj props => prop "type" props
  | _ => VUndefined
  end.

Definition isWorkerToMainMessage (data : JsValue) : bool :=
  not_null data
  && String.eqb (typeof data) "object"
  && String.eqb (typeof (type_property data)) "string".

Definition isMainToWorkerMessage (data : JsValue) : bool :=
  not_null data
  && String.eqb (typeof data) "object"
  && String.eqb (typeof (type_property data)) "string".

End Protocol.
Export Protocol.

(* ===================================================================== *)
(** * serialization.ts *)
(* ===================================================================== *)

Module Serialization.

(** The descriptor as the object that the literal in
    [serializeToolDescriptor] builds: [name] first, then each optional
    property that the spreads add, in source order. *)
Definition optional_prop (key : string) (o : option JsValue) : list (string * JsValue) :=
  match o with
  | Some v => [(key, v)]
  | None => []
  end.

Definition descriptor_props (d : SerializedToolDescriptor) : list (string * JsValue) :=
  ("name", VStr (name d))
    :: optional_prop "label" (VStr <$> label d)
    ++ optional_prop "description" (VStr <$> description d)
    ++ optional_prop "parameters" (parameters d).

Definition descriptor_object (d : SerializedToolDescriptor) : JsValue :=
  VObj (descriptor_props d).

(** [typeof v === "string" ? v : absent] *)
Definition string_field (v : JsValue) : option string :=
  match v with
  | VStr s => Some s
  | _ => None
  end.

(** [d.name] for the values [isValidToolDescriptor] lets through its first
    test: an [Error] carries a [name], an array has none. *)
Definition name_property (desc : JsValue) : JsValue :=
  match desc with
  | VObj props => prop "name" props
  | VError name _ => VStr name
  | _ => VUndefined
  end.

Definition isValidToolDescriptor (desc : JsValue) : bool :=
  if negb (truthy desc) || negb (String.eqb (typeof desc) "object") then false
  else
    match name_property desc with
    | VStr s => (0 <? String.length s)%nat
    | _ => false
    end.

Inductive RoundTripResult :=
| RoundTripOk (descriptor : SerializedToolDescriptor)
| RoundTripFailed (error : string).

(** [parsed.name !== descriptor.name] *)
Definition name_differs (parsed : JsValue) (expected : string) : bool :=
  match name_property parsed with
  | VStr s => negb (String.eqb s expected)
  | _ => true
  end.

Section Serializer.

(** The conversion methods of the values that the plugin passes in, and
    the bound on nested [toJSON] calls. *)
Variable js_call : nat -> JsValue -> list JsValue -> Completion JsValue.
Variable stack : nat.

(** [JSON.parse(JSON.stringify(v))] *)
Definition json_clone (v : JsValue) : Completion JsValue :=
  bind (JSON.stringify js_call stack v) JSON.parse.

(** The properties of the literal are evaluated in source order: the
    name first, so that a name that does not convert throws before the
    parameters are looked at. *)
Definition serializeToolDescriptor (tool : list (string * JsValue))
  : Completion SerializedToolDescriptor :=
  bind (String_ js_call (nullish (prop "name" tool) (VStr ""))) (fun name =>
  let label := string_field (prop "label" tool) in
  let description := string_field (prop "description" tool) in
  bind
    (if truthy (prop "parameters" tool)
        && String.eqb (typeof (prop "parameters" tool)) "object"
     then bind (json_clone (prop "parameters" tool)) (fun p => Normal (Some p))
     else Normal None)
    (fun parameters =>
       Normal {| name := name; label := label;
                 description := description; parameters := parameters |})).

(** The [catch] builds the error text with [String(err)], which itself
    throws on some thrown values; the function then throws. *)
Definition validateRoundTrip (tool : list (string * JsValue)) : Completion RoundTripResult :=
  match
    bind (serializeToolDescriptor tool) (fun descriptor =>
      if negb (isValidToolDescriptor (descriptor_object descriptor))
      then Normal (RoundTripFailed "serialized descriptor missing required name field")
      else
        bind (JSON.stringify js_call stack (descriptor_object descriptor)) (fun json =>
        bind (JSON.parse json) (fun parsed =>
          if name_differs parsed (name descriptor)
          then Normal (RoundTripFailed "round-trip name mismatch")
          else Normal (RoundTripOk descriptor))))
  with
  | Normal r => Normal r
  | Throw err =>
      bind (String_ js_call err) (fun text =>
      Normal (RoundTripFailed ("serialization failed: " +:+ text)))
  end.

End Serializer.

End Serialization.

(* ===================================================================== *)
(** * The host's event loop: promises and timers *)
(* ===================================================================== *)

Module EventLoop.

Inductive PromiseState :=
| Pending
| Fulfilled (v : JsValue)
| Rejected (reason : JsValue).

(** The closures that the bridge passes to [setTimeout], one constructor
    per call site, each with the variables it captures. *)
Inductive TimerCallback :=
| RpcTimeout (reqId : string) (promise : nat) (timeoutMs : Z)   (* rpc.ts, createRequest *)
| RegistrationTimeout                                           (* main-host.ts, createWorkerHost *)
| ShutdownTimeout (exitPromise : nat).                          (* main-host.ts, terminate *)

Record Timer := {
  due : Z;
  callback : TimerCallback;
}.

(** Promises and timers are allocated in order and named by their index.
    A timer slot is [None] once the timer was cleared or has fired. *)
Record Loop := {
  now : Z;
  promises : list PromiseState;
  timers : list (option Timer);
}.

Definition empty_loop : Loop :=
  {| now := 0; promises := []; timers := [] |}.

(** [new Promise(...)]: the index of the new, pending promise. *)
Definition newPromise (l : Loop) : nat * Loop :=
  (length (promises l),
   {| now := now l; promises := promises l ++ [Pending]; timers := timers l |}).

Definition promise_state (p : nat) (l : Loop) : PromiseState :=
  default Pending (promises l !! p).

(** The [resolve] and [reject] functions of a promise: the first call
    settles it, later calls do nothing. *)
Definition settle (p : nat) (s : PromiseState) (l : Loop) : Loop :=
  match promises l !! p with
  | Some Pending =>
      {| now := now l; promises := <[p := s]> (promises l); timers := timers l |}
  | _ => l
  end.

Definition TIMEOUT_MAX : Z := 2147483647.

(** The delay that a timer gets: Node replaces a delay outside
    [1 .. TIMEOUT_MAX] by 1. *)
Definition timer_delay (delay : Z) : Z :=
  if (1 <=? delay) && (delay <=? TIMEOUT_MAX) then delay else 1.

(** [setTimeout(callback, delay)] *)
Definition setTimeout (cb : TimerCallback) (delay : Z) (l : Loop) : nat * Loop :=
  let after := timer_delay delay in
  (length (timers l),
   {| now := now l; promises := promises l;
      timers := timers l ++ [Some {| due := now l + after; callback := cb |}] |}).

(** [clearTimeout(t)] *)
Definition clearTimeout (t : nat) (l : Loop) : Loop :=
  {| now := now l; promises := promises l; timers := <[t := None]> (timers l) |}.

Definition armed (t : nat) (l : Loop) : bool :=
  match timers l !! t with
  | Some (Some _) => true
  | _ => false
  end.

(** The timer that the loop may run now: armed and due. *)
Definition due_timer (t : nat) (l : Loop) : option Timer :=
  match timers l !! t with
  | Some (Some tm) => if due tm <=? now l then Some tm else None
  | _ => None
  end.

Definition advance (dt : Z) (l : Loop) : Loop :=
  {| now := now l + Z.max 0 dt; promises := promises l; timers := timers l |}.

End EventLoop.
Export EventLoop.

(* ===================================================================== *)
(** * rpc.ts: the request correlator *)
(* ===================================================================== *)

Module Rpc.

(** [PendingRequest]: [resolve] and [reject] are the two functions of the
    promise [promise]. *)
Record PendingRequest := {
  promise : nat;
  timer : nat;
}.

Record RpcCorrelator := {
  pending : JsMap PendingRequest;
}.

Definition new_RpcCorrelator : RpcCorrelator := {| pending := [] |}.

Definition timeout_error (timeoutMs : Z) (reqId : string) : JsValue :=
  Error ("RPC timeout after " +:+ Z_to_string timeoutMs +:+ "ms (reqId: " +:+ reqId +:+ ")").

(** [createRequest(timeoutMs)]; [uuid] is what [crypto.randomUUID()]
    returns in this call. *)
Definition createRequest (uuid : string) (timeoutMs : Z) (rpc : RpcCorrelator) (l : Loop)
  : (string * nat) * RpcCorrelator * Loop :=
  let reqId := uuid in
  let '(p, l1) := newPromise l in
  let '(t, l2) := setTimeout (RpcTimeout reqId p timeoutMs) timeoutMs l1 in
  ((reqId, p),
   {| pending := map_set reqId {| promise := p; timer := t |} (pending rpc) |},
   l2).

(** The body of the timer callback of [createRequest]. *)
Definition on_timeout (reqId : string) (p : nat) (timeoutMs : Z)
    (rpc : RpcCorrelator) (l : Loop) : RpcCorrelator * Loop :=
  ({| pending := map_delete reqId (pending rpc) |},
   settle p (Rejected (timeout_error timeoutMs reqId)) l).

Definition resolve (reqId : string) (value : JsValue) (rpc : RpcCorrelator) (l : Loop)
  : bool * RpcCorrelator * Loop :=
  match map_get reqId (pending rpc) with
  | None => (false, rpc, l)
  | Some entry =>
      let l1 := clearTimeout (timer entry) l in
      let rpc1 := {| pending := map_delete reqId (pending rpc) |} in
      (true, rpc1, settle (promise entry) (Fulfilled value) l1)
  end.

Definition reject (reqId : string) (error : JsValue) (rpc : RpcCorrelator) (l : Loop)
  : bool * RpcCorrelator * Loop :=
  match map_get reqId (pending rpc) with
  | None => (false, rpc, l)
  | Some entry =>
      let l1 := clearTimeout (timer entry) l in
      let rpc1 := {| pending := map_delete reqId (pending rpc) |} in
      (true, rpc1, settle (promise entry) (Rejected error) l1)
  end.

(** The loop of [rejectAll] over the entries, in the map's order. *)
Fixpoint reject_each (entries : JsMap PendingRequest) (error : JsValue) (l : Loop) : Loop :=
  match entries with
  | [] => l
  | (_, entry) :: rest =>
      reject_each rest error
        (settle (promise entry) (Rejected error) (clearTimeout (timer entry) l))
  end.

Definition rejectAll (error : JsValue) (rpc : RpcCorrelator) (l : Loop)
  : RpcCorrelator * Loop :=
  ({| pending := map_clear (pending rpc) |},
   reject_each (pending rpc) error l).

Definition size (rpc : RpcCorrelator) : nat := map_size (pending rpc).

(** A timer of the correlator fires: the loop runs the callback of
    [createRequest] and the timer is spent. Timers of other owners are
    not the correlator's to run. *)
Definition timer_fires (t : nat) (rpc : RpcCorrelator) (l : Loop) : RpcCorrelator * Loop :=
  match due_timer t l with
  | Some tm =>
      match callback tm with
      | RpcTimeout reqId p timeoutMs => on_timeout reqId p timeoutMs rpc (clearTimeout t l)
      | _ => (rpc, l)
      end
  | None => (rpc, l)
  end.

(** What can happen to a correlator: a call of one of its methods, one
    of its timers firing, time passing. *)
Inductive Op :=
| Create (uuid : string) (timeoutMs : Z)
| Resolve (reqId : string) (value : JsValue)
| Reject (reqId : string) (error : JsValue)
| RejectAll (error : JsValue)
| Fire (t : nat)
| Sleep (dt : Z).

Definition apply (op : Op) (s : RpcCorrelator * Loop) : RpcCorrelator * Loop :=
  let '(rpc, l) := s in
  match op with
  | Create uuid timeoutMs =>
      let '(_, rpc1, l1) := createRequest uuid timeoutMs rpc l in (rpc1, l1)
  | Resolve reqId value =>
      let '(_, rpc1, l1) := resolve reqId value rpc l in (rpc1, l1)
  | Reject reqId error =>
      let '(_, rpc1, l1) := reject reqId error rpc l in (rpc1, l1)
  | RejectAll error => rejectAll error rpc l
  | Fire t => timer_fires t rpc l
  | Sleep dt => (rpc, advance dt l)
  end.

Definition run (ops : list Op) (s : RpcCorrelator * Loop) : RpcCorrelator * Loop :=
  fold_left (fun s op => apply op s) ops s.

(** The correlator and the loop agree: the keys are distinct; a pending
    request has an outstanding promise of its own and an armed timer that
    will time this request out; every armed timer of the correlator
    belongs to the pending request it names. *)
Definition consistent (s : RpcCorrelator * Loop) : Prop :=
  let '(rpc, l) := s in
  NoDup (map_keys (pending rpc)) /\
  (forall k e, map_get k (pending rpc) = Some e ->
     promises l !! promise e = Some Pending /\
     exists tm ms, timers l !! timer e = Some (Some tm) /\
                   callback tm = RpcTimeout k (promise e) ms) /\
  (forall u tm k q ms,
     timers l !! u = Some (Some tm) -> callback tm = RpcTimeout k q ms ->
     map_get k (pending rpc) = Some {| promise := q; timer := u |}) /\
  (forall k k' e e',
     map_get k (pending rpc) = Some e -> map_get k' (pending rpc) = Some e' ->
     promise e = promise e' -> k = k').




(** Every request of the run is created under an identifier that is
    not in the table at that moment, as [crypto.randomUUID()] provides. *)
Fixpoint fresh_ids (ops : list Op) (s : RpcCorrelator * Loop) : bool :=
  match ops with
  | [] => true
  | op :: rest =>
      match op with
      | Create uuid _ =>
          match map_get uuid (pending (fst s)) with
          | None => true
          | Some _ => false
          end
      | _ => true
      end && fresh_ids rest (apply op s)
  end.

End Rpc.

(* ===================================================================== *)
(** * worker-entry.ts: the entry point inside the isolated unit *)
(* ===================================================================== *)

Module WorkerEntry.

Import Serialization.

(** What awaiting a call yields: the value, the thrown value or rejection
    reason, or nothing when the promise never settles. *)
Inductive Settlement (A : Type) :=
| Fulfils (a : A)
| Rejects (reason : JsValue)
| Hangs.
Arguments Fulfils {A} a.
Arguments Rejects {A} reason.
Arguments Hangs {A}.

(** [serviceHandlers] holds [{ start, stop }] as the plugin gave them. *)
Record ServiceHandlers := {
  start : JsValue;
  stop : JsValue;
}.

(** The module-level state: the four handler maps, and the messages
    handed to [port.postMessage] so far, oldest first. *)
Record WorkerState := {
  toolHandlers : JsMap JsValue;
  hookHandlers : JsMap JsValue;
  serviceHandlers : JsMap ServiceHandlers;
  commandHandlers : JsMap JsValue;
  posted : list WorkerToMainMessage;
}.

Definition initial_state : WorkerState :=
  {| toolHandlers := []; hookHandlers := []; serviceHandlers := [];
     commandHandlers := []; posted := [] |}.

(** Synchronous code of the unit: it may throw, and it threads the state. *)
Definition M (A : Type) := WorkerState -> Completion A * WorkerState.

Definition ret {A} (a : A) : M A := fun w => (Normal a, w).

Definition throw {A} (e : JsValue) : M A := fun w => (Throw e, w).

Definition mbind {A B} (m : M A) (k : A -> M B) : M B :=
  fun w =>
    match m w with
    | (Normal a, w1) => k a w1
    | (Throw e, w1) => (Throw e, w1)
    end.

Declare Scope worker_scope.
Delimit Scope worker_scope with worker.
Notation "x <- m ;; k" := (mbind m (fun x => k))
  (at level 100, m at next level, k at level 200, right associativity,
   only parsing) : worker_scope.
Notation "m1 ;; m2" := (mbind m1 (fun _ => m2))
  (at level 100, m2 at level 200, right associativity,
   only parsing) : worker_scope.
Local Open Scope worker_scope.

(** [try { body } catch (err) { handler(err) }] *)
Definition try_catch {A} (body : M A) (handler : JsValue -> M A) : M A :=
  fun w =>
    match body w with
    | (Normal a, w1) => (Normal a, w1)
    | (Throw e, w1) => handler e w1
    end.

Definition lift {A} (c : Completion A) : M A := fun w => (c, w).

(** [port.postMessage(m)] *)
Definition postMessage (m : WorkerToMainMessage) : M unit :=
  fun w =>
    if worker_message_cloneable m
    then (Normal tt,
          {| toolHandlers := toolHandlers w; hookHandlers := hookHandlers w;
             serviceHandlers := serviceHandlers w;
             commandHandlers := commandHandlers w;
             posted := posted w ++ [m] |})
    else (Throw (DataCloneError (worker_message_payload m)), w).

Definition set_toolHandler (key : string) (h : JsValue) : M unit :=
  fun w =>
    (Normal tt,
     {| toolHandlers := map_set key h (toolHandlers w);
        hookHandlers := hookHandlers w; serviceHandlers := serviceHandlers w;
        commandHandlers := commandHandlers w; posted := posted w |}).

Definition set_hookHandler (key : string) (h : JsValue) : M unit :=
  fun w =>
    (Normal tt,
     {| toolHandlers := toolHandlers w;
        hookHandlers := map_set key h (hookHandlers w);
        serviceHandlers := serviceHandlers w;
        commandHandlers := commandHandlers w; posted := posted w |}).

Definition set_serviceHandler (key : string) (h : ServiceHandlers) : M unit :=
  fun w =>
    (Normal tt,
     {| toolHandlers := toolHandlers w; hookHandlers := hookHandlers w;
        serviceHandlers := map_set key h (serviceHandlers w);
        commandHandlers := commandHandlers w; posted := posted w |}).

Definition set_commandHandler (key : string) (h : JsValue) : M unit :=
  fun w =>
    (Normal tt,
     {| toolHandlers := toolHandlers w; hookHandlers := hookHandlers w;
        serviceHandlers := serviceHandlers w;
        commandHandlers := map_set key h (commandHandlers w);
        posted := posted w |}).

Definition UNSUPPORTED_METHODS : list string :=
  [ "registerChannel"; "registerProvider"; "registerHttpHandler";
    "registerHttpRoute"; "registerGatewayMethod"; "registerCli" ].

Definition sendLog (level : LogLevel) (message : string) (args : option (list JsValue))
  : M unit :=
  postMessage (Log level message args).

(** The arrow function stored under [unsupported[method]]. *)
Definition unsupported_stub (method : string) : M JsValue :=
  let error := method +:+ " is not supported in isolated (worker) mode" in
  postMessage (UnsupportedApi method error) ;;
  throw (Error error).

(** The object that [createBridgeApi] returns. [stubs] is the record
    [unsupported] that the literal spreads into it. *)
Record BridgeApi := {
  api_id : string;
  api_name : string;
  api_version : option string;
  api_description : option string;
  api_source : string;
  api_config : JsValue;
  api_pluginConfig : option JsValue;
  runtime : M JsValue;
  logger : LogLevel -> string -> list JsValue -> M unit;
  registerTool : list (string * JsValue) -> option string -> M unit;
  registerHook : M unit;
  registerService : option string -> JsValue -> JsValue -> M unit;
  registerCommand : option string -> option string -> option string -> JsValue -> M unit;
  on : string -> JsValue -> option JsNumber -> M unit;
  resolvePath : string -> string;
  stubs : JsMap (M JsValue);
}.

Definition with_name (d : SerializedToolDescriptor) (n : string) : SerializedToolDescriptor :=
  {| name := n; label := label d; description := description d;
     parameters := parameters d |}.

(** [a || b] on strings, [a] possibly [undefined] *)
Definition or_string (a : option string) (b : string) : string :=
  match a with
  | Some s => if String.eqb s "" then b else s
  | None => b
  end.

(** Asynchronous code of the unit: what the promise of an [async]
    function settles to. *)
Definition Async (A : Type) := WorkerState -> Settlement A * WorkerState.

Definition settled {A} (m : M A) : Async A :=
  fun w =>
    match m w with
    | (Normal a, w1) => (Fulfils a, w1)
    | (Throw e, w1) => (Rejects e, w1)
    end.

(** ** Plugin code *)

(** The throwing members of the API object: a property that the spread
    of [unsupported] added, or the getter [runtime]. *)
Inductive ThrowingMember :=
| Method (method : string)
| RuntimeAccessor.

(** [api[method]()] and [api.runtime]. *)
Definition access (api : BridgeApi) (m : ThrowingMember) : M JsValue :=
  match m with
  | Method method =>
      match map_get method (stubs api) with
      | Some stub => stub
      | None => throw (TypeError ("api." +:+ method +:+ " is not a function"))
      end
  | RuntimeAccessor => runtime api
  end.

(** One use of the API object by plugin code. *)
Inductive ApiCall :=
| CallRegisterTool (tool : list (string * JsValue)) (optsName : option string)
| CallRegisterHook
| CallRegisterService (id : option string) (start stop : JsValue)
| CallRegisterCommand (name description usage : option string) (handler : JsValue)
| CallOn (hookName : string) (handler : JsValue) (priority : option JsNumber)
| CallLogger (level : LogLevel) (msg : string) (args : list JsValue)
| CallAccess (m : ThrowingMember).

Definition perform (api : BridgeApi) (c : ApiCall) : M unit :=
  match c with
  | CallRegisterTool tool optsName => registerTool api tool optsName
  | CallRegisterHook => registerHook api
  | CallRegisterService id start stop => registerService api id start stop
  | CallRegisterCommand name description usage handler =>
      registerCommand api name description usage handler
  | CallOn hookName handler priority => on api hookName handler priority
  | CallLogger level msg args => logger api level msg args
  | CallAccess m => _ <- access api m ;; ret tt
  end.

(** A registration function that makes the given calls in order; a call
    that throws ends it. *)
Fixpoint script (calls : list ApiCall) (api : BridgeApi) : M unit :=
  match calls with
  | [] => ret tt
  | c :: rest => perform api c ;; script rest api
  end.

(** The calls that a handler of the plugin makes on the API object while
    it runs, each taken to its end whether it returns or throws: what the
    handler does after a call that throws is its own affair. *)
Definition plugin_calls (api : BridgeApi) (calls : list ApiCall) (w : WorkerState)
  : WorkerState :=
  fold_left (fun w c => snd (perform api c w)) calls w.

Section Unit.

(** [String.prototype.trim]; the conversion methods of the plugin's
    values, with the bound on nested [toJSON] calls. *)
Variable trim : string -> string.
Variable js_call : nat -> JsValue -> list JsValue -> Completion JsValue.
Variable stack : nat.

Definition createBridgeApi (init : WorkerInitMessage) : BridgeApi :=
  let unsupported :=
    fold_left (fun acc method => map_set method (unsupported_stub method) acc)
              UNSUPPORTED_METHODS [] in
  {| api_id := meta_id (metadata init);
     api_name := meta_name (metadata init);
     api_version := meta_version (metadata init);
     api_description := meta_description (metadata init);
     api_source := pluginSource init;
     api_config := VObj [];
     api_pluginConfig := pluginConfig init;
     runtime := throw (Error "api.runtime is not available in isolated mode");
     logger := fun level msg args => sendLog level msg (Some args);
     registerTool := fun tool optsName =>
       descriptor <- lift (serializeToolDescriptor js_call stack tool) ;;
       let name := or_string optsName (name descriptor) in
       if String.eqb name "" then
         sendLog LevelError "registerTool: missing tool name" None
       else
         let descriptor := with_name descriptor name in
         (if String.eqb (typeof (prop "execute" tool)) "function"
          then set_toolHandler name (prop "execute" tool)
          else ret tt) ;;
         postMessage (RegisterTool descriptor);
     registerHook :=
       sendLog LevelWarn
         "registerHook via legacy API is not supported in worker mode; use on() instead"
         None;
     registerService := fun service_id service_start service_stop =>
       match trim <$> service_id with
       | None => ret tt
       | Some id =>
           if String.eqb id "" then ret tt
           else
             set_serviceHandler id {| start := service_start; stop := service_stop |} ;;
             postMessage (RegisterService id)
       end;
     registerCommand := fun command_name command_description command_usage handler =>
       match trim <$> command_name with
       | None => ret tt
       | Some name =>
           if String.eqb name "" then ret tt
           else
             set_commandHandler name handler ;;
             postMessage (RegisterCommand name command_description command_usage)
       end;
     on := fun hookName handler priority =>
       let handlerId := pluginId init +:+ ":" +:+ hookName in
       set_hookHandler handlerId handler ;;
       postMessage (RegisterHook hookName handlerId priority);
     resolvePath := fun input => input;
     stubs := unsupported |}.

(** The closures of the plugin: awaiting the call [f(...args)] yields the
    second component, and while it runs the closure makes the calls of
    the first component on the API object [api] that it holds. The state
    in which the [await] resumes is the state after these calls. *)
Variable call : nat -> list JsValue -> list ApiCall * Settlement JsValue.
Variable api : BridgeApi.

(** [await h(...args)], where the source text of the callee is [callee];
    calling a value that is not a function throws. *)
Definition await_call (callee : string) (h : JsValue) (args : list JsValue)
  : Async JsValue :=
  fun w =>
    match h with
    | VFun f _ => (snd (call f args), plugin_calls api (fst (call f args)) w)
    | _ => (Rejects (TypeError (callee +:+ " is not a function")), w)
    end.

(** [await h?.()] *)
Definition await_optional_call (callee : string) (h : JsValue) : Async JsValue :=
  match h with
  | VUndefined | VNull => fun w => (Fulfils VUndefined, w)
  | _ => await_call callee h []
  end.

(** The body of each [catch]: the argument of [postMessage] is built
    first, and [String(err)] may throw while it is. *)
Definition post_failure (reqId : string) (err : JsValue) : M unit :=
  text <- lift (String_ js_call err) ;;
  postMessage (InvokeResult reqId false None (Some text)).

(** [try { const value = await ...; postMessage({ ok: true, ... }) }
     catch (err) { postMessage({ ok: false, error: String(err) }) }];
    [with_value] tells whether the success message has a [value]
    property. What the [catch] itself throws rejects the promise. *)
Definition report (reqId : string) (with_value : bool) (awaited : Async JsValue)
  : Async unit :=
  fun w =>
    match awaited w with
    | (Fulfils value, w1) =>
        settled
          (try_catch
             (postMessage
                (InvokeResult reqId true (if with_value then Some value else None) None))
             (post_failure reqId)) w1
    | (Rejects err, w1) => settled (post_failure reqId err) w1
    | (Hangs, w1) => (Hangs, w1)
    end.

(** [map.get(key)], [undefined] when the key is absent *)
Definition handler_of (m : JsMap JsValue) (key : string) : JsValue :=
  default VUndefined (map_get key m).

Definition handleInvocation (msg : MainToWorkerMessage) : Async unit :=
  fun w =>
    match msg with
    | InvokeTool reqId toolName args =>
        let handler := handler_of (toolHandlers w) toolName in
        if negb (truthy handler) then
          settled
            (postMessage
               (InvokeResult reqId false None (Some ("tool not found: " +:+ toolName)))) w
        else report reqId true (await_call "handler" handler [args]) w
    | InvokeHook reqId hookName handlerId event =>
        let handler := handler_of (hookHandlers w) handlerId in
        if negb (truthy handler) then
          settled (postMessage (InvokeResult reqId true (Some VUndefined) None)) w
        else report reqId true (await_call "handler" handler [event]) w
    | InvokeServiceStart reqId serviceId =>
        let svc := map_get serviceId (serviceHandlers w) in
        report reqId false
          (match svc with
           | Some s => await_optional_call "svc?.start" (start s)
           | None => fun w => (Fulfils VUndefined, w)
           end) w
    | InvokeServiceStop reqId serviceId =>
        let svc := map_get serviceId (serviceHandlers w) in
        report reqId false
          (match svc with
           | Some s => await_optional_call "svc?.stop" (stop s)
           | None => fun w => (Fulfils VUndefined, w)
           end) w
    | InvokeCommand reqId commandName args context =>
        let handler := handler_of (commandHandlers w) commandName in
        if negb (truthy handler) then
          settled
            (postMessage
               (InvokeResult reqId false None
                  (Some ("command not found: " +:+ commandName)))) w
        else report reqId true
               (await_call "handler" handler [VArr (map VStr args); context]) w
    | Init _ => (Fulfils tt, w)
    end.

(** The plugin module as the loader resolved it: loading may throw, and
    the module may export no registration function ([None]). The
    function itself is plugin code run against the bridge API. *)
Variable load_plugin : WorkerInitMessage -> Completion (option (BridgeApi -> M unit)).

(** The listener of [port.on("message", ...)]. As in [handleInvocation],
    [String(err)] in the [catch] may throw, and the promise of the
    listener is then rejected. *)
Definition on_message (msg : MainToWorkerMessage) : Async unit :=
  match msg with
  | Init init =>
      let api := createBridgeApi init in
      settled
        (try_catch
           (register <- lift (load_plugin init) ;;
            match register with
            | None =>
                postMessage
                  (RegistrationError "plugin module missing register/activate export")
            | Some register =>
                register api ;;
                postMessage RegistrationComplete
            end)
           (fun err =>
              text <- lift (String_ js_call err) ;;
              postMessage (RegistrationError text)))
  | _ => handleInvocation msg
  end.

End Unit.

(** ** The unit's life *)

(** What happens in the unit after [init]: plugin code uses the API
    object it was given, or an invocation message arrives. *)
Inductive UnitEvent :=
| PluginCalls (c : ApiCall)
| Receives (msg : MainToWorkerMessage).

Section Life.

Variable trim : string -> string.
Variable js_call : nat -> JsValue -> list JsValue -> Completion JsValue.
Variable stack : nat.
Variable call : nat -> list JsValue -> list ApiCall * Settlement JsValue.
Variable init : WorkerInitMessage.

Definition unit_step (e : UnitEvent) (w : WorkerState) : WorkerState :=
  let api := createBridgeApi trim js_call stack init in
  match e with
  | PluginCalls c => snd (perform api c w)
  | Receives msg => snd (handleInvocation js_call call api msg w)
  end.

Definition unit_run (events : list UnitEvent) (w : WorkerState) : WorkerState :=
  fold_left (fun w e => unit_step e w) events w.




End Life.

(** The state after one more message was posted. *)
Definition with_posted (m : WorkerToMainMessage) (w : WorkerState) : WorkerState :=
  {| toolHandlers := toolHandlers w; hookHandlers := hookHandlers w;
     serviceHandlers := serviceHandlers w; commandHandlers := commandHandlers w;
     posted := posted w ++ [m] |}.

(** The handler map that the message addresses has no entry under the
    name or id that the message carries. *)
Definition handler_missing (msg : MainToWorkerMessage) (w : WorkerState) : Prop :=
  match msg with
  | InvokeTool _ toolName _ => map_get toolName (toolHandlers w) = None
  | InvokeHook _ _ handlerId _ => map_get handlerId (hookHandlers w) = None
  | InvokeServiceStart _ serviceId | InvokeServiceStop _ serviceId =>
      map_get serviceId (serviceHandlers w) = None
  | InvokeCommand _ commandName _ _ => map_get commandName (commandHandlers w) = None
  | Init _ => False
  end.

(** Code that leaves the map of tool executors as it found it. *)
Definition keeps_tools {A} (m : WorkerState -> A * WorkerState) : Prop :=
  forall w, toolHandlers (snd (m w)) = toolHandlers w.

(** Code that only adds to the messages posted, and adds no message that
    ends a registration. *)
Definition posts_no_verdict {A} (m : WorkerState -> A * WorkerState) : Prop :=
  forall w, exists msgs,
    posted (snd (m w)) = (posted w ++ msgs)%list /\
    Forall (fun msg => is_verdict msg = false) msgs.

End WorkerEntry.

(* ===================================================================== *)
(** * main-host.ts: the supervisor on the host side *)
(* ===================================================================== *)

Module MainHost.

Import Rpc.

Definition REGISTRATION_TIMEOUT_MS : Z := 10000.
Definition TOOL_INVOKE_TIMEOUT_MS : Z := 60000.
Definition HOOK_INVOKE_TIMEOUT_MS : Z := 5000.
Definition SERVICE_START_TIMEOUT_MS : Z := 30000.
Definition SERVICE_STOP_TIMEOUT_MS : Z := 5000.
Definition SHUTDOWN_TIMEOUT_MS : Z := 5000.

(** [WorkerHostParams]. The logger is always there; each optional
    callback is recorded by whether the caller supplied it. *)
Record WorkerHostParams := {
  params_pluginId : string;
  params_pluginSource : string;
  params_pluginConfig : option JsValue;
  params_metadata : PluginMetadata;
  params_jitiAlias : option (list (string * string));
  onRegisterTool : bool;
  onRegisterHook : bool;
  onRegisterService : bool;
  onRegisterCommand : bool;
}.

(** Calls that the supervisor makes on the callbacks and the logger of
    its parameters. *)
Inductive HostCall :=
| OnRegisterTool (descriptor : SerializedToolDescriptor)
| OnRegisterHook (hookName handlerId : string) (priority : option JsNumber)
| OnRegisterService (serviceId : string)
| OnRegisterCommand (cmdName : string) (cmdDescription usage : option string)
| LoggerCall (level : LogLevel) (message : string) (args : list JsValue).

(** The five invocation methods with their arguments. *)
Inductive Invocation :=
| ToolCall (toolName : string) (args : JsValue)
| HookCall (hookName handlerId : string) (event : JsValue)
| ServiceStartCall (serviceId : string)
| ServiceStopCall (serviceId : string)
| CommandCall (commandName : string) (args : list string) (context : JsValue).

(** A call of one of the [async] methods: where it is suspended, or what
    its promise settled to. *)
Inductive Task :=
| AwaitReady (call : Invocation)                     (* at [await ready] *)
| AwaitRequest (promise : nat) (with_value : bool)   (* at [return promise] / [await promise] *)
| AwaitWorkerTerminate (exitPromise : nat)           (* at [await worker.terminate()] *)
| AwaitExit (exitPromise : nat)                      (* at [await exitPromise] *)
| Done (result : PromiseState).

(** The variables that the closures of [createWorkerHost] share, and the
    effects observed from outside: messages handed to
    [worker.postMessage], calls on the parameters, the [async] calls made
    so far. *)
Record HostState := {
  params : WorkerHostParams;
  loop : Loop;
  rpc : RpcCorrelator;
  terminated : bool;
  ready : nat;
  registrationTimer : nat;
  sent : list MainToWorkerMessage;
  calls : list HostCall;
  exit_once : list (nat * nat);     (* [worker.once("exit")]: timer and exit promise *)
  terminate_requested : bool;       (* [worker.terminate()] was called *)
  exited : bool;
  tasks : list Task;
}.

Definition set_loop (l : Loop) (st : HostState) : HostState :=
  {| params := params st; loop := l; rpc := rpc st; terminated := terminated st;
     ready := ready st; registrationTimer := registrationTimer st; sent := sent st;
     calls := calls st; exit_once := exit_once st;
     terminate_requested := terminate_requested st; exited := exited st;
     tasks := tasks st |}.

Definition set_rpc (r : RpcCorrelator) (st : HostState) : HostState :=
  {| params := params st; loop := loop st; rpc := r; terminated := terminated st;
     ready := ready st; registrationTimer := registrationTimer st; sent := sent st;
     calls := calls st; exit_once := exit_once st;
     terminate_requested := terminate_requested st; exited := exited st;
     tasks := tasks st |}.

Definition set_terminated (b : bool) (st : HostState) : HostState :=
  {| params := params st; loop := loop st; rpc := rpc st; terminated := b;
     ready := ready st; registrationTimer := registrationTimer st; sent := sent st;
     calls := calls st; exit_once := exit_once st;
     terminate_requested := terminate_requested st; exited := exited st;
     tasks := tasks st |}.

Definition set_sent (s : list MainToWorkerMessage) (st : HostState) : HostState :=
  {| params := params st; loop := loop st; rpc := rpc st; terminated := terminated st;
     ready := ready st; registrationTimer := registrationTimer st; sent := s;
     calls := calls st; exit_once := exit_once st;
     terminate_requested := terminate_requested st; exited := exited st;
     tasks := tasks st |}.

Definition set_calls (c : list HostCall) (st : HostState) : HostState :=
  {| params := params st; loop := loop st; rpc := rpc st; terminated := terminated st;
     ready := ready st; registrationTimer := registrationTimer st; sent := sent st;
     calls := c; exit_once := exit_once st;
     terminate_requested := terminate_requested st; exited := exited st;
     tasks := tasks st |}.

Definition set_exit_once (e : list (nat * nat)) (st : HostState) : HostState :=
  {| params := params st; loop := loop st; rpc := rpc st; terminated := terminated st;
     ready := ready st; registrationTimer := registrationTimer st; sent := sent st;
     calls := calls st; exit_once := e;
     terminate_requested := terminate_requested st; exited := exited st;
     tasks := tasks st |}.

Definition set_terminate_requested (b : bool) (st : HostState) : HostState :=
  {| params := params st; loop := loop st; rpc := rpc st; terminated := terminated st;
     ready := ready st; registrationTimer := registrationTimer st; sent := sent st;
     calls := calls st; exit_once := exit_once st;
     terminate_requested := b; exited := exited st;
     tasks := tasks st |}.

Definition set_exited (b : bool) (st : HostState) : HostState :=
  {| params := params st; loop := loop st; rpc := rpc st; terminated := terminated st;
     ready := ready st; registrationTimer := registrationTimer st; sent := sent st;
     calls := calls st; exit_once := exit_once st;
     terminate_requested := terminate_requested st; exited := b;
     tasks := tasks st |}.

Definition set_tasks (t : list Task) (st : HostState) : HostState :=
  {| params := params st; loop := loop st; rpc := rpc st; terminated := terminated st;
     ready := ready st; registrationTimer := registrationTimer st; sent := sent st;
     calls := calls st; exit_once := exit_once st;
     terminate_requested := terminate_requested st; exited := exited st;
     tasks := t |}.

(** [readyResolve()] and [readyReject(err)] *)
Definition readyResolve (st : HostState) : HostState :=
  set_loop (settle (ready st) (Fulfilled VUndefined) (loop st)) st.

Definition readyReject (err : JsValue) (st : HostState) : HostState :=
  set_loop (settle (ready st) (Rejected err) (loop st)) st.

Definition clear_registrationTimer (st : HostState) : HostState :=
  set_loop (clearTimeout (registrationTimer st) (loop st)) st.

Definition rpc_rejectAll (err : JsValue) (st : HostState) : HostState :=
  let '(r, l) := rejectAll err (rpc st) (loop st) in
  set_loop l (set_rpc r st).

Definition call_param (c : HostCall) (st : HostState) : HostState :=
  set_calls (calls st ++ [c]) st.

Definition worker_prefix (st : HostState) : string :=
  "[worker:" +:+ params_pluginId (params st) +:+ "] ".

(** [createWorkerHost(params)] up to its [return]: the correlator, the
    [ready] promise, the registration timer, and the [init] message.
    Handing the message to the worker throws when the plugin
    configuration cannot be cloned. *)
Definition createWorkerHost (p : WorkerHostParams) : Completion HostState :=
  let rpc := new_RpcCorrelator in
  let '(ready, l1) := newPromise empty_loop in
  let '(registrationTimer, l2) :=
    setTimeout RegistrationTimeout REGISTRATION_TIMEOUT_MS l1 in
  let initMsg :=
    Init {| pluginId := params_pluginId p;
            pluginSource := params_pluginSource p;
            pluginConfig := params_pluginConfig p;
            metadata := params_metadata p;
            jitiAlias := params_jitiAlias p |} in
  if main_message_cloneable initMsg then
    Normal {| params := p; loop := l2; rpc := rpc; terminated := false;
              ready := ready; registrationTimer := registrationTimer;
              sent := [initMsg]; calls := []; exit_once := [];
              terminate_requested := false; exited := false; tasks := [] |}
  else Throw (DataCloneError (main_message_payload initMsg)).

(** The listener of [worker.on("message", ...)]. A value that is not an
    object with a string [type], or whose [type] matches no case, has no
    constructor here: the listener does nothing on it. *)
Definition on_message (message : WorkerToMainMessage) (st : HostState) : HostState :=
  match message with
  | RegistrationComplete =>
      readyResolve (clear_registrationTimer st)
  | RegistrationError err =>
      readyReject
        (Error ("plugin " +:+ params_pluginId (params st)
                  +:+ " registration failed: " +:+ err))
        (clear_registrationTimer st)
  | RegisterTool descriptor =>
      if onRegisterTool (params st)
      then call_param (OnRegisterTool descriptor) st else st
  | RegisterHook hookName handlerId priority =>
      if onRegisterHook (params st)
      then call_param (OnRegisterHook hookName handlerId priority) st else st
  | RegisterService serviceId =>
      if onRegisterService (params st)
      then call_param (OnRegisterService serviceId) st else st
  | RegisterCommand name description usage =>
      if onRegisterCommand (params st)
      then call_param (OnRegisterCommand name description usage) st else st
  | InvokeResult reqId ok value err =>
      if ok then
        let '(_, r, l) := resolve reqId (default VUndefined value) (rpc st) (loop st) in
        set_loop l (set_rpc r st)
      else
        let '(_, r, l) :=
          reject reqId (Error (default "unknown worker error" err)) (rpc st) (loop st) in
        set_loop l (set_rpc r st)
  | Log level message args =>
      call_param (LoggerCall level (worker_prefix st +:+ message) (default [] args)) st
  | UnsupportedApi method err =>
      call_param
        (LoggerCall LevelWarn
           (worker_prefix st +:+ "unsupported API call: " +:+ method
              +:+ " â€” " +:+ err)
           []) st
  end.

(** [String(err)] on the host. The value [err] reached the host through
    the clone of the thread boundary, so it holds no closure and no
    conversion method of the plugin is there to be called. *)
Definition host_String (err : JsValue) : Completion string :=
  String_ no_method err.

(** The listener of [worker.on("error", ...)]. When [String(err)] throws,
    the listener ends there, with the registration timer cleared and
    nothing rejected; an [Error] always converts. *)
Definition on_error (err : JsValue) (st : HostState) : HostState :=
  let st1 := clear_registrationTimer st in
  match host_String err with
  | Normal text =>
      let st2 :=
        readyReject (match err with
                     | VError _ _ => err
                     | _ => Error text
                     end) st1 in
      rpc_rejectAll (Error ("worker crashed: " +:+ text)) st2
  | Throw _ => st1
  end.

(** The listener that [terminate] adds with [worker.once("exit", ...)]. *)
Definition run_exit_once (listener : nat * nat) (l : Loop) : Loop :=
  let '(timer, exitPromise) := listener in
  settle exitPromise (Fulfilled VUndefined) (clearTimeout timer l).

(** The [exit] event: the listener of [worker.on("exit", ...)], then the
    listeners added by [terminate], which are dropped once run. *)
Definition on_exit (code : Z) (st : HostState) : HostState :=
  let st1 :=
    if negb (code =? 0) then
      let err := Error ("worker exited with code " +:+ Z_to_string code) in
      rpc_rejectAll err (readyReject err st)
    else st in
  let l := fold_left (fun l listener => run_exit_once listener l) (exit_once st1) (loop st1) in
  set_exited true (set_exit_once [] (set_loop l st1)).

(** A timer fires: the loop runs its callback and the timer is spent. *)
Definition on_timer (t : nat) (st : HostState) : HostState :=
  match due_timer t (loop st) with
  | None => st
  | Some tm =>
      let st1 := set_loop (clearTimeout t (loop st)) st in
      match callback tm with
      | RpcTimeout reqId p timeoutMs =>
          let '(r, l) := on_timeout reqId p timeoutMs (rpc st1) (loop st1) in
          set_loop l (set_rpc r st1)
      | RegistrationTimeout =>
          readyReject
            (Error ("plugin " +:+ params_pluginId (params st1)
                      +:+ " registration timed out after "
                      +:+ Z_to_string REGISTRATION_TIMEOUT_MS +:+ "ms")) st1
      | ShutdownTimeout exitPromise =>
          set_loop (settle exitPromise (Fulfilled VUndefined) (loop st1)) st1
      end
  end.

Definition timeout_of (c : Invocation) : Z :=
  match c with
  | ToolCall _ _ => TOOL_INVOKE_TIMEOUT_MS
  | HookCall _ _ _ => HOOK_INVOKE_TIMEOUT_MS
  | ServiceStartCall _ => SERVICE_START_TIMEOUT_MS
  | ServiceStopCall _ => SERVICE_STOP_TIMEOUT_MS
  | CommandCall _ _ _ => TOOL_INVOKE_TIMEOUT_MS
  end.

Definition message_of (reqId : string) (c : Invocation) : MainToWorkerMessage :=
  match c with
  | ToolCall toolName args => InvokeTool reqId toolName args
  | HookCall hookName handlerId event => InvokeHook reqId hookName handlerId event
  | ServiceStartCall serviceId => InvokeServiceStart reqId serviceId
  | ServiceStopCall serviceId => InvokeServiceStop reqId serviceId
  | CommandCall commandName args context => InvokeCommand reqId commandName args context
  end.

(** [invokeTool], [invokeHook] and [invokeCommand] end in
    [return promise]; the two service methods end in [await promise]. *)
Definition returns_value (c : Invocation) : bool :=
  match c with
  | ServiceStartCall _ | ServiceStopCall _ => false
  | _ => true
  end.

(** A call of one of the five invocation methods, up to its first
    [await]: the call becomes a task, whose index is the number of tasks
    before it. *)
Definition invoke (c : Invocation) (st : HostState) : HostState :=
  if terminated st
  then set_tasks (tasks st ++ [Done (Rejected (Error "worker terminated"))]) st
  else set_tasks (tasks st ++ [AwaitReady c]) st.

Definition invokeTool (toolName : string) (args : JsValue) : HostState -> HostState :=
  invoke (ToolCall toolName args).
Definition invokeHook (hookName handlerId : string) (event : JsValue) : HostState -> HostState :=
  invoke (HookCall hookName handlerId event).
Definition invokeServiceStart (serviceId : string) : HostState -> HostState :=
  invoke (ServiceStartCall serviceId).
Definition invokeServiceStop (serviceId : string) : HostState -> HostState :=
  invoke (ServiceStopCall serviceId).
Definition invokeCommand (commandName : string) (args : list string) (context : JsValue)
  : HostState -> HostState :=
  invoke (CommandCall commandName args context).

(** [terminate()], up to [await worker.terminate()]. *)
Definition terminate (st : HostState) : HostState :=
  if terminated st
  then set_tasks (tasks st ++ [Done (Fulfilled VUndefined)]) st
  else
    let st1 := set_terminated true st in
    let st2 := rpc_rejectAll (Error "worker terminated") st1 in
    let '(exitPromise, l1) := newPromise (loop st2) in
    let '(timer, l2) := setTimeout (ShutdownTimeout exitPromise) SHUTDOWN_TIMEOUT_MS l1 in
    let st3 := set_exit_once (exit_once st2 ++ [(timer, exitPromise)]) (set_loop l2 st2) in
    let st4 := set_terminate_requested true st3 in
    set_tasks (tasks st4 ++ [AwaitWorkerTerminate exitPromise]) st4.

(** A suspended task continues once what it awaits has settled. [uuid]
    is what [crypto.randomUUID()] returns if the continuation creates a
    request. *)
Definition continue (task : Task) (uuid : string) (st : HostState) : Task * HostState :=
  match task with
  | AwaitReady c =>
      match promise_state (ready st) (loop st) with
      | Pending => (task, st)
      | Rejected reason => (Done (Rejected reason), st)
      | Fulfilled _ =>
          let '((reqId, promise), r, l) :=
            createRequest uuid (timeout_of c) (rpc st) (loop st) in
          let st1 := set_loop l (set_rpc r st) in
          let msg := message_of reqId c in
          if main_message_cloneable msg
          then (AwaitRequest promise (returns_value c), set_sent (sent st1 ++ [msg]) st1)
          else (Done (Rejected (DataCloneError (main_message_payload msg))), st1)
      end
  | AwaitRequest promise with_value =>
      match promise_state promise (loop st) with
      | Pending => (task, st)
      | Rejected reason => (Done (Rejected reason), st)
      | Fulfilled v => (Done (Fulfilled (if with_value then v else VUndefined)), st)
      end
  | AwaitWorkerTerminate exitPromise =>
      if exited st then (AwaitExit exitPromise, st) else (task, st)
  | AwaitExit exitPromise =>
      match promise_state exitPromise (loop st) with
      | Fulfilled _ => (Done (Fulfilled VUndefined), st)
      | _ => (task, st)
      end
  | Done _ => (task, st)
  end.

Definition resume (i : nat) (uuid : string) (st : HostState) : HostState :=
  match tasks st !! i with
  | None => st
  | Some task =>
      let '(task1, st1) := continue task uuid st in
      set_tasks (<[i := task1]> (tasks st1)) st1
  end.

(** What can happen to a supervisor: an event of its worker, a timer, the
    passing of time, a call by the host, the continuation of a call. *)
Inductive Event :=
| Message (m : WorkerToMainMessage)
| WorkerError (err : JsValue)
| WorkerExit (code : Z)
| TimerFires (t : nat)
| TimePasses (dt : Z)
| Invoke (c : Invocation)
| Terminate
| Resume (task : nat) (uuid : string).

Definition step (e : Event) (st : HostState) : HostState :=
  match e with
  | Message m => on_message m st
  | WorkerError err => on_error err st
  | WorkerExit code => on_exit code st
  | TimerFires t => on_timer t st
  | TimePasses dt => set_loop (advance dt (loop st)) st
  | Invoke c => invoke c st
  | Terminate => terminate st
  | Resume i uuid => resume i uuid st
  end.

Definition run (events : list Event) (st : HostState) : HostState :=
  fold_left (fun st e => step e st) events st.

(** ** What the supervisor keeps true *)

(** A promise that is not the correlator's: it exists, and no pending
    request settles it. *)
Definition foreign_promise (s : RpcCorrelator * Loop) (p : nat) : Prop :=
  (p < length (promises (snd s)))%nat /\
  forall k e, map_get k (pending (fst s)) = Some e -> promise e <> p.

(** A timer that is not the correlator's: it exists, and while it is
    armed its callback is not the timeout of a request. *)
Definition foreign_timer (s : RpcCorrelator * Loop) (t : nat) : Prop :=
  (t < length (timers (snd s)))%nat /\
  forall tm, timers (snd s) !! t = Some (Some tm) ->
             forall k q ms, callback tm <> RpcTimeout k q ms.

(** The supervisor's own promises and timers: [ready] and the
    registration timer, and what each [worker.once("exit")] listener
    holds. *)
Definition own_promises (st : HostState) : list nat :=
  ready st :: map snd (exit_once st).

Definition own_timers (st : HostState) : list nat :=
  registrationTimer st :: map fst (exit_once st).

(** The correlator agrees with the loop, and the promises and timers
    that the supervisor uses itself, directly or from a shutdown timer,
    are not the correlator's. *)
Definition sound_with (s : RpcCorrelator * Loop) (ps ts : list nat) : Prop :=
  consistent s /\
  Forall (foreign_promise s) ps /\
  Forall (foreign_timer s) ts /\
  (forall u tm ep, timers (snd s) !! u = Some (Some tm) ->
                   callback tm = ShutdownTimeout ep -> foreign_promise s ep).

Definition sound (st : HostState) : Prop :=
  sound_with (rpc st, loop st) (own_promises st) (own_timers st).

(** The second state has the promises and timers of the first, no
    request that the first did not have, and no armed timer that the first
    did not have. *)
Definition shrinks (s s' : RpcCorrelator * Loop) : Prop :=
  length (promises (snd s')) = length (promises (snd s)) /\
  length (timers (snd s')) = length (timers (snd s)) /\
  (forall k e, map_get k (pending (fst s')) = Some e ->
               map_get k (pending (fst s)) = Some e) /\
  (forall u tm, timers (snd s') !! u = Some (Some tm) ->
                timers (snd s) !! u = Some (Some tm)).

(** The continuation of a call creates its request under an identifier
    that is not in the table. *)
Definition fresh_uuid (e : Event) (st : HostState) : bool :=
  match e with
  | Resume i uuid =>
      match tasks st !! i, map_get uuid (pending (rpc st)) with
      | Some (AwaitReady _), Some _ => false
      | _, _ => true
      end
  | _ => true
  end.

Fixpoint fresh_uuids (events : list Event) (st : HostState) : bool :=
  match events with
  | [] => true
  | e :: rest => fresh_uuid e st && fresh_uuids rest (step e st)
  end.

End MainHost.

(* ===================================================================== *)
(** * __fixtures__: the plugins of the test suite *)
(* ===================================================================== *)

Module Fixtures.

Import WorkerEntry.

(** The closures of [minimal-plugin.ts], numbered in source order. *)
Definition echo_execute : JsValue :=
  VFun 1 "async (args) => { return { echo: args.message }; }".
Definition session_start_handler : JsValue :=
  VFun 2 "(event) => { return { handled: true, event }; }".
Definition service_start : JsValue := VFun 3 "async () => {}".
Definition service_stop : JsValue := VFun 4 "async () => {}".
Definition command_handler : JsValue :=
  VFun 5 "async (args) => { return { text: `executed with ${args.length} args` }; }".

(** What awaiting a call of each closure yields; none of them uses the
    API object while it runs. *)
Definition call (f : nat) (args : list JsValue) : list ApiCall * Settlement JsValue :=
  ([],
   match f, args with
   | 1%nat, VObj props :: _ => Fulfils (VObj [("echo", prop "message" props)])
   | 2%nat, event :: _ =>
       Fulfils (VObj [("handled", VBool true); ("event", event)])
   | 3%nat, _ | 4%nat, _ => Fulfils VUndefined
   | 5%nat, VArr items :: _ =>
       Fulfils (VObj [("text",
                       VStr ("executed with "
                               +:+ Z_to_string (Z.of_nat (length items)) +:+ " args"))])
   | _, _ => Rejects (TypeError "Cannot read properties of undefined")
   end).

(** The values of the fixtures carry no conversion method. *)
Definition js_call : nat -> JsValue -> list JsValue -> Completion JsValue := no_method.
Definition stack : nat := 0.

(** [minimal-plugin.ts]: one tool, one hook, one service, one command. *)
Definition minimal_plugin : BridgeApi -> M unit :=
  script
    [ CallRegisterTool
        [("name", VStr "test-echo");
         ("description", VStr "Echoes the input");
         ("parameters",
          VObj [("type", VStr "object");
                ("properties", VObj [("message", VObj [("type", VStr "string")])])]);
         ("execute", echo_execute)]
        None;
      CallOn "session_start" session_start_handler None;
      CallRegisterService (Some "test-service") service_start service_stop;
      CallRegisterCommand (Some "test-cmd") (Some "A test command") None command_handler ].

(** [crash-plugin.ts] *)
Definition crash_plugin : BridgeApi -> M unit :=
  fun _ => throw (Error "intentional registration crash").

(** [unsupported-api-plugin.ts] *)
Definition unsupported_api_plugin : BridgeApi -> M unit :=
  script [ CallAccess (Method "registerChannel") ].

(** The loader on the three fixture files: each exports [register]. *)
Definition load_plugin (init : WorkerInitMessage)
  : Completion (option (BridgeApi -> M unit)) :=
  if String.eqb (pluginSource init) "__fixtures__/minimal-plugin.ts"
  then Normal (Some minimal_plugin)
  else if String.eqb (pluginSource init) "__fixtures__/crash-plugin.ts"
  then Normal (Some crash_plugin)
  else if String.eqb (pluginSource init) "__fixtures__/unsupported-api-plugin.ts"
  then Normal (Some unsupported_api_plugin)
  else Throw (Error ("Cannot find module '" +:+ pluginSource init +:+ "'")).

(** The names and ids in the fixtures carry no white space around them,
    so [trim] leaves them as they are. *)
Definition trim (s : string) : string := s.

Definition params (id source : string) : MainHost.WorkerHostParams :=
  {| MainHost.params_pluginId := id;
     MainHost.params_pluginSource := source;
     MainHost.params_pluginConfig := None;
     MainHost.params_metadata :=
       {| meta_id := id; meta_name := id; meta_version := None;
          meta_description := None |};
     MainHost.params_jitiAlias := None;
     MainHost.onRegisterTool := true; MainHost.onRegisterHook := true;
     MainHost.onRegisterService := true; MainHost.onRegisterCommand := true |}.

(** The supervisor of a plugin "p" as [createWorkerHost] leaves it, and
    the same supervisor once its unit has posted [registration:complete]. *)
Definition started : MainHost.HostState :=
  {| MainHost.params := params "p" "/plugins/p.ts";
     MainHost.loop :=
       {| now := 0; promises := [Pending];
          timers := [Some {| due := 10000; callback := RegistrationTimeout |}] |};
     MainHost.rpc := Rpc.new_RpcCorrelator;
     MainHost.terminated := false;
     MainHost.ready := 0;
     MainHost.registrationTimer := 0;
     MainHost.sent :=
       [Init {| pluginId := "p"; pluginSource := "/plugins/p.ts"; pluginConfig := None;
                metadata := {| meta_id := "p"; meta_name := "p"; meta_version := None;
                               meta_description := None |};
                jitiAlias := None |}];
     MainHost.calls := [];
     MainHost.exit_once := [];
     MainHost.terminate_requested := false;
     MainHost.exited := false;
     MainHost.tasks := [] |}.

Definition registered : MainHost.HostState :=
  MainHost.on_message RegistrationComplete started.

(** The two sides connected. The unit handles the messages that the
    supervisor has sent since [seen], in order, and the supervisor then
    handles what the unit posted in reply, in order. *)
Definition unit_handles (init : WorkerInitMessage) (msgs : list MainToWorkerMessage)
    (w : WorkerState) : WorkerState :=
  fold_left
    (fun w m =>
       snd (WorkerEntry.on_message trim js_call stack call
              (createBridgeApi trim js_call stack init) load_plugin m w))
    msgs w.

Definition init_message (st : MainHost.HostState) : WorkerInitMessage :=
  let p := MainHost.params st in
  {| pluginId := MainHost.params_pluginId p;
     pluginSource := MainHost.params_pluginSource p;
     pluginConfig := MainHost.params_pluginConfig p;
     metadata := MainHost.params_metadata p;
     jitiAlias := MainHost.params_jitiAlias p |}.

Definition exchange (seen : nat) (st : MainHost.HostState) (w : WorkerState)
  : MainHost.HostState * WorkerState :=
  let w1 := unit_handles (init_message st) (drop seen (MainHost.sent st)) w in
  let replies := drop (length (posted w)) (posted w1) in
  (fold_left (fun st m => MainHost.on_message m st) replies st, w1).

(** A supervisor spawned on a fixture, after the unit has handled [init]
    and the supervisor the messages of the registration. *)
Definition spawned (id source : string) : option (MainHost.HostState * WorkerState) :=
  match MainHost.createWorkerHost (params id source) with
  | Normal st => Some (exchange 0 st initial_state)
  | Throw _ => None
  end.

(** A call of [invokeTool] on a spawned supervisor, taken to its end: the
    call continues past [await ready], the unit answers, the supervisor
    handles the answer, and the call continues to its return. *)
Definition invokeTool_outcome (toolName : string) (args : JsValue)
    (system : MainHost.HostState * WorkerState) : option MainHost.Task :=
  let '(st, w) := system in
  let task := length (MainHost.tasks st) in
  let st1 :=
    MainHost.run [MainHost.Invoke (MainHost.ToolCall toolName args);
                  MainHost.Resume task "7b0c5d1e-0000-4000-8000-000000000001"] st in
  let '(st2, _) := exchange (length (MainHost.sent st)) st1 w in
  MainHost.tasks (MainHost.resume task "" st2) !! task.

End Fixtures.

(* ===================================================================== *)
(** * Properties *)
(* ===================================================================== *)

(** ** Maps *)

Section MapFacts.

Context {V : Type}.
Implicit Types (m : JsMap V) (k : string) (v : V).

Lemma map_get_In m k v : map_get k m = Some v -> In (k, v) m.
Proof.
  induction m as [|[k' v'] m IH]; simpl; [discriminate|].
  destruct (String.eqb_spec k k') as [->|Hne].
  - intros [= ->]. now left.
  - intros H. right. auto.
Qed.

Lemma In_map_get m k v : NoDup (map_keys m) -> In (k, v) m -> map_get k m = Some v.
Proof.
  induction m as [|[k' v'] m IH]; simpl; [tauto|].
  intros Hnd. apply NoDup_cons in Hnd as [Hnotin Hnd].
  intros [[= -> ->]|Hin].
  - now rewrite String.eqb_refl.
  - destruct (String.eqb_spec k k') as [->|Hne]; [|now apply IH].
    exfalso. apply Hnotin. apply list_elem_of_In.
    apply in_map_iff. now exists (k', v).
Qed.

Lemma map_get_None_not_key m k : map_get k m = None -> ~ In k (map_keys m).
Proof.
  induction m as [|[k' v'] m IH]; simpl; [tauto|].
  destruct (String.eqb_spec k k') as [->|Hne]; [discriminate|].
  intros H [Heq|Hin]; [congruence|]. now apply IH.
Qed.

Lemma map_get_set_eq m k v : map_get k (map_set k v m) = Some v.
Proof.
  induction m as [|[k' v'] m IH]; simpl.
  - now rewrite String.eqb_refl.
  - destruct (String.eqb_spec k k') as [->|Hne]; simpl.
    + now rewrite String.eqb_refl.
    + destruct (String.eqb_spec k k'); [congruence|]. exact IH.
Qed.

Lemma map_get_set_ne m k k' v : k' <> k -> map_get k' (map_set k v m) = map_get k' m.
Proof.
  intros Hne. induction m as [|[k0 v0] m IH]; simpl.
  - destruct (String.eqb_spec k' k); [congruence|reflexivity].
  - destruct (String.eqb_spec k k0) as [->|Hk]; simpl.
    + destruct (String.eqb_spec k' k0); [congruence|reflexivity].
    + destruct (String.eqb_spec k' k0); [reflexivity|exact IH].
Qed.

Lemma map_keys_set_absent m k v :
  map_get k m = None -> map_keys (map_set k v m) = (map_keys m ++ [k])%list.
Proof.
  induction m as [|[k' v'] m IH]; simpl; [reflexivity|].
  destruct (String.eqb_spec k k'); [discriminate|].
  intros H. simpl. f_equal. now apply IH.
Qed.

Lemma map_keys_set_present m k v :
  map_get k m <> None -> map_keys (map_set k v m) = map_keys m.
Proof.
  induction m as [|[k' v'] m IH]; simpl; [congruence|].
  destruct (String.eqb_spec k k') as [->|Hne]; simpl; [reflexivity|].
  intros H. f_equal. now apply IH.
Qed.

Lemma map_set_NoDup m k v : NoDup (map_keys m) -> NoDup (map_keys (map_set k v m)).
Proof.
  intros Hnd. destruct (map_get k m) eqn:Hget.
  - rewrite map_keys_set_present; [exact Hnd|congruence].
  - rewrite map_keys_set_absent by exact Hget.
    apply NoDup_app. split; [exact Hnd|]. split.
    + intros x Hx Hin. apply list_elem_of_In in Hx.
      apply list_elem_of_singleton in Hin. subst x.
      now apply (map_get_None_not_key m k).
    + apply NoDup_singleton.
Qed.

Lemma map_delete_In m k k' v : In (k', v) (map_delete k m) -> In (k', v) m.
Proof.
  induction m as [|[k0 v0] m IH]; simpl; [tauto|].
  destruct (String.eqb_spec k k0) as [->|Hne]; simpl; [tauto|].
  intros [H|H]; [now left|right; auto].
Qed.

Lemma map_delete_NoDup m k : NoDup (map_keys m) -> NoDup (map_keys (map_delete k m)).
Proof.
  induction m as [|[k0 v0] m IH]; simpl; [trivial|].
  intros Hnd. apply NoDup_cons in Hnd as [Hnotin Hnd].
  destruct (String.eqb_spec k k0) as [->|Hne]; simpl; [exact Hnd|].
  apply NoDup_cons. split; [|now apply IH].
  intros Hin. apply Hnotin.
  apply list_elem_of_In in Hin. apply list_elem_of_In.
  apply in_map_iff in Hin as [[k1 v1] [Hk Hin]]. simpl in Hk. subst k1.
  apply in_map_iff. exists (k0, v1). split; [reflexivity|].
  now apply (map_delete_In m k).
Qed.

Lemma map_get_delete_eq m k : NoDup (map_keys m) -> map_get k (map_delete k m) = None.
Proof.
  induction m as [|[k0 v0] m IH]; simpl; [trivial|].
  intros Hnd. apply NoDup_cons in Hnd as [Hnotin Hnd].
  destruct (String.eqb_spec k k0) as [->|Hne]; simpl.
  - destruct (map_get k0 m) eqn:Hget; [|reflexivity].
    exfalso. apply Hnotin. apply list_elem_of_In.
    apply in_map_iff. exists (k0, v). split; [reflexivity|].
    now apply map_get_In.
  - destruct (String.eqb_spec k k0); [congruence|]. now apply IH.
Qed.

Lemma map_get_delete_ne m k k' : k' <> k -> map_get k' (map_delete k m) = map_get k' m.
Proof.
  intros Hne. induction m as [|[k0 v0] m IH]; simpl; [reflexivity|].
  destruct (String.eqb_spec k k0) as [->|Hk]; simpl.
  - destruct (String.eqb_spec k' k0); [congruence|reflexivity].
  - destruct (String.eqb_spec k' k0); [reflexivity|exact IH].
Qed.

End MapFacts.

(** ** Promises and timers *)

Section LoopFacts.

Implicit Types (l : Loop) (p q t u : nat) (s : PromiseState).

Lemma settle_timers p s l : timers (settle p s l) = timers l.
Proof. unfold settle. destruct (promises l !! p) as [[]|]; reflexivity. Qed.

Lemma settle_now p s l : now (settle p s l) = now l.
Proof. unfold settle. destruct (promises l !! p) as [[]|]; reflexivity. Qed.

Lemma settle_length p s l : length (promises (settle p s l)) = length (promises l).
Proof.
  unfold settle. destruct (promises l !! p) as [[]|]; simpl; try reflexivity.
  apply length_insert.
Qed.

(** A pending promise takes the state it is settled with. *)
Lemma settle_pending p s l :
  promises l !! p = Some Pending -> promises (settle p s l) !! p = Some s.
Proof.
  intros H. unfold settle. rewrite H. simpl.
  apply list_lookup_insert_eq. now apply lookup_lt_Some in H.
Qed.

Lemma settle_other p q s l : q <> p -> promises (settle p s l) !! q = promises l !! q.
Proof.
  intros Hne. unfold settle. destruct (promises l !! p) as [[]|]; simpl; try reflexivity.
  apply list_lookup_insert_ne. congruence.
Qed.

(** A settled promise keeps its state whatever is settled later. *)
Lemma settle_settled p q s x l :
  promises l !! q = Some x -> x <> Pending -> promises (settle p s l) !! q = Some x.
Proof.
  intros Hq Hx. destruct (decide (q = p)) as [->|Hne].
  - unfold settle. rewrite Hq. destruct x; congruence.
  - now rewrite settle_other.
Qed.

Lemma settle_armed p s t l : armed t (settle p s l) = armed t l.
Proof. unfold armed. now rewrite settle_timers. Qed.

Lemma clearTimeout_armed_same t l : armed t (clearTimeout t l) = false.
Proof.
  unfold armed, clearTimeout. simpl.
  destruct (decide (t < length (timers l))%nat) as [Hlt|Hge].
  - now rewrite list_lookup_insert_eq.
  - rewrite list_insert_ge by lia.
    now rewrite lookup_ge_None_2 by lia.
Qed.

Lemma clearTimeout_armed_false t u l : armed u l = false -> armed u (clearTimeout t l) = false.
Proof.
  intros H. destruct (decide (u = t)) as [->|Hne]; [apply clearTimeout_armed_same|].
  unfold armed, clearTimeout in *. simpl.
  now rewrite list_lookup_insert_ne by congruence.
Qed.

Lemma clearTimeout_armed_other t u l : u <> t -> armed u (clearTimeout t l) = armed u l.
Proof.
  intros Hne. unfold armed, clearTimeout. simpl.
  now rewrite list_lookup_insert_ne by congruence.
Qed.



Lemma armed_lt t l : armed t l = true -> (t < length (timers l))%nat.
Proof.
  unfold armed. destruct (timers l !! t) eqn:H; [|discriminate].
  intros _. now apply lookup_lt_Some in H.
Qed.

End LoopFacts.

(** ** The correlator *)

Section RpcFacts.

Import Rpc.

Implicit Types (rpc : RpcCorrelator) (l : Loop) (entries : JsMap PendingRequest).

Lemma reject_each_armed_false entries error l t :
  armed t l = false -> armed t (reject_each entries error l) = false.
Proof.
  revert l. induction entries as [|[k e] entries IH]; intros l H; simpl; [exact H|].
  apply IH. rewrite settle_armed. now apply clearTimeout_armed_false.
Qed.

Lemma reject_each_clears entries error l reqId entry :
  In (reqId, entry) entries -> armed (timer entry) (reject_each entries error l) = false.
Proof.
  revert l. induction entries as [|[k e] entries IH]; intros l Hin; simpl; [destruct Hin|].
  destruct Hin as [[= -> ->]|Hin]; [|now apply IH].
  apply reject_each_armed_false. rewrite settle_armed. apply clearTimeout_armed_same.
Qed.

Lemma reject_each_settled entries error l p x :
  promises l !! p = Some x -> x <> Pending ->
  promises (reject_each entries error l) !! p = Some x.
Proof.
  revert l. induction entries as [|[k e] entries IH]; intros l Hp Hx; simpl; [exact Hp|].
  apply IH; [|exact Hx]. now apply settle_settled.
Qed.

Lemma reject_each_rejects entries error l reqId entry :
  In (reqId, entry) entries ->
  promises l !! promise entry = Some Pending ->
  promises (reject_each entries error l) !! promise entry = Some (Rejected error).
Proof.
  revert l. induction entries as [|[k e] entries IH]; intros l Hin Hp; simpl; [destruct Hin|].
  destruct (decide (promise e = promise entry)) as [Heq|Hne].
  - apply reject_each_settled; [|discriminate].
    rewrite Heq. now apply settle_pending.
  - destruct Hin as [[= -> ->]|Hin]; [congruence|].
    apply (IH _ Hin). rewrite settle_other by congruence. exact Hp.
Qed.

End RpcFacts.

(** C6. [rejectAll(error)] leaves the table of pending requests empty;
    for every request that was in the table when it was called, the timer
    is no longer armed and the promise, if it was still outstanding, is
    rejected with that same [error]. When the correlator agrees with its
    loop, as it does in every state it reaches, the promise of every
    pending request is outstanding, so all of them are rejected. *)
Theorem rejectAll_rejects_every_pending_request :
  forall (rpc : Rpc.RpcCorrelator) (l : Loop) (error : JsValue),
    let rpc' := fst (Rpc.rejectAll error rpc l) in
    let l' := snd (Rpc.rejectAll error rpc l) in
    Rpc.size rpc' = 0%nat /\
    forall reqId entry,
      In (reqId, entry) (Rpc.pending rpc) ->
      armed (Rpc.timer entry) l' = false /\
      (promises l !! Rpc.promise entry = Some Pending ->
       promises l' !! Rpc.promise entry = Some (Rejected error)) /\
      (Rpc.consistent (rpc, l) ->
       promises l' !! Rpc.promise entry = Some (Rejected error)).
Proof.
  intros rpc l error. simpl. split; [reflexivity|].
  intros reqId entry Hin. split; [|split].
  - now apply (reject_each_clears _ _ _ reqId).
  - now apply (reject_each_rejects _ _ _ reqId).
  - intros (Hnd & Hent & _). apply (reject_each_rejects _ _ _ reqId entry Hin).
    apply (Hent reqId). now apply In_map_get.
Qed.

Section Consistency.

Import Rpc.

Implicit Types (rpc : RpcCorrelator) (l : Loop).

Lemma map_get_delete_Some {V} (m : JsMap V) k k' v :
  NoDup (map_keys m) -> map_get k' (map_delete k m) = Some v ->
  k' <> k /\ map_get k' m = Some v.
Proof.
  intros Hnd H. destruct (decide (k' = k)) as [->|Hne].
  - rewrite map_get_delete_eq in H by exact Hnd. discriminate.
  - split; [exact Hne|]. now rewrite map_get_delete_ne in H.
Qed.

Lemma map_get_delete_None {V} (m : JsMap V) k k' :
  map_get k' m = None -> map_get k' (map_delete k m) = None.
Proof.
  induction m as [|[k0 v0] m IH]; simpl; [trivial|].
  destruct (String.eqb_spec k' k0) as [->|Hne]; [discriminate|].
  intros H. destruct (String.eqb_spec k k0); simpl; [exact H|].
  destruct (String.eqb_spec k' k0); [congruence|]. now apply IH.
Qed.

(** Taking a pending request out of the table, clearing its timer and
    settling its promise keeps the correlator and the loop in agreement.
    This is what [resolve], [reject] and the timeout callback do. *)
Lemma consistent_finish rpc l k e st :
  consistent (rpc, l) ->
  map_get k (pending rpc) = Some e ->
  consistent ({| pending := map_delete k (pending rpc) |},
              settle (promise e) st (clearTimeout (timer e) l)).
Proof.
  intros (Hnd & Hent & Htim & Hinj) Hk. simpl.
  destruct (Hent k e Hk) as (Hpe & tme & mse & Hte & Hcbe).
  assert (Hother : forall k' e', k' <> k -> map_get k' (pending rpc) = Some e' ->
                     promise e' <> promise e /\ timer e' <> timer e).
  { intros k' e' Hne Hk'. split.
    - intros Heq. apply Hne. now apply (Hinj k' k e' e).
    - intros Heq. destruct (Hent k' e' Hk') as (_ & tm' & ms' & Ht' & Hcb').
      rewrite Heq, Hte in Ht'. injection Ht' as <-.
      rewrite Hcbe in Hcb'. congruence. }
  repeat split.
  - now apply map_delete_NoDup.
  - apply map_get_delete_Some in H as [Hne Hk']; [|exact Hnd].
    destruct (Hother _ _ Hne Hk') as [Hp _].
    rewrite settle_other by exact Hp. simpl.
    now destruct (Hent _ _ Hk').
  - apply map_get_delete_Some in H as [Hne Hk']; [|exact Hnd].
    destruct (Hother _ _ Hne Hk') as [_ Ht].
    destruct (Hent _ _ Hk') as (_ & tm' & ms' & Ht' & Hcb').
    exists tm', ms'. rewrite settle_timers. simpl.
    rewrite list_lookup_insert_ne by congruence. now split.
  - intros u tm k0 q ms Hu Hcb. rewrite settle_timers in Hu. simpl in Hu.
    destruct (decide (u = timer e)) as [->|Hne].
    + rewrite list_lookup_insert_eq in Hu by (now apply lookup_lt_Some in Hte).
      discriminate.
    + rewrite list_lookup_insert_ne in Hu by congruence.
      pose proof (Htim _ _ _ _ _ Hu Hcb) as Hk0.
      rewrite map_get_delete_ne; [exact Hk0|].
      intros ->. rewrite Hk in Hk0. injection Hk0 as ->. now simpl in Hne.
  - intros k1 k2 e1 e2 H1 H2 Heq.
    apply map_get_delete_Some in H1 as [_ H1]; [|exact Hnd].
    apply map_get_delete_Some in H2 as [_ H2]; [|exact Hnd].
    now apply (Hinj k1 k2 e1 e2).
Qed.

Lemma consistent_createRequest rpc l uuid timeoutMs :
  consistent (rpc, l) ->
  map_get uuid (pending rpc) = None ->
  consistent (snd (fst (createRequest uuid timeoutMs rpc l)),
              snd (createRequest uuid timeoutMs rpc l)).
Proof.
  intros (Hnd & Hent & Htim & Hinj) Hfresh. unfold createRequest. simpl.
  assert (Hbound : forall k e, map_get k (pending rpc) = Some e ->
                     (promise e < length (promises l))%nat /\
                     (timer e < length (timers l))%nat).
  { intros k e Hk. destruct (Hent k e Hk) as (Hp & tm & ms & Ht & _).
    split; [now apply lookup_lt_Some in Hp|now apply lookup_lt_Some in Ht]. }
  assert (Hcases : forall k e,
             map_get k (map_set uuid {| promise := length (promises l);
                                        timer := length (timers l) |} (pending rpc)) = Some e ->
             (k = uuid /\ e = {| promise := length (promises l); timer := length (timers l) |})
             \/ (k <> uuid /\ map_get k (pending rpc) = Some e)).
  { intros k e Hk. destruct (decide (k = uuid)) as [->|Hne].
    - rewrite map_get_set_eq in Hk. injection Hk as <-. now left.
    - rewrite map_get_set_ne in Hk by exact Hne. now right. }
  repeat split.
  - now apply map_set_NoDup.
  - apply Hcases in H as [[-> ->]|[Hne Hk]]; simpl.
    + now rewrite lookup_app_r, Nat.sub_diag by lia.
    + destruct (Hent _ _ Hk) as [Hp _]. now rewrite lookup_app_l by (now apply lookup_lt_Some in Hp).
  - apply Hcases in H as [[-> ->]|[Hne Hk]]; simpl.
    + eexists _, timeoutMs. rewrite lookup_app_r, Nat.sub_diag by lia. simpl.
      split; reflexivity.
    + destruct (Hent _ _ Hk) as (_ & tm & ms & Ht & Hcb).
      exists tm, ms. rewrite lookup_app_l by (now apply lookup_lt_Some in Ht). now split.
  - intros u tm k q ms Hu Hcb.
    destruct (decide (u < length (timers l))%nat) as [Hlt|Hge].
    + rewrite lookup_app_l in Hu by exact Hlt.
      pose proof (Htim _ _ _ _ _ Hu Hcb) as Hk.
      rewrite map_get_set_ne; [exact Hk|]. intros ->. congruence.
    + rewrite lookup_app_r in Hu by lia.
      destruct (u - length (timers l))%nat as [|n] eqn:Hn; simpl in Hu; [|discriminate].
      injection Hu as <-. simpl in Hcb. injection Hcb as <- <- <-.
      assert (u = length (timers l)) as -> by lia.
      apply map_get_set_eq.
  - intros k1 k2 e1 e2 H1 H2 Heq.
    apply Hcases in H1 as [[-> ->]|[Hne1 H1]]; apply Hcases in H2 as [[-> ->]|[Hne2 H2]];
      simpl in Heq; try reflexivity.
    + apply Hbound in H2. lia.
    + apply Hbound in H1. lia.
    + now apply (Hinj k1 k2 e1 e2).
Qed.

End Consistency.

Section Correlator.

Import Rpc.

Implicit Types (rpc : RpcCorrelator) (l : Loop) (s : RpcCorrelator * Loop).

Lemma consistent_resolve rpc l reqId value :
  consistent (rpc, l) ->
  consistent (snd (fst (resolve reqId value rpc l)), snd (resolve reqId value rpc l)).
Proof.
  intros H. unfold resolve. destruct (map_get reqId (pending rpc)) as [e|] eqn:Hk; simpl.
  - now apply consistent_finish.
  - exact H.
Qed.

Lemma consistent_reject rpc l reqId error :
  consistent (rpc, l) ->
  consistent (snd (fst (reject reqId error rpc l)), snd (reject reqId error rpc l)).
Proof.
  intros H. unfold reject. destruct (map_get reqId (pending rpc)) as [e|] eqn:Hk; simpl.
  - now apply consistent_finish.
  - exact H.
Qed.

Lemma reject_each_keeps_armed entries error l u tm :
  timers (reject_each entries error l) !! u = Some (Some tm) ->
  timers l !! u = Some (Some tm).
Proof.
  revert l. induction entries as [|[k e] entries IH]; intros l H; simpl in *; [exact H|].
  apply IH in H. rewrite settle_timers in H. simpl in H.
  destruct (decide (u = timer e)) as [->|Hne].
  - destruct (decide (timer e < length (timers l))%nat).
    + rewrite list_lookup_insert_eq in H by lia. discriminate.
    + now rewrite list_insert_ge in H by lia.
  - now rewrite list_lookup_insert_ne in H by congruence.
Qed.

Lemma consistent_rejectAll rpc l error :
  consistent (rpc, l) -> consistent (rejectAll error rpc l).
Proof.
  intros (Hnd & Hent & Htim & Hinj). unfold rejectAll, map_clear. simpl.
  repeat split; try discriminate.
  - apply NoDup_nil_2.
  - intros u tm k q ms Hu Hcb. exfalso.
    pose proof (reject_each_keeps_armed _ _ _ _ _ Hu) as Hu0.
    pose proof (Htim _ _ _ _ _ Hu0 Hcb) as Hk.
    apply map_get_In in Hk.
    pose proof (reject_each_clears (pending rpc) error l _ _ Hk) as Hc.
    unfold armed in Hc. simpl in Hc. now rewrite Hu in Hc.
Qed.

Lemma due_timer_Some t l tm :
  due_timer t l = Some tm -> timers l !! t = Some (Some tm) /\ due tm <= now l.
Proof.
  unfold due_timer. destruct (timers l !! t) as [[tm'|]|]; try discriminate.
  destruct (due tm' <=? now l) eqn:Hdue; [|discriminate].
  intros [= ->]. split; [reflexivity|lia].
Qed.

(** When a request timer fires, the request it names is in the table
    with this timer, and firing is taking that request out. *)
Lemma timer_fires_finish rpc l t tm reqId p timeoutMs :
  consistent (rpc, l) ->
  due_timer t l = Some tm -> callback tm = RpcTimeout reqId p timeoutMs ->
  map_get reqId (pending rpc) = Some {| promise := p; timer := t |} /\
  timer_fires t rpc l =
    ({| pending := map_delete reqId (pending rpc) |},
     settle p (Rejected (timeout_error timeoutMs reqId)) (clearTimeout t l)).
Proof.
  intros (Hnd & Hent & Htim & Hinj) Hdue Hcb.
  pose proof (due_timer_Some _ _ _ Hdue) as [Ht _].
  split; [now apply (Htim t tm reqId p timeoutMs)|].
  unfold timer_fires. rewrite Hdue, Hcb. reflexivity.
Qed.

Lemma consistent_timer_fires rpc l t :
  consistent (rpc, l) -> consistent (timer_fires t rpc l).
Proof.
  intros H. unfold timer_fires.
  destruct (due_timer t l) as [tm|] eqn:Hdue; [|exact H].
  destruct (callback tm) as [reqId p timeoutMs| |] eqn:Hcb; try exact H.
  destruct (timer_fires_finish _ _ _ _ _ _ _ H Hdue Hcb) as [Hk _].
  unfold on_timeout.
  exact (consistent_finish rpc l reqId {| promise := p; timer := t |} _ H Hk).
Qed.

(** Every operation keeps the correlator and the loop in agreement,
    provided a new request gets an identifier that is not in the table. *)
Lemma consistent_apply op s :
  consistent s ->
  match op with
  | Create uuid _ => map_get uuid (pending (fst s)) = None
  | _ => True
  end ->
  consistent (apply op s).
Proof.
  destruct s as [rpc l]. intros H Hfresh. destruct op; unfold apply.
  - pose proof (consistent_createRequest rpc l uuid timeoutMs H Hfresh) as Hc.
    now destruct (createRequest uuid timeoutMs rpc l) as [[? ?] ?].
  - pose proof (consistent_resolve rpc l reqId value H) as Hc.
    now destruct (resolve reqId value rpc l) as [[? ?] ?].
  - pose proof (consistent_reject rpc l reqId error H) as Hc.
    now destruct (reject reqId error rpc l) as [[? ?] ?].
  - now apply consistent_rejectAll.
  - now apply consistent_timer_fires.
  - exact H.
Qed.

Lemma consistent_empty : consistent (new_RpcCorrelator, empty_loop).
Proof.
  simpl. repeat split; try discriminate. apply NoDup_nil_2.
Qed.

Lemma consistent_run ops s :
  consistent s -> fresh_ids ops s = true -> consistent (run ops s).
Proof.
  revert s. induction ops as [|op ops IH]; intros s Hc Hfresh; simpl; [exact Hc|].
  simpl in Hfresh. apply andb_true_iff in Hfresh as [Hop Hrest].
  apply IH; [|exact Hrest]. apply consistent_apply; [exact Hc|].
  destruct op; trivial. now destruct (map_get uuid (pending (fst s))).
Qed.

(** Every state that a new correlator reaches agrees with its loop. *)
Lemma reachable_consistent ops :
  fresh_ids ops (new_RpcCorrelator, empty_loop) = true ->
  consistent (run ops (new_RpcCorrelator, empty_loop)).
Proof. apply consistent_run, consistent_empty. Qed.

End Correlator.

Section Settling.

Import Rpc.

Implicit Types (rpc : RpcCorrelator) (l : Loop) (s : RpcCorrelator * Loop).









Lemma now_apply op s : now (snd s) <= now (snd (apply op s)).
Proof.
  destruct s as [rpc l]. destruct op; unfold apply; simpl.
  - unfold createRequest. simpl. lia.
  - unfold resolve. destruct (map_get reqId (pending rpc)); simpl; [|lia].
    rewrite settle_now. simpl. lia.
  - unfold reject. destruct (map_get reqId (pending rpc)); simpl; [|lia].
    rewrite settle_now. simpl. lia.
  - clear. revert l. induction (pending rpc) as [|[k e] entries IH]; intros l; simpl; [lia|].
    etransitivity; [|apply IH]. rewrite settle_now. simpl. lia.
  - unfold timer_fires. destruct (due_timer t l); [|simpl; lia].
    destruct (callback t0); simpl; try lia. rewrite settle_now. simpl. lia.
  - lia.
Qed.

End Settling.

(** C5. For a request id that is not in the table of pending requests,
    [resolve] and [reject] return [false] and leave the correlator, the
    promises and the timers as they were; the supervisor, which routes an
    [invoke:result] message to one of the two, is left unchanged by a
    message that carries such an id. *)
Theorem unknown_request_id_is_ignored :
  forall (st : MainHost.HostState) (reqId : string) (value error : JsValue)
         (ok : bool) (v : option JsValue) (e : option string),
    map_get reqId (Rpc.pending (MainHost.rpc st)) = None ->
    Rpc.resolve reqId value (MainHost.rpc st) (MainHost.loop st)
      = (false, MainHost.rpc st, MainHost.loop st) /\
    Rpc.reject reqId error (MainHost.rpc st) (MainHost.loop st)
      = (false, MainHost.rpc st, MainHost.loop st) /\
    MainHost.on_message (InvokeResult reqId ok v e) st = st.
Proof.
  intros st reqId value error ok v e H.
  assert (Hres : forall x, Rpc.resolve reqId x (MainHost.rpc st) (MainHost.loop st)
                           = (false, MainHost.rpc st, MainHost.loop st)).
  { intros x. unfold Rpc.resolve. now rewrite H. }
  assert (Hrej : forall x, Rpc.reject reqId x (MainHost.rpc st) (MainHost.loop st)
                           = (false, MainHost.rpc st, MainHost.loop st)).
  { intros x. unfold Rpc.reject. now rewrite H. }
  repeat split; [apply Hres|apply Hrej|].
  unfold MainHost.on_message. destruct ok.
  - rewrite Hres. now destruct st.
  - rewrite Hrej. now destruct st.
Qed.

(** An id leaves the table when its request is resolved, rejected or
    timed out, and [rejectAll] empties the table: afterwards the id is
    unknown. *)
Lemma settled_request_id_is_unknown :
  forall (rpc : Rpc.RpcCorrelator) (l : Loop) (reqId : string),
    NoDup (map_keys (Rpc.pending rpc)) ->
    (forall value,
        map_get reqId (Rpc.pending (snd (fst (Rpc.resolve reqId value rpc l)))) = None) /\
    (forall error,
        map_get reqId (Rpc.pending (snd (fst (Rpc.reject reqId error rpc l)))) = None) /\
    (forall p timeoutMs,
        map_get reqId (Rpc.pending (fst (Rpc.on_timeout reqId p timeoutMs rpc l))) = None) /\
    (forall error,
        map_get reqId (Rpc.pending (fst (Rpc.rejectAll error rpc l))) = None).
Proof.
  intros rpc l reqId Hnd. repeat split.
  - intros value. unfold Rpc.resolve.
    destruct (map_get reqId (Rpc.pending rpc)) eqn:H; simpl; [|exact H].
    now apply map_get_delete_eq.
  - intros error. unfold Rpc.reject.
    destruct (map_get reqId (Rpc.pending rpc)) eqn:H; simpl; [|exact H].
    now apply map_get_delete_eq.
  - intros p timeoutMs. simpl. now apply map_get_delete_eq.
Qed.




(** ** JSON *)

Section JsonFacts.

Import JSON.

Lemma Json_induction (P : Json -> Prop) :
  P JNull ->
  (forall b, P (JBool b)) ->
  (forall z, P (JNum z)) ->
  (forall s, P (JStr s)) ->
  (forall items, Forall P items -> P (JArr items)) ->
  (forall members, Forall (fun m => P (snd m)) members -> P (JObj members)) ->
  forall j, P j.
Proof.
  intros HNull HBool HNum HStr HArr HObj.
  fix IH 1. intros [| b | z | s | items | members].
  - exact HNull.
  - apply HBool.
  - apply HNum.
  - apply HStr.
  - apply HArr. induction items as [|x items IHitems]; constructor; [apply IH|exact IHitems].
  - apply HObj. induction members as [|[k x] members IHmembers]; constructor;
      [apply IH|exact IHmembers].
Qed.


Lemma parse_text_obj members :
  parse_text (JObj members) = VObj (parse_members members []).
Proof. reflexivity. Qed.

Lemma map_set_fresh {V} (m : JsMap V) k v :
  ~ In k (map_keys m) -> map_set k v m = (m ++ [(k, v)])%list.
Proof.
  induction m as [|[k0 v0] m IH]; simpl; [reflexivity|].
  intros Hnotin. destruct (String.eqb_spec k k0) as [->|Hne]; [tauto|].
  f_equal. apply IH. tauto.
Qed.

Lemma map_set_Forall {V} (Q : V -> Prop) (m : JsMap V) k v :
  Forall (fun kv => Q (snd kv)) m -> Q v -> Forall (fun kv => Q (snd kv)) (map_set k v m).
Proof.
  intros Hm Hv. induction m as [|[k0 v0] m IH]; simpl.
  - now repeat constructor.
  - apply Forall_cons in Hm as [H0 Hm].
    destruct (String.eqb k k0); constructor; auto.
Qed.

(** Parsing the members of an object keeps the keys distinct, and keeps
    whatever holds of every parsed value. *)
Lemma parse_members_invariant (Q : JsValue -> Prop) members acc :
  NoDup (map_keys acc) ->
  Forall (fun kv => Q (snd kv)) acc ->
  Forall (fun m => Q (parse_text (snd m))) members ->
  NoDup (map_keys (parse_members members acc)) /\
  Forall (fun kv => Q (snd kv)) (parse_members members acc).
Proof.
  revert acc. induction members as [|[k x] members IH]; intros acc Hnd Hacc Hm; simpl.
  - now split.
  - apply Forall_cons in Hm as [Hx Hm]. apply IH; [| |exact Hm].
    + now apply map_set_NoDup.
    + now apply map_set_Forall.
Qed.

Lemma parse_members_fresh members acc :
  NoDup (map_keys acc ++ map fst members) ->
  parse_members members acc
  = (acc ++ map (fun m => (fst m, parse_text (snd m))) members)%list.
Proof.
  revert acc. induction members as [|[k x] members IH]; intros acc Hnd; simpl.
  - now rewrite app_nil_r.
  - simpl in Hnd. rewrite map_set_fresh.
    + rewrite IH.
      * now rewrite <- app_assoc.
      * unfold map_keys in *. rewrite map_app. simpl. now rewrite <- app_assoc.
    + apply NoDup_app in Hnd as (_ & Hdisj & _). intros Hin.
      apply (Hdisj k); [now apply list_elem_of_In|]. apply list_elem_of_here.
Qed.

Lemma serialize_unfold js_call stack hooked key v :
  SerializeJSONProperty js_call stack hooked key v
  = match v with
    | VUndefined | VSymbol _ | VFun _ _ => Normal None
    | VNull => Normal (Some JNull)
    | VBool b => Normal (Some (JBool b))
    | VNum (NumInt z) => Normal (Some (JNum z))
    | VNum NumNegZero => Normal (Some (JNum 0))
    | VNum NumNaN | VNum (NumInf _) => Normal (Some JNull)
    | VBigInt _ => Throw (TypeError "Do not know how to serialize a BigInt")
    | VStr s => Normal (Some (JStr s))
    | VError _ _ => Normal (Some (JObj []))
    | VArr items =>
        bind (SerializeJSONArray js_call stack 0 items) (fun js => Normal (Some (JArr js)))
    | VObj props =>
        match (if hooked then toJSON_of v else None) with
        | Some f =>
            match stack with
            | O => Throw (VError "RangeError" "Maximum call stack size exceeded")
            | S deeper =>
                bind (js_call f v [VStr key])
                     (SerializeJSONProperty js_call deeper false key)
            end
        | None =>
            bind (SerializeJSONObject js_call stack props)
                 (fun js => Normal (Some (JObj js)))
        end
    end.
Proof. destruct stack; destruct v; reflexivity. Qed.

Lemma serialize_arr js_call stack hooked key items :
  SerializeJSONProperty js_call stack hooked key (VArr items)
  = bind (SerializeJSONArray js_call stack 0 items) (fun js => Normal (Some (JArr js))).
Proof. apply serialize_unfold. Qed.

(** An object without a [toJSON] method is serialized member by member. *)
Lemma serialize_obj js_call stack hooked key props :
  toJSON_of (VObj props) = None ->
  SerializeJSONProperty js_call stack hooked key (VObj props)
  = bind (SerializeJSONObject js_call stack props) (fun js => Normal (Some (JObj js))).
Proof. intros H. rewrite serialize_unfold, H. now destruct hooked. Qed.

(** A value that [JSON.stringify] gives a text for is not a closure. *)
Lemma toJSON_of_round_trips props :
  Forall (fun kv => round_trips (snd kv)) props -> toJSON_of (VObj props) = None.
Proof.
  intros H. unfold toJSON_of.
  destruct (own_property "toJSON" props) as [v|] eqn:Hown; [|reflexivity].
  assert (Hv : round_trips v).
  { clear -H Hown. induction H as [|[k x] props Hx _ IH]; [discriminate|].
    cbn [own_property] in Hown.
    destruct (String.eqb "toJSON" k); [injection Hown as <-; exact Hx|auto]. }
  destruct v; try reflexivity.
  destruct Hv as (j & _ & Hj).
  specialize (Hj no_method 0%nat true ""). rewrite serialize_unfold in Hj. discriminate.
Qed.

Lemma round_trips_elements vs :
  Forall round_trips vs ->
  exists js, map parse_text js = vs /\
    forall js_call stack i, SerializeJSONArray js_call stack i vs = Normal js.
Proof.
  induction 1 as [|v vs (j & Hv & Hj) _ (js & Hvs & Hjs)].
  - now exists [].
  - exists (j :: js). split; [simpl; now rewrite Hv, Hvs|].
    intros js_call stack i. simpl. now rewrite Hj, Hjs.
Qed.

Lemma round_trips_members ps :
  Forall (fun kv => round_trips (snd kv)) ps ->
  exists ms, map (fun m => (fst m, parse_text (snd m))) ms = ps /\
    forall js_call stack, SerializeJSONObject js_call stack ps = Normal ms.
Proof.
  induction 1 as [|[k v] ps (j & Hv & Hj) _ (ms & Hps & Hms)].
  - now exists [].
  - exists ((k, j) :: ms). simpl in Hv, Hj. split; [simpl; now rewrite Hv, Hps|].
    intros js_call stack. simpl. now rewrite Hj, Hms.
Qed.

Lemma round_trips_arr vs : Forall round_trips vs -> round_trips (VArr vs).
Proof.
  intros H. destruct (round_trips_elements vs H) as (js & Hvs & Hjs).
  exists (JArr js). split; [simpl; now rewrite Hvs|].
  intros js_call stack hooked key. now rewrite serialize_arr, Hjs.
Qed.

Lemma round_trips_obj ps :
  NoDup (map_keys ps) ->
  Forall (fun kv => round_trips (snd kv)) ps ->
  round_trips (VObj ps).
Proof.
  intros Hnd H. destruct (round_trips_members ps H) as (ms & Hps & Hms).
  exists (JObj ms). split.
  - rewrite parse_text_obj, parse_members_fresh; simpl; [now rewrite Hps|].
    replace (map fst ms) with (map_keys ps); [exact Hnd|].
    unfold map_keys. rewrite <- Hps, map_map. reflexivity.
  - intros js_call stack hooked key.
    rewrite serialize_obj by now apply toJSON_of_round_trips.
    now rewrite Hms.
Qed.

(** What [JSON.parse] builds survives a further JSON round trip. *)
Lemma parse_text_round_trips j : round_trips (parse_text j).
Proof.
  induction j as [| b | z | s | items IH | members IH] using Json_induction.
  - exists JNull. split; [reflexivity|intros; now rewrite serialize_unfold].
  - exists (JBool b). split; [reflexivity|intros; now rewrite serialize_unfold].
  - exists (JNum z). split; [reflexivity|intros; now rewrite serialize_unfold].
  - exists (JStr s). split; [reflexivity|intros; now rewrite serialize_unfold].
  - simpl. apply round_trips_arr. now apply Forall_map.
  - rewrite parse_text_obj.
    destruct (parse_members_invariant round_trips members []) as [Hnd Hvals];
      [apply NoDup_nil_2|constructor|exact IH|].
    now apply round_trips_obj.
Qed.

Lemma forallb_Forall {A} (f : A -> bool) (l : list A) :
  forallb f l = true <-> Forall (fun x => f x = true) l.
Proof.
  induction l as [|x l IH]; simpl.
  - split; [constructor|reflexivity].
  - rewrite andb_true_iff, Forall_cons, IH. reflexivity.
Qed.

(** What [JSON.parse] builds can cross [postMessage]. *)
Lemma parse_text_cloneable j : cloneable (parse_text j) = true.
Proof.
  induction j as [| b | z | s | items IH | members IH] using Json_induction;
    try reflexivity.
  - simpl. apply forallb_Forall. now apply Forall_map.
  - rewrite parse_text_obj. simpl. apply forallb_Forall.
    apply (parse_members_invariant (fun v => cloneable v = true) members []);
      [apply NoDup_nil_2|constructor|exact IH].
Qed.

(** What [JSON.parse] builds is plain data. *)
Lemma parse_text_plain j : plain_data (parse_text j) = true.
Proof.
  induction j as [| b | z | s | items IH | members IH] using Json_induction;
    try reflexivity.
  - simpl. apply forallb_Forall. now apply Forall_map.
  - rewrite parse_text_obj. simpl. apply forallb_Forall.
    apply (parse_members_invariant (fun v => plain_data v = true) members []);
      [apply NoDup_nil_2|constructor|exact IH].
Qed.


End JsonFacts.

(** ** Conversion to a string *)

Section ConversionFacts.

Lemma ToString_arr js_call items :
  ToString js_call (VArr items)
  = bind (join_parts js_call items) (fun parts => Normal (join_with "," parts)).
Proof. reflexivity. Qed.

(** [String(v)] returns for every primitive, a symbol included, and runs
    no code of the plugin. *)
Lemma String_primitive v :
  is_primitive v = true -> exists s, forall js_call, String_ js_call v = Normal s.
Proof.
  destruct v as [| |[]|n|z|s|d|f src|n m|items|props]; try discriminate; intros _;
    eexists; intros js_call; reflexivity.
Qed.


End ConversionFacts.

(** ** The descriptor serializer *)

Section SerializationFacts.

Import JSON Serialization.

Lemma descriptor_keys_allowed d key :
  In key (map_keys (descriptor_props d)) ->
  In key ["name"; "label"; "description"; "parameters"].
Proof.
  destruct d as [n [lab|] [desc|] [par|]]; simpl; intuition.
Qed.

Lemma isValidToolDescriptor_descriptor d :
  name d <> "" -> isValidToolDescriptor (descriptor_object d) = true.
Proof.
  intros Hne. unfold isValidToolDescriptor. simpl.
  destruct (name d) as [|ch rest]; [congruence|reflexivity].
Qed.

Variable js_call : nat -> JsValue -> list JsValue -> Completion JsValue.
Variable stack : nat.

Ltac distinct_keys :=
  repeat (apply NoDup_cons_2;
          [rewrite ?not_elem_of_cons; repeat split; try discriminate; apply not_elem_of_nil|]);
  apply NoDup_nil_2.

Lemma json_clone_round_trips v : round_trips v -> json_clone js_call stack v = Normal v.
Proof.
  intros (j & Hv & Hj). unfold json_clone, stringify. rewrite Hj. simpl. now rewrite Hv.
Qed.

(** What the clone returns was built by [JSON.parse]. *)
Lemma json_clone_parsed v c :
  json_clone js_call stack v = Normal c -> exists j, c = parse_text j.
Proof.
  unfold json_clone. destruct (stringify js_call stack v) as [[j|]|e]; simpl;
    try discriminate.
  intros [= <-]. now exists j.
Qed.


(** What the serializer returns, field by field. *)
Lemma serializeToolDescriptor_fields tool d :
  serializeToolDescriptor js_call stack tool = Normal d ->
  String_ js_call (nullish (prop "name" tool) (VStr "")) = Normal (name d) /\
  label d = string_field (prop "label" tool) /\
  description d = string_field (prop "description" tool) /\
  (if truthy (prop "parameters" tool)
      && String.eqb (typeof (prop "parameters" tool)) "object"
   then exists clone, json_clone js_call stack (prop "parameters" tool) = Normal clone /\
                      parameters d = Some clone
   else parameters d = None).
Proof.
  unfold serializeToolDescriptor.
  destruct (String_ js_call (nullish (prop "name" tool) (VStr ""))) as [n|e];
    [|discriminate].
  cbn [bind].
  destruct (truthy (prop "parameters" tool)
            && String.eqb (typeof (prop "parameters" tool)) "object").
  - destruct (json_clone js_call stack (prop "parameters" tool)) as [c|e]; [|discriminate].
    simpl. intros [= <-]. simpl. repeat split. now exists c.
  - simpl. intros [= <-]. simpl. now repeat split.
Qed.

(** When the serializer throws, the name did not convert, or the
    parameters did not survive the JSON round trip. *)
Lemma serializeToolDescriptor_throws tool e :
  serializeToolDescriptor js_call stack tool = Throw e ->
  String_ js_call (nullish (prop "name" tool) (VStr "")) = Throw e \/
  (truthy (prop "parameters" tool)
     && String.eqb (typeof (prop "parameters" tool)) "object" = true /\
   json_clone js_call stack (prop "parameters" tool) = Throw e).
Proof.
  unfold serializeToolDescriptor.
  destruct (String_ js_call (nullish (prop "name" tool) (VStr ""))) as [n|e1];
    [|intros [= <-]; now left].
  cbn [bind].
  destruct (truthy (prop "parameters" tool)
            && String.eqb (typeof (prop "parameters" tool)) "object"); [|discriminate].
  destruct (json_clone js_call stack (prop "parameters" tool)) as [c|e1]; [discriminate|].
  intros [= <-]. now right.
Qed.

Lemma descriptor_parameters_round_trip tool d p :
  serializeToolDescriptor js_call stack tool = Normal d ->
  parameters d = Some p ->
  round_trips p /\ plain_data p = true /\ cloneable p = true.
Proof.
  intros Hser Hp. apply serializeToolDescriptor_fields in Hser as (_ & _ & _ & Hparams).
  destruct (truthy (prop "parameters" tool)
            && String.eqb (typeof (prop "parameters" tool)) "object") eqn:Hobj.
  - destruct Hparams as (c & Hc & Hd). rewrite Hd in Hp. injection Hp as ->.
    apply json_clone_parsed in Hc as [j ->].
    split; [apply parse_text_round_trips|].
    split; [apply parse_text_plain|apply parse_text_cloneable].
  - congruence.
Qed.

Lemma descriptor_object_round_trips d :
  (forall p, parameters d = Some p -> round_trips p) ->
  round_trips (descriptor_object d).
Proof.
  intros Hp. unfold descriptor_object, descriptor_props.
  assert (Hstr : forall s, round_trips (VStr s)).
  { intros s. exists (JStr s). split; [reflexivity|intros; now rewrite serialize_unfold]. }
  destruct d as [n [lab|] [desc|] [par|]]; simpl in *;
    (apply round_trips_obj; [distinct_keys|repeat constructor; simpl; auto]).
Qed.

(** Serializing the descriptor gives the descriptor back, when its
    parameters are an array or an object. *)
Lemma serializeToolDescriptor_idempotent d :
  (forall p, parameters d = Some p ->
             truthy p && String.eqb (typeof p) "object" = true /\ round_trips p) ->
  serializeToolDescriptor js_call stack (descriptor_props d) = Normal d.
Proof.
  intros Hp. unfold serializeToolDescriptor.
  destruct d as [n [lab|] [desc|] [par|]]; simpl in *;
    try reflexivity;
    destruct (Hp par eq_refl) as [Hobj Hrt]; rewrite Hobj;
    rewrite (json_clone_round_trips par Hrt); reflexivity.
Qed.

(** [validateRoundTrip] on a tool for which the serializer returns. *)
Lemma validateRoundTrip_returned tool d :
  serializeToolDescriptor js_call stack tool = Normal d ->
  validateRoundTrip js_call stack tool
  = Normal (if String.eqb (name d) ""
            then RoundTripFailed "serialized descriptor missing required name field"
            else RoundTripOk d).
Proof.
  intros Hser. destruct (String.eqb_spec (name d) "") as [Hempty|Hne].
  - unfold validateRoundTrip. rewrite Hser. cbn [bind].
    unfold isValidToolDescriptor. simpl. now rewrite Hempty.
  - assert (Hp : forall p, parameters d = Some p -> round_trips p).
    { intros p Hpar. now apply (descriptor_parameters_round_trip tool d p). }
    destruct (descriptor_object_round_trips d Hp) as (j & Hparse & Hj).
    unfold validateRoundTrip. rewrite Hser. cbn [bind].
    rewrite (isValidToolDescriptor_descriptor d Hne). cbn [negb].
    unfold stringify. rewrite Hj. cbn [bind parse]. rewrite Hparse.
    unfold name_differs. simpl. now rewrite String.eqb_refl.
Qed.

End SerializationFacts.

(** C7, as the code has it. [serializeToolDescriptor] returns a
    descriptor or throws. When it returns one, the name of the descriptor
    is [String(tool.name ?? "")]; [label] and [description] are those of
    the tool when they are strings; the descriptor has no property
    besides [name], [label], [description] and [parameters];
    [parameters] is what [JSON.parse(JSON.stringify(...))] makes of the
    tool's parameters when these are an object, and is absent otherwise,
    so that it is plain data built anew; JSON encoding and decoding the
    descriptor gives the same descriptor, with the same [name], whatever
    code the plugin has; serializing the descriptor gives it back when
    its parameters are an array or an object; and when the name is not
    empty [validateRoundTrip] accepts the tool with this descriptor.
    When it throws, the name did not convert to a string or the
    parameters did not survive [JSON.parse(JSON.stringify(...))], and
    what it throws is what that step threw. It returns a descriptor
    whenever the name converts and the parameters, if they are an
    object, survive. *)
Theorem descriptor_survives_json_round_trip :
  forall (js_call : nat -> JsValue -> list JsValue -> Completion JsValue) (stack : nat)
         (tool : list (string * JsValue)),
    match Serialization.serializeToolDescriptor js_call stack tool with
    | Normal d =>
        String_ js_call (nullish (prop "name" tool) (VStr "")) = Normal (name d) /\
        label d = Serialization.string_field (prop "label" tool) /\
        description d = Serialization.string_field (prop "description" tool) /\
        (forall key,
            In key (map_keys (Serialization.descriptor_props d)) ->
            In key ["name"; "label"; "description"; "parameters"]) /\
        (if truthy (prop "parameters" tool)
            && String.eqb (typeof (prop "parameters" tool)) "object"
         then exists clone,
                Serialization.json_clone js_call stack (prop "parameters" tool)
                  = Normal clone /\
                parameters d = Some clone
         else parameters d = None) /\
        (forall p, parameters d = Some p -> JSON.plain_data p = true) /\
        (forall js_call' stack',
            Serialization.json_clone js_call' stack' (Serialization.descriptor_object d)
              = Normal (Serialization.descriptor_object d)) /\
        Serialization.name_property (Serialization.descriptor_object d) = VStr (name d) /\
        (forall js_call' stack',
            (forall p, parameters d = Some p -> truthy p = true /\ typeof p = "object") ->
            Serialization.serializeToolDescriptor js_call' stack'
              (Serialization.descriptor_props d) = Normal d) /\
        (name d <> "" ->
         Serialization.validateRoundTrip js_call stack tool
           = Normal (Serialization.RoundTripOk d))
    | Throw e =>
        String_ js_call (nullish (prop "name" tool) (VStr "")) = Throw e \/
        (truthy (prop "parameters" tool)
           && String.eqb (typeof (prop "parameters" tool)) "object" = true /\
         Serialization.json_clone js_call stack (prop "parameters" tool) = Throw e)
    end /\
    (forall n,
        String_ js_call (nullish (prop "name" tool) (VStr "")) = Normal n ->
        (truthy (prop "parameters" tool)
           && String.eqb (typeof (prop "parameters" tool)) "object" = false \/
         exists clone,
           Serialization.json_clone js_call stack (prop "parameters" tool) = Normal clone) ->
        exists d,
          Serialization.serializeToolDescriptor js_call stack tool = Normal d /\
          name d = n).
Proof.
  intros js_call stack tool. split.
  - destruct (Serialization.serializeToolDescriptor js_call stack tool) as [d|e] eqn:Hser;
      [|now apply serializeToolDescriptor_throws].
    pose proof (serializeToolDescriptor_fields js_call stack tool d Hser)
      as (Hname & Hlabel & Hdesc & Hparams).
    assert (Hp : forall p, parameters d = Some p ->
                   JSON.round_trips p /\ JSON.plain_data p = true /\ cloneable p = true).
    { intros p. now apply (descriptor_parameters_round_trip js_call stack tool d p). }
    split; [exact Hname|]. split; [exact Hlabel|]. split; [exact Hdesc|].
    split; [apply descriptor_keys_allowed|]. split; [exact Hparams|].
    split; [intros p Hpar; now apply Hp|].
    split.
    { intros js_call' stack'. apply json_clone_round_trips.
      apply descriptor_object_round_trips. intros p Hpar. now apply Hp. }
    split; [reflexivity|]. split.
    { intros js_call' stack' Hobj. apply serializeToolDescriptor_idempotent.
      intros p Hpar. destruct (Hobj p Hpar) as [Ht Hty]. split; [|now apply Hp].
      now rewrite Ht, Hty. }
    intros Hne. rewrite (validateRoundTrip_returned js_call stack tool d Hser).
    apply String.eqb_neq in Hne. now rewrite Hne.
  - intros n Hname Hparams.
    unfold Serialization.serializeToolDescriptor. rewrite Hname. cbn [bind].
    destruct (truthy (prop "parameters" tool)
              && String.eqb (typeof (prop "parameters" tool)) "object") eqn:Hobj.
    + destruct Hparams as [Hnone|[c Hc]]; [discriminate|].
      rewrite Hc. cbn [bind]. eexists. split; reflexivity.
    + cbn [bind]. eexists. split; reflexivity.
Qed.

(** C7 as stated fails on a tool whose parameters hold a BigInt:
    [serializeToolDescriptor] throws the [TypeError] of [JSON.stringify]
    and returns no descriptor, whatever code the plugin has;
    [validateRoundTrip] catches it and reports the failure. *)
Lemma bigint_parameters_are_not_serialized :
  let tool := [("name", VStr "counter");
               ("parameters", VObj [("limit", VBigInt 10)])] in
  (forall js_call stack,
      Serialization.serializeToolDescriptor js_call stack tool
        = Throw (TypeError "Do not know how to serialize a BigInt") /\
      ~ (exists d, Serialization.serializeToolDescriptor js_call stack tool = Normal d) /\
      Serialization.validateRoundTrip js_call stack tool
        = Normal (Serialization.RoundTripFailed
                    "serialization failed: TypeError: Do not know how to serialize a BigInt")) /\
  Serialization.serializeToolDescriptor no_method 0 tool
    = Throw (TypeError "Do not know how to serialize a BigInt").
Proof.
  cbv zeta.
  assert (H : forall js_call stack,
             Serialization.serializeToolDescriptor js_call stack
               [("name", VStr "counter"); ("parameters", VObj [("limit", VBigInt 10)])]
             = Throw (TypeError "Do not know how to serialize a BigInt")).
  { intros js_call stack. unfold Serialization.serializeToolDescriptor.
    cbn [prop String.eqb Ascii.eqb Bool.eqb nullish String_ ToString primitive_to_string bind
         truthy typeof andb].
    unfold Serialization.json_clone, JSON.stringify.
    rewrite serialize_unfold. cbn. now rewrite serialize_unfold. }
  split; [|apply H].
  intros js_call stack. split; [apply H|]. split.
  - intros [d Hd]. rewrite H in Hd. discriminate.
  - unfold Serialization.validateRoundTrip. now rewrite H.
Qed.

Lemma descriptor_survives_json_round_trip_witness :
  exists d,
    Serialization.serializeToolDescriptor no_method 0
      [("name", VStr "test-echo"); ("description", VStr "Echoes the input");
       ("parameters",
        VObj [("type", VStr "object");
              ("properties", VObj [("message", VObj [("type", VStr "string")])])]);
       ("execute", VFun 1 "async (args) => ({ echo: args.message })")]
    = Normal d /\
    name d = "test-echo".
Proof.
  exact (proj2 (descriptor_survives_json_round_trip no_method 0
                  [("name", VStr "test-echo"); ("description", VStr "Echoes the input");
                   ("parameters",
                    VObj [("type", VStr "object");
                          ("properties",
                           VObj [("message", VObj [("type", VStr "string")])])]);
                   ("execute", VFun 1 "async (args) => ({ echo: args.message })")])
           "test-echo" eq_refl
           (or_intror
              (ex_intro _
                 (VObj [("type", VStr "object");
                        ("properties",
                         VObj [("message", VObj [("type", VStr "string")])])])
                 eq_refl))).
Defined.

(** The conversions on values that carry code of the plugin, or a
    symbol: a name that is an array holding a symbol does not convert,
    so the serializer throws; the result of a [toJSON] method stands for
    the parameters, whatever it is; and a [toJSON] method that returns
    [undefined] leaves [JSON.parse] without a text. *)
Example conversions_run_plugin_code :
  let js_call := fun (f : nat) (this : JsValue) (args : list JsValue) =>
                   match f with
                   | 1%nat => Normal (VNum (NumInt 5))
                   | _ => Normal VUndefined
                   end in
  String_ js_call (VArr [VSymbol "s"])
    = Throw (TypeError "Cannot convert a Symbol value to a string") /\
  Serialization.serializeToolDescriptor js_call 1 [("name", VArr [VSymbol "s"])]
    = Throw (TypeError "Cannot convert a Symbol value to a string") /\
  Serialization.serializeToolDescriptor js_call 1
    [("name", VStr "t"); ("parameters", VObj [("toJSON", VFun 1 "() => 5")])]
    = Normal {| name := "t"; label := None; description := None;
                parameters := Some (VNum (NumInt 5)) |} /\
  Serialization.serializeToolDescriptor js_call 1
    [("name", VStr "t"); ("parameters", VObj [("toJSON", VFun 2 "() => undefined")])]
    = Throw (VError "SyntaxError" "Unexpected token u in JSON at position 0") /\
  String_ js_call (VObj [("toString", VNum (NumInt 5))])
    = Throw (TypeError "Cannot convert object to primitive value").
Proof. cbv zeta. repeat split. Qed.

(** ** The entry point inside the unit *)

Section WorkerFacts.

Import WorkerEntry.


Lemma keeps_tools_postMessage m : keeps_tools (postMessage m).
Proof. intros w. unfold postMessage. now destruct (worker_message_cloneable m). Qed.

Lemma keeps_tools_ret {A} (a : A) : keeps_tools (ret a).
Proof. now intros w. Qed.

Lemma keeps_tools_throw {A} e : keeps_tools (@throw A e).
Proof. now intros w. Qed.

Lemma keeps_tools_lift {A} (c : Completion A) : keeps_tools (lift c).
Proof. now intros w. Qed.

Lemma keeps_tools_mbind {A B} (m : M A) (k : A -> M B) :
  keeps_tools m -> (forall a, keeps_tools (k a)) -> keeps_tools (mbind m k).
Proof.
  intros Hm Hk w. unfold mbind. specialize (Hm w).
  destruct (m w) as [[a|e] w1]; simpl in *; [|exact Hm].
  now rewrite Hk.
Qed.

Lemma keeps_tools_try_catch {A} (body : M A) (handler : JsValue -> M A) :
  keeps_tools body -> (forall e, keeps_tools (handler e)) ->
  keeps_tools (try_catch body handler).
Proof.
  intros Hb Hh w. unfold try_catch. specialize (Hb w).
  destruct (body w) as [[a|e] w1]; simpl in *; [exact Hb|].
  now rewrite Hh.
Qed.

Lemma keeps_tools_settled {A} (m : M A) : keeps_tools m -> keeps_tools (settled m).
Proof.
  intros Hm w. unfold settled. specialize (Hm w).
  now destruct (m w) as [[a|e] w1].
Qed.

Lemma keeps_tools_post_failure js_call reqId err :
  keeps_tools (post_failure js_call reqId err).
Proof.
  apply keeps_tools_mbind; [apply keeps_tools_lift|intros text; apply keeps_tools_postMessage].
Qed.

(** Reporting the outcome of a handler changes no handler map beyond
    what the handler did itself. *)
Lemma report_tools js_call reqId with_value (awaited : Async JsValue) w :
  toolHandlers (snd (report js_call reqId with_value awaited w))
  = toolHandlers (snd (awaited w)).
Proof.
  unfold report. destruct (awaited w) as [[value|err|] w1]; cbn [snd].
  - apply (keeps_tools_settled _
             (keeps_tools_try_catch _ _ (keeps_tools_postMessage _)
                (keeps_tools_post_failure js_call reqId))).
  - apply (keeps_tools_settled _ (keeps_tools_post_failure js_call reqId err)).
  - reflexivity.
Qed.

Lemma serialized_parameters_cloneable js_call stack tool d :
  Serialization.serializeToolDescriptor js_call stack tool = Normal d ->
  cloneable_opt (parameters d) = true.
Proof.
  intros Hser. destruct (parameters d) as [p|] eqn:Hp; [|reflexivity].
  now destruct (descriptor_parameters_round_trip js_call stack tool d p Hser Hp)
    as (_ & _ & Hclone).
Qed.

(** What [registerTool] does once the descriptor is there. *)
Lemma registerTool_unfold trim js_call stack init tool optsName d w :
  Serialization.serializeToolDescriptor js_call stack tool = Normal d ->
  registerTool (createBridgeApi trim js_call stack init) tool optsName w
  = let n := or_string optsName (name d) in
    if String.eqb n "" then
      (Normal tt, with_posted (Log LevelError "registerTool: missing tool name" None) w)
    else if String.eqb (typeof (prop "execute" tool)) "function" then
      (Normal tt,
       with_posted (RegisterTool (with_name d n))
         {| toolHandlers := map_set n (prop "execute" tool) (toolHandlers w);
            hookHandlers := hookHandlers w; serviceHandlers := serviceHandlers w;
            commandHandlers := commandHandlers w; posted := posted w |})
    else (Normal tt, with_posted (RegisterTool (with_name d n)) w).
Proof.
  intros Hser. pose proof (serialized_parameters_cloneable js_call stack tool d Hser) as Hclone.
  unfold createBridgeApi. cbn [registerTool]. unfold mbind, lift. rewrite Hser.
  cbn zeta. destruct (String.eqb (or_string optsName (name d)) "").
  - reflexivity.
  - destruct (String.eqb (typeof (prop "execute" tool)) "function").
    + unfold set_toolHandler, postMessage, with_posted. cbn. now rewrite Hclone.
    + unfold ret, postMessage, with_posted. cbn. now rewrite Hclone.
Qed.

(** [registerTool] throws what the serializer throws, before it logs,
    stores or posts anything. *)
Lemma registerTool_throws trim js_call stack init tool optsName e w :
  Serialization.serializeToolDescriptor js_call stack tool = Throw e ->
  registerTool (createBridgeApi trim js_call stack init) tool optsName w = (Throw e, w).
Proof.
  intros Hser. unfold createBridgeApi. cbn [registerTool]. unfold mbind, lift.
  now rewrite Hser.
Qed.

Lemma keeps_tools_stub trim js_call stack init method stub :
  map_get method (stubs (createBridgeApi trim js_call stack init)) = Some stub ->
  keeps_tools stub.
Proof.
  intros Hget. apply map_get_In in Hget. simpl in Hget.
  repeat (destruct Hget as [[= <- <-]|Hget];
          [apply keeps_tools_mbind;
           [apply keeps_tools_postMessage|intros _; apply keeps_tools_throw]|]).
  destruct Hget.
Qed.

(** Apart from [registerTool], no member of the API object touches the
    map of tool executors. *)
Lemma keeps_tools_perform trim js_call stack init c :
  match c with
  | CallRegisterTool _ _ => False
  | _ => True
  end ->
  keeps_tools (perform (createBridgeApi trim js_call stack init) c).
Proof.
  intros Hc.
  destruct c as [tool o| |sid sstart sstop|cname cdesc cusage h|hook h prio|lvl msg args|m];
    cbn [perform]; [destruct Hc|..].
  - apply keeps_tools_postMessage.
  - unfold createBridgeApi. cbn [registerService].
    destruct sid as [sid|]; cbn; [|apply keeps_tools_ret].
    destruct (String.eqb (trim sid) ""); [apply keeps_tools_ret|].
    apply keeps_tools_mbind; [now intros w|intros _; apply keeps_tools_postMessage].
  - unfold createBridgeApi. cbn [registerCommand].
    destruct cname as [cname|]; cbn; [|apply keeps_tools_ret].
    destruct (String.eqb (trim cname) ""); [apply keeps_tools_ret|].
    apply keeps_tools_mbind; [now intros w|intros _; apply keeps_tools_postMessage].
  - unfold createBridgeApi. cbn [on].
    apply keeps_tools_mbind; [now intros w|intros _; apply keeps_tools_postMessage].
  - apply keeps_tools_postMessage.
  - apply keeps_tools_mbind; [|intros _; apply keeps_tools_ret].
    destruct m as [method|]; cbn [access]; [|apply keeps_tools_throw].
    destruct (map_get method (stubs (createBridgeApi trim js_call stack init)))
      as [stub|] eqn:Hget.
    + now apply (keeps_tools_stub trim js_call stack init method).
    + apply keeps_tools_throw.
Qed.






End WorkerFacts.

(** C1, as the code has it. When the handler map that an invocation
    message addresses has no entry for the name or id in the message, the
    unit posts exactly one [invoke:result] for the request id and the
    promise of [handleInvocation] is fulfilled, not rejected. For
    [invoke:tool] and [invoke:command] the result has [ok: false] and the
    error "tool not found: <name>" or "command not found: <name>"; for
    [invoke:hook] it has [ok: true] and the value [undefined]; for
    [invoke:service:start] and [invoke:service:stop] it has [ok: true]. On
    the host, the tool-not-found result rejects the promise of the pending
    request with an error whose message contains "tool not found". *)
Theorem lookup_miss_is_answered :
  forall (js_call : nat -> JsValue -> list JsValue -> Completion JsValue)
         (call : nat -> list JsValue
                 -> list WorkerEntry.ApiCall * WorkerEntry.Settlement JsValue)
         (api : WorkerEntry.BridgeApi)
         (msg : MainToWorkerMessage) (w : WorkerEntry.WorkerState),
    WorkerEntry.handler_missing msg w ->
    exists reply,
      WorkerEntry.handleInvocation js_call call api msg w
        = (WorkerEntry.Fulfils tt, WorkerEntry.with_posted reply w) /\
      match msg with
      | InvokeTool reqId toolName _ =>
          reply = InvokeResult reqId false None (Some ("tool not found: " +:+ toolName)) /\
          forall (st : MainHost.HostState) (entry : Rpc.PendingRequest),
            map_get reqId (Rpc.pending (MainHost.rpc st)) = Some entry ->
            promises (MainHost.loop st) !! Rpc.promise entry = Some Pending ->
            exists message,
              promises (MainHost.loop (MainHost.on_message reply st)) !! Rpc.promise entry
                = Some (Rejected (Error message)) /\
              contains "tool not found" message
      | InvokeCommand reqId commandName _ _ =>
          reply = InvokeResult reqId false None
                    (Some ("command not found: " +:+ commandName))
      | InvokeHook reqId _ _ _ =>
          reply = InvokeResult reqId true (Some VUndefined) None
      | InvokeServiceStart reqId _ | InvokeServiceStop reqId _ =>
          reply = InvokeResult reqId true None None
      | Init _ => False
      end.
Proof.
  intros js_call call api msg w Hmiss.
  destruct msg as [i|reqId toolName args|reqId hookName handlerId event
                   |reqId serviceId|reqId serviceId|reqId commandName args context];
    simpl in Hmiss; [destruct Hmiss|..];
    unfold WorkerEntry.handleInvocation, WorkerEntry.handler_of; rewrite Hmiss;
    eexists; (split; [reflexivity|]); try reflexivity.
  split; [reflexivity|]. intros st entry Hentry Hp.
  exists ("tool not found: " +:+ toolName).
  split; [|exists "", (": " +:+ toolName); reflexivity].
  unfold MainHost.on_message, Rpc.reject. rewrite Hentry. simpl.
  now apply settle_pending.
Qed.

Lemma lookup_miss_is_answered_witness :
  exists reply,
    WorkerEntry.handleInvocation no_method (fun _ _ => ([], WorkerEntry.Hangs))
      (WorkerEntry.createBridgeApi (fun s => s) no_method 0
         {| pluginId := "p"; pluginSource := "/plugins/p.ts"; pluginConfig := None;
            metadata := {| meta_id := "p"; meta_name := "P"; meta_version := None;
                           meta_description := None |};
            jitiAlias := None |})
      (InvokeTool "req-1" "nonexistent" (VObj [])) WorkerEntry.initial_state
    = (WorkerEntry.Fulfils tt, WorkerEntry.with_posted reply WorkerEntry.initial_state)
    /\ reply = InvokeResult "req-1" false None (Some "tool not found: nonexistent").
Proof.
  destruct (lookup_miss_is_answered no_method (fun _ _ => ([], WorkerEntry.Hangs))
              (WorkerEntry.createBridgeApi (fun s => s) no_method 0
                 {| pluginId := "p"; pluginSource := "/plugins/p.ts"; pluginConfig := None;
                    metadata := {| meta_id := "p"; meta_name := "P"; meta_version := None;
                                   meta_description := None |};
                    jitiAlias := None |})
              (InvokeTool "req-1" "nonexistent" (VObj [])) WorkerEntry.initial_state
              eq_refl) as (reply & Hrun & Hreply & _).
  exists reply. split; [exact Hrun|exact Hreply].
Defined.

(** C1 as stated fails for hooks and services. With no handler under the
    id, [invoke:hook] is answered with [ok: true]; with no service under
    the id, [invoke:service:start] is answered with [ok: true]. Neither
    answer has [ok: false] or an error. *)
Lemma missing_hook_and_service_report_success :
  let call := fun (_ : nat) (_ : list JsValue) =>
                (@nil WorkerEntry.ApiCall, @WorkerEntry.Hangs JsValue) in
  let api :=
    WorkerEntry.createBridgeApi (fun s => s) no_method 0
      {| pluginId := "p"; pluginSource := "/plugins/p.ts"; pluginConfig := None;
         metadata := {| meta_id := "p"; meta_name := "P"; meta_version := None;
                        meta_description := None |};
         jitiAlias := None |} in
  let hook := InvokeHook "req-1" "session_end" "plugin:session_end" VNull in
  let service := InvokeServiceStart "req-2" "indexer" in
  WorkerEntry.handler_missing hook WorkerEntry.initial_state /\
  WorkerEntry.handler_missing service WorkerEntry.initial_state /\
  WorkerEntry.posted
    (snd (WorkerEntry.handleInvocation no_method call api hook WorkerEntry.initial_state))
    = [InvokeResult "req-1" true (Some VUndefined) None] /\
  WorkerEntry.posted
    (snd (WorkerEntry.handleInvocation no_method call api service WorkerEntry.initial_state))
    = [InvokeResult "req-2" true None None] /\
  ~ (exists value err,
        In (InvokeResult "req-1" false value err)
           (WorkerEntry.posted
              (snd (WorkerEntry.handleInvocation no_method call api hook
                      WorkerEntry.initial_state)))).
Proof.
  simpl. repeat split. intros (value & err & [H|[]]). discriminate.
Qed.

(** C3, as the code has it. Calling one of the six methods of
    [UNSUPPORTED_METHODS] on the API object posts one [unsupported:api]
    message that names the method, and then throws an error with the same
    text; nothing else changes. Reading [runtime] throws and posts
    nothing. *)
Theorem unsupported_method_notifies_then_throws :
  forall (trim : string -> string)
         (js_call : nat -> JsValue -> list JsValue -> Completion JsValue) (stack : nat)
         (init : WorkerInitMessage) (method : string)
         (w : WorkerEntry.WorkerState),
    In method WorkerEntry.UNSUPPORTED_METHODS ->
    let api := WorkerEntry.createBridgeApi trim js_call stack init in
    let error := method +:+ " is not supported in isolated (worker) mode" in
    WorkerEntry.access api (WorkerEntry.Method method) w
      = (Throw (Error error), WorkerEntry.with_posted (UnsupportedApi method error) w) /\
    WorkerEntry.access api WorkerEntry.RuntimeAccessor w
      = (Throw (Error "api.runtime is not available in isolated mode"), w).
Proof.
  intros trim js_call stack init method w Hin. simpl in Hin.
  repeat (destruct Hin as [<-|Hin]; [split; reflexivity|]).
  destruct Hin.
Qed.

Lemma unsupported_method_notifies_then_throws_witness :
  WorkerEntry.access
    (WorkerEntry.createBridgeApi (fun s => s) no_method 0
       {| pluginId := "p"; pluginSource := "/plugins/p.ts"; pluginConfig := None;
          metadata := {| meta_id := "p"; meta_name := "P"; meta_version := None;
                         meta_description := None |};
          jitiAlias := None |})
    (WorkerEntry.Method "registerChannel") WorkerEntry.initial_state
  = (Throw (Error "registerChannel is not supported in isolated (worker) mode"),
     WorkerEntry.with_posted
       (UnsupportedApi "registerChannel"
          "registerChannel is not supported in isolated (worker) mode")
       WorkerEntry.initial_state).
Proof.
  apply (unsupported_method_notifies_then_throws (fun s => s) no_method 0 _
           "registerChannel" WorkerEntry.initial_state).
  simpl. now left.
Defined.

(** C3 as stated fails for the [runtime] accessor: reading it throws, but
    no [unsupported:api] message is posted. *)
Lemma runtime_accessor_posts_nothing :
  let api :=
    WorkerEntry.createBridgeApi (fun s => s) no_method 0
      {| pluginId := "p"; pluginSource := "/plugins/p.ts"; pluginConfig := None;
         metadata := {| meta_id := "p"; meta_name := "P"; meta_version := None;
                        meta_description := None |};
         jitiAlias := None |} in
  fst (WorkerEntry.access api WorkerEntry.RuntimeAccessor WorkerEntry.initial_state)
    = Throw (Error "api.runtime is not available in isolated mode") /\
  WorkerEntry.posted
    (snd (WorkerEntry.access api WorkerEntry.RuntimeAccessor WorkerEntry.initial_state))
    = [] /\
  ~ (exists method err,
        In (UnsupportedApi method err)
           (WorkerEntry.posted
              (snd (WorkerEntry.access api WorkerEntry.RuntimeAccessor
                      WorkerEntry.initial_state)))).
Proof.
  simpl. repeat split. intros (method & err & []).
Qed.

(** C9, as the code has it. When [serializeToolDescriptor] returns a
    descriptor, its name is the string [String(tool.name ?? "")]: a name
    that is a string is kept, an integer that a number holds exactly is
    written in digits, a missing or [null] name gives the empty string. In [registerTool], when the
    resulting name, [opts?.name || descriptor.name], is empty, the
    registration is refused: the unit posts the log message
    "registerTool: missing tool name" at level [error] and nothing else;
    no [register:tool] message is posted and no executor is stored. When
    the resulting name is not empty, the [register:tool] message carries
    it. When the serializer throws, because the name does not convert or
    the parameters do not serialize, [registerTool] throws the same
    value and neither logs nor posts nor stores anything. *)
Theorem nameless_tool_is_refused :
  forall (trim : string -> string)
         (js_call : nat -> JsValue -> list JsValue -> Completion JsValue) (stack : nat)
         (init : WorkerInitMessage)
         (tool : list (string * JsValue)) (optsName : option string)
         (w : WorkerEntry.WorkerState),
    let registered :=
      WorkerEntry.registerTool (WorkerEntry.createBridgeApi trim js_call stack init)
        tool optsName w in
    match Serialization.serializeToolDescriptor js_call stack tool with
    | Normal d =>
        String_ js_call (nullish (prop "name" tool) (VStr "")) = Normal (name d) /\
        (forall s, prop "name" tool = VStr s -> name d = s) /\
        (forall z,
            Z.abs z <= 9007199254740991 ->
            prop "name" tool = VNum (NumInt z) -> name d = Z_to_string z) /\
        (nullish (prop "name" tool) (VStr "") = VStr "" -> name d = "") /\
        let n := WorkerEntry.or_string optsName (name d) in
        (n = "" ->
         registered
         = (Normal tt,
            WorkerEntry.with_posted
              (Log LevelError "registerTool: missing tool name" None) w)) /\
        (n <> "" ->
         fst registered = Normal tt /\
         WorkerEntry.posted (snd registered)
         = (WorkerEntry.posted w ++ [RegisterTool (WorkerEntry.with_name d n)])%list)
    | Throw e => registered = (Throw e, w)
    end.
Proof.
  intros trim js_call stack init tool optsName w registered. subst registered.
  destruct (Serialization.serializeToolDescriptor js_call stack tool) as [d|e] eqn:Hser;
    [|now apply registerTool_throws].
  pose proof (serializeToolDescriptor_fields js_call stack tool d Hser) as (Hname & _).
  split; [exact Hname|].
  split; [intros s Hs; rewrite Hs in Hname; now injection Hname|].
  split; [intros z _ Hz; rewrite Hz in Hname; now injection Hname|].
  split; [intros Hnull; rewrite Hnull in Hname; now injection Hname|].
  rewrite (registerTool_unfold trim js_call stack init tool optsName d w Hser). cbn zeta.
  split.
  - intros Hempty. now rewrite Hempty.
  - intros Hne. apply String.eqb_neq in Hne. rewrite Hne.
    now destruct (String.eqb (typeof (prop "execute" tool)) "function").
Qed.

Lemma nameless_tool_is_refused_witness :
  WorkerEntry.registerTool
    (WorkerEntry.createBridgeApi (fun s => s) no_method 0
       {| pluginId := "p"; pluginSource := "/plugins/p.ts"; pluginConfig := None;
          metadata := {| meta_id := "p"; meta_name := "P"; meta_version := None;
                         meta_description := None |};
          jitiAlias := None |})
    [("description", VStr "no name"); ("execute", VFun 1 "() => 1")] None
    WorkerEntry.initial_state
  = (Normal tt,
     WorkerEntry.with_posted (Log LevelError "registerTool: missing tool name" None)
       WorkerEntry.initial_state).
Proof.
  exact (proj1 (proj2 (proj2 (proj2 (proj2
           (nameless_tool_is_refused (fun s => s) no_method 0
              {| pluginId := "p"; pluginSource := "/plugins/p.ts"; pluginConfig := None;
                 metadata := {| meta_id := "p"; meta_name := "P"; meta_version := None;
                                meta_description := None |};
                 jitiAlias := None |}
              [("description", VStr "no name"); ("execute", VFun 1 "() => 1")] None
              WorkerEntry.initial_state))))) eq_refl).
Defined.

(** C9 as stated fails on a tool without a name whose parameters hold a
    BigInt: the serializer throws before [registerTool] has a name to
    test, so the call throws the [TypeError]; no error is logged, and
    nothing is posted or stored. *)
Lemma nameless_tool_with_bigint_is_not_logged :
  let api :=
    WorkerEntry.createBridgeApi (fun s => s) no_method 0
      {| pluginId := "p"; pluginSource := "/plugins/p.ts"; pluginConfig := None;
         metadata := {| meta_id := "p"; meta_name := "P"; meta_version := None;
                        meta_description := None |};
         jitiAlias := None |} in
  let tool := [("parameters", VObj [("limit", VBigInt 10)]);
               ("execute", VFun 1 "() => 1")] in
  prop "name" tool = VUndefined /\
  WorkerEntry.registerTool api tool None WorkerEntry.initial_state
    = (Throw (TypeError "Do not know how to serialize a BigInt"),
       WorkerEntry.initial_state) /\
  WorkerEntry.posted
    (snd (WorkerEntry.registerTool api tool None WorkerEntry.initial_state)) = [].
Proof. cbv zeta. repeat split. Qed.




(** ** The supervisor *)

Section HostFacts.

Import MainHost.

Ltac break_match :=
  match goal with
  | |- context [match ?x with _ => _ end] => destruct x eqn:?
  end.

Lemma terminated_rpc_rejectAll err st : terminated (rpc_rejectAll err st) = terminated st.
Proof. reflexivity. Qed.

(** The two ways in which the [error] listener ends. *)
Lemma on_error_cases err st :
  (exists text reason,
      host_String err = Normal text /\
      on_error err st
      = rpc_rejectAll (Error ("worker crashed: " +:+ text))
          (readyReject reason (clear_registrationTimer st))) \/
  (exists e, host_String err = Throw e /\ on_error err st = clear_registrationTimer st).
Proof.
  unfold on_error. destruct (host_String err) as [text|e].
  - left. now eexists _, _.
  - right. now eexists.
Qed.

Lemma terminated_on_error err st : terminated (on_error err st) = terminated st.
Proof.
  destruct (on_error_cases err st) as [(text & reason & _ & ->)|(e & _ & ->)];
    reflexivity.
Qed.

Lemma terminated_on_message m st : terminated (on_message m st) = terminated st.
Proof. unfold on_message. repeat break_match; reflexivity. Qed.

Lemma terminated_on_exit code st : terminated (on_exit code st) = terminated st.
Proof. unfold on_exit. repeat break_match; reflexivity. Qed.

Lemma terminated_on_timer t st : terminated (on_timer t st) = terminated st.
Proof. unfold on_timer. repeat break_match; reflexivity. Qed.

Lemma terminated_continue task uuid st :
  terminated (snd (continue task uuid st)) = terminated st.
Proof. unfold continue. repeat break_match; reflexivity. Qed.

Lemma terminated_resume i uuid st : terminated (resume i uuid st) = terminated st.
Proof.
  unfold resume. destruct (tasks st !! i) as [task|]; [|reflexivity].
  pose proof (terminated_continue task uuid st) as H.
  destruct (continue task uuid st) as [task1 st1]. exact H.
Qed.

Lemma terminated_terminate st : terminated (terminate st) = true.
Proof. unfold terminate. destruct (terminated st) eqn:H; [exact H|reflexivity]. Qed.

(** Nothing resets the flag. *)
Lemma terminated_step e st : terminated st = true -> terminated (step e st) = true.
Proof.
  intros H. destruct e; cbn [step].
  - now rewrite terminated_on_message.
  - now rewrite terminated_on_error.
  - now rewrite terminated_on_exit.
  - now rewrite terminated_on_timer.
  - exact H.
  - unfold invoke. now rewrite H.
  - apply terminated_terminate.
  - now rewrite terminated_resume.
Qed.

Lemma terminated_run events st : terminated st = true -> terminated (run events st) = true.
Proof.
  revert st. induction events as [|e events IH]; intros st H; simpl; [exact H|].
  apply IH. now apply terminated_step.
Qed.

End HostFacts.

(** C4. Once [terminate()] has been called, whatever happens afterwards,
    the flag stays set; a call of [invokeTool], [invokeHook],
    [invokeServiceStart], [invokeServiceStop] or [invokeCommand] returns a
    promise that is already rejected with the error "worker terminated",
    and changes nothing else: no request is created, no timer started, no
    message handed to the worker; and a further [terminate()] returns a
    fulfilled promise and changes nothing else. *)
Theorem terminated_is_a_one_way_latch :
  forall (st : MainHost.HostState) (events : list MainHost.Event),
    let st' := MainHost.run events (MainHost.terminate st) in
    let rejected :=
      MainHost.set_tasks
        (MainHost.tasks st'
           ++ [MainHost.Done (Rejected (Error "worker terminated"))]) st' in
    MainHost.terminated st' = true /\
    (forall c, MainHost.invoke c st' = rejected) /\
    (forall toolName args, MainHost.invokeTool toolName args st' = rejected) /\
    (forall hookName handlerId event,
        MainHost.invokeHook hookName handlerId event st' = rejected) /\
    (forall serviceId, MainHost.invokeServiceStart serviceId st' = rejected) /\
    (forall serviceId, MainHost.invokeServiceStop serviceId st' = rejected) /\
    (forall commandName args context,
        MainHost.invokeCommand commandName args context st' = rejected) /\
    MainHost.rpc rejected = MainHost.rpc st' /\
    MainHost.loop rejected = MainHost.loop st' /\
    MainHost.sent rejected = MainHost.sent st' /\
    MainHost.terminate st'
      = MainHost.set_tasks
          (MainHost.tasks st' ++ [MainHost.Done (Fulfilled VUndefined)]) st'.
Proof.
  intros st events st' rejected.
  assert (H : MainHost.terminated st' = true).
  { apply terminated_run, terminated_terminate. }
  assert (Hinvoke : forall c, MainHost.invoke c st' = rejected).
  { intros c. unfold MainHost.invoke. now rewrite H. }
  repeat split; try reflexivity; try (intros; apply Hinvoke); try exact H.
  unfold MainHost.terminate. now rewrite H.
Qed.

Section Crash.

Import MainHost.

Lemma exit_once_settled listeners l p x :
  promises l !! p = Some x -> x <> Pending ->
  promises (fold_left (fun l listener => run_exit_once listener l) listeners l) !! p = Some x.
Proof.
  revert l. induction listeners as [|[t ep] listeners IH]; intros l H Hx; simpl; [exact H|].
  apply IH; [|exact Hx]. now apply settle_settled.
Qed.

Lemma exit_once_armed_false listeners l t :
  armed t l = false ->
  armed t (fold_left (fun l listener => run_exit_once listener l) listeners l) = false.
Proof.
  revert l. induction listeners as [|[u ep] listeners IH]; intros l H; simpl; [exact H|].
  apply IH. rewrite settle_armed. now apply clearTimeout_armed_false.
Qed.

(** What both crash paths do: an [error] event whose value converts to
    a string, as every [Error] does, and an [exit] event with a code
    other than zero, leave no request in the table; every request that
    was pending has its timer cleared and its promise, if it was
    outstanding, rejected; and the [ready] promise, if it was
    outstanding, is rejected. *)
Lemma crash_rejects_ready_and_pending e st :
  match e with
  | WorkerError err => exists text, host_String err = Normal text
  | WorkerExit code => code <> 0
  | _ => False
  end ->
  let st' := step e st in
  Rpc.size (rpc st') = 0%nat /\
  ready st' = ready st /\
  (promises (loop st) !! ready st = Some Pending ->
   exists reason, promises (loop st') !! ready st = Some (Rejected reason)) /\
  (forall reqId entry,
      In (reqId, entry) (Rpc.pending (rpc st)) ->
      armed (Rpc.timer entry) (loop st') = false /\
      (promises (loop st) !! Rpc.promise entry = Some Pending ->
       exists reason, promises (loop st') !! Rpc.promise entry = Some (Rejected reason))).
Proof.
  intros He st'. subst st'.
  destruct e as [|err|code| | | | |]; try (exfalso; exact He); cbn [step].
  - destruct He as [text Htext].
    unfold on_error. rewrite Htext.
    unfold rpc_rejectAll, readyReject, clear_registrationTimer. simpl.
    repeat split.
    + intros Hready. eexists. apply reject_each_settled; [|discriminate].
      now apply settle_pending.
    + now apply (reject_each_clears _ _ _ reqId).
    + intros Hp.
      destruct (decide (Rpc.promise entry = ready st)) as [Heq|Hne].
      * eexists. apply reject_each_settled; [|discriminate].
        rewrite Heq. apply settle_pending. simpl. now rewrite <- Heq.
      * eexists. apply (reject_each_rejects _ _ _ reqId entry H).
        rewrite settle_other by exact Hne. exact Hp.
  - unfold on_exit. apply Z.eqb_neq in He. rewrite He. cbn [negb].
    unfold rpc_rejectAll, readyReject. simpl. repeat split.
    + intros Hready. eexists. apply exit_once_settled; [|discriminate].
      apply reject_each_settled; [|discriminate]. now apply settle_pending.
    + apply exit_once_armed_false. now apply (reject_each_clears _ _ _ reqId).
    + intros Hp. eexists. apply exit_once_settled; [|discriminate].
      destruct (decide (Rpc.promise entry = ready st)) as [Heq|Hne].
      * apply reject_each_settled; [|discriminate].
        rewrite Heq. apply settle_pending. now rewrite <- Heq.
      * apply (reject_each_rejects _ _ _ reqId entry H).
        rewrite settle_other by exact Hne. exact Hp.
Qed.

(** The [error] listener clears the registration timer. *)
Lemma error_clears_registration_timer err st :
  armed (registrationTimer st) (loop (on_error err st)) = false.
Proof.
  destruct (on_error_cases err st) as [(text & reason & _ & ->)|(e & _ & ->)].
  - unfold rpc_rejectAll, readyReject, clear_registrationTimer. simpl.
    apply reject_each_armed_false. rewrite settle_armed. apply clearTimeout_armed_same.
  - unfold clear_registrationTimer. simpl. apply clearTimeout_armed_same.
Qed.

End Crash.

(** C2 at the input on which the code departs from it. A supervisor has
    just been created, so its registration timer is armed, and its worker
    exits with a code other than zero. The [exit] listener rejects the
    [ready] promise and empties the table of pending requests, but the
    registration timer is still armed afterwards; when it fires ten
    seconds later its callback finds [ready] settled and changes nothing.
    The [error] listener, on the same state, clears the timer. *)
Theorem exit_leaves_registration_timer_armed :
  forall (p : MainHost.WorkerHostParams) (st : MainHost.HostState) (code : Z)
         (err : JsValue),
    MainHost.createWorkerHost p = Normal st ->
    code <> 0 ->
    let st' := MainHost.on_exit code st in
    let exit_error := Error ("worker exited with code " +:+ Z_to_string code) in
    armed (MainHost.registrationTimer st) (MainHost.loop st) = true /\
    armed (MainHost.registrationTimer st') (MainHost.loop st') = true /\
    promise_state (MainHost.ready st') (MainHost.loop st') = Rejected exit_error /\
    Rpc.size (MainHost.rpc st') = 0%nat /\
    (let later :=
       MainHost.run [MainHost.TimePasses MainHost.REGISTRATION_TIMEOUT_MS;
                     MainHost.TimerFires (MainHost.registrationTimer st')] st' in
     armed (MainHost.registrationTimer st') (MainHost.loop later) = false /\
     promise_state (MainHost.ready st') (MainHost.loop later) = Rejected exit_error) /\
    armed (MainHost.registrationTimer st) (MainHost.loop (MainHost.on_error err st)) = false.
Proof.
  intros p st code err Hcreate Hcode st' exit_error. subst st' exit_error.
  unfold MainHost.createWorkerHost in Hcreate. simpl in Hcreate.
  destruct (cloneable_opt (MainHost.params_pluginConfig p)); [|discriminate].
  injection Hcreate as <-.
  unfold MainHost.on_exit. apply Z.eqb_neq in Hcode. rewrite Hcode.
  repeat split.
  apply (error_clears_registration_timer err
           {| MainHost.params := p;
              MainHost.loop := snd (setTimeout RegistrationTimeout
                                      MainHost.REGISTRATION_TIMEOUT_MS
                                      (snd (newPromise empty_loop)));
              MainHost.rpc := Rpc.new_RpcCorrelator; MainHost.terminated := false;
              MainHost.ready := 0; MainHost.registrationTimer := 0;
              MainHost.sent := [Init {| pluginId := MainHost.params_pluginId p;
                                        pluginSource := MainHost.params_pluginSource p;
                                        pluginConfig := MainHost.params_pluginConfig p;
                                        metadata := MainHost.params_metadata p;
                                        jitiAlias := MainHost.params_jitiAlias p |}];
              MainHost.calls := []; MainHost.exit_once := [];
              MainHost.terminate_requested := false; MainHost.exited := false;
              MainHost.tasks := [] |}).
Qed.

Lemma exit_leaves_registration_timer_armed_witness :
  exists st,
    MainHost.createWorkerHost
      {| MainHost.params_pluginId := "p"; MainHost.params_pluginSource := "/plugins/p.ts";
         MainHost.params_pluginConfig := None;
         MainHost.params_metadata :=
           {| meta_id := "p"; meta_name := "P"; meta_version := None;
              meta_description := None |};
         MainHost.params_jitiAlias := None;
         MainHost.onRegisterTool := true; MainHost.onRegisterHook := true;
         MainHost.onRegisterService := true; MainHost.onRegisterCommand := true |}
    = Normal st /\
    armed (MainHost.registrationTimer (MainHost.on_exit 1 st))
          (MainHost.loop (MainHost.on_exit 1 st)) = true.
Proof.
  match goal with
  | |- exists st, ?c = Normal st /\ _ => destruct c as [st|e] eqn:Hcreate
  end.
  - exists st. split; [reflexivity|].
    refine (proj1 (proj2 (exit_leaves_registration_timer_armed _ st 1 VUndefined Hcreate _))).
    discriminate.
  - vm_compute in Hcreate. discriminate.
Defined.

(** ** Instances *)

Lemma unknown_request_id_is_ignored_witness :
  let st :=
    {| MainHost.params :=
         {| MainHost.params_pluginId := "p";
            MainHost.params_pluginSource := "/plugins/p.ts";
            MainHost.params_pluginConfig := None;
            MainHost.params_metadata :=
              {| meta_id := "p"; meta_name := "P"; meta_version := None;
                 meta_description := None |};
            MainHost.params_jitiAlias := None;
            MainHost.onRegisterTool := true; MainHost.onRegisterHook := true;
            MainHost.onRegisterService := true; MainHost.onRegisterCommand := true |};
       MainHost.loop := snd (Rpc.createRequest "req-1" 60000 Rpc.new_RpcCorrelator empty_loop);
       MainHost.rpc :=
         snd (fst (Rpc.createRequest "req-1" 60000 Rpc.new_RpcCorrelator empty_loop));
       MainHost.terminated := false; MainHost.ready := 0; MainHost.registrationTimer := 0;
       MainHost.sent := []; MainHost.calls := []; MainHost.exit_once := [];
       MainHost.terminate_requested := false; MainHost.exited := false;
       MainHost.tasks := [] |} in
  Rpc.resolve "unknown" (VObj []) (MainHost.rpc st) (MainHost.loop st)
    = (false, MainHost.rpc st, MainHost.loop st) /\
  MainHost.on_message (InvokeResult "unknown" true (Some VNull) None) st = st.
Proof.
  intros st.
  destruct (unknown_request_id_is_ignored st "unknown" (VObj []) (Error "late")
              true (Some VNull) None eq_refl) as (Hresolve & _ & Hmessage).
  split; [exact Hresolve|exact Hmessage].
Defined.

Lemma rejectAll_rejects_every_pending_request_witness :
  let created := Rpc.createRequest "req-1" 60000 Rpc.new_RpcCorrelator empty_loop in
  let rpc := snd (fst created) in
  let l := snd created in
  Rpc.size (fst (Rpc.rejectAll (Error "shutdown") rpc l)) = 0%nat /\
  promises (snd (Rpc.rejectAll (Error "shutdown") rpc l)) !! 0%nat
    = Some (Rejected (Error "shutdown")) /\
  armed 0 (snd (Rpc.rejectAll (Error "shutdown") rpc l)) = false.
Proof.
  intros created rpc l.
  destruct (rejectAll_rejects_every_pending_request rpc l (Error "shutdown"))
    as [Hsize Hentries].
  destruct (Hentries "req-1" {| Rpc.promise := 0; Rpc.timer := 0 |})
    as (Htimer & Hpromise & _).
  { simpl. now left. }
  split; [exact Hsize|]. split; [apply Hpromise; reflexivity|exact Htimer].
Defined.


(** ** The scenarios of the test suite *)

Section Scenarios.

Import Fixtures.

(** main-host.test.ts, "loads minimal plugin and registers tool" *)
Example minimal_plugin_registers :
  (fun '(st, _) => (MainHost.calls st, promise_state (MainHost.ready st) (MainHost.loop st)))
    <$> spawned "test-minimal" "__fixtures__/minimal-plugin.ts"
  = Some
      ([MainHost.OnRegisterTool
          {| name := "test-echo"; label := None;
             description := Some "Echoes the input";
             parameters :=
               Some (VObj [("type", VStr "object");
                           ("properties",
                            VObj [("message", VObj [("type", VStr "string")])])]) |};
        MainHost.OnRegisterHook "session_start" "test-minimal:session_start" None;
        MainHost.OnRegisterService "test-service";
        MainHost.OnRegisterCommand "test-cmd" (Some "A test command") None],
       Fulfilled VUndefined).
Proof. vm_compute. reflexivity. Qed.

(** main-host.test.ts, "invokes tool via IPC and returns result" *)
Example echo_tool_returns_its_input :
  spawned "test-invoke" "__fixtures__/minimal-plugin.ts"
    ≫= invokeTool_outcome "test-echo" (VObj [("message", VStr "hello")])
  = Some (MainHost.Done (Fulfilled (VObj [("echo", VStr "hello")]))).
Proof. vm_compute. reflexivity. Qed.

(** main-host.test.ts, "returns error for non-existent tool invocation" *)
Example nonexistent_tool_is_rejected :
  spawned "test-notool" "__fixtures__/minimal-plugin.ts"
    ≫= invokeTool_outcome "nonexistent" (VObj [])
  = Some (MainHost.Done (Rejected (Error "tool not found: nonexistent"))).
Proof. vm_compute. reflexivity. Qed.

(** main-host.test.ts, "handles crash plugin" *)
Example crash_plugin_fails_registration :
  (fun '(st, _) => promise_state (MainHost.ready st) (MainHost.loop st))
    <$> spawned "test-crash" "__fixtures__/crash-plugin.ts"
  = Some (Rejected
            (Error "plugin test-crash registration failed: Error: intentional registration crash")).
Proof. vm_compute. reflexivity. Qed.

(** main-host.test.ts, "handles unsupported API plugin" *)
Example unsupported_api_plugin_fails_registration :
  (fun '(st, w) => (WorkerEntry.posted w,
                    promise_state (MainHost.ready st) (MainHost.loop st)))
    <$> spawned "test-unsupported" "__fixtures__/unsupported-api-plugin.ts"
  = Some
      ([UnsupportedApi "registerChannel"
          "registerChannel is not supported in isolated (worker) mode";
        RegistrationError
          "Error: registerChannel is not supported in isolated (worker) mode"],
       Rejected
         (Error "plugin test-unsupported registration failed: Error: registerChannel is not supported in isolated (worker) mode")).
Proof. vm_compute. reflexivity. Qed.

(** worker-isolation integration test, "terminate cleans up worker" *)
Example invocation_after_terminate_is_rejected :
  (fun '(st, _) =>
     MainHost.tasks
       (MainHost.run [MainHost.Terminate; MainHost.WorkerExit 1; MainHost.Resume 0 "";
                      MainHost.Resume 0 "";
                      MainHost.Invoke
                        (MainHost.ToolCall "test-echo"
                           (VObj [("message", VStr "after terminate")]))] st))
    <$> spawned "integration-terminate" "__fixtures__/minimal-plugin.ts"
  = Some [MainHost.Done (Fulfilled VUndefined);
          MainHost.Done (Rejected (Error "worker terminated"))].
Proof. vm_compute. reflexivity. Qed.

(** rpc.test.ts, "times out after configured ms" *)
Example request_times_out :
  (fun s => (promise_state 0 (snd s), Rpc.size (fst s)))
    (Rpc.run [Rpc.Create "3f2a" 1000; Rpc.Sleep 1001; Rpc.Fire 0]
       (Rpc.new_RpcCorrelator, empty_loop))
  = (Rejected (Error "RPC timeout after 1000ms (reqId: 3f2a)"), 0%nat).
Proof. vm_compute. reflexivity. Qed.

(** rpc.test.ts, "resolve clears the timeout" *)
Example resolve_clears_the_timeout :
  (fun s => promise_state 0 (snd s))
    (Rpc.run [Rpc.Create "3f2a" 1000; Rpc.Resolve "3f2a" (VStr "early");
              Rpc.Sleep 2000; Rpc.Fire 0]
       (Rpc.new_RpcCorrelator, empty_loop))
  = Fulfilled (VStr "early").
Proof. vm_compute. reflexivity. Qed.

(** rpc.test.ts, "rejectAll rejects all pending requests" *)
Example rejectAll_in_the_test :
  (fun s => (promise_state 0 (snd s), promise_state 1 (snd s), Rpc.size (fst s)))
    (Rpc.run [Rpc.Create "3f2a" 5000; Rpc.Create "9c1d" 5000;
              Rpc.RejectAll (Error "shutdown")]
       (Rpc.new_RpcCorrelator, empty_loop))
  = (Rejected (Error "shutdown"), Rejected (Error "shutdown"), 0%nat).
Proof. vm_compute. reflexivity. Qed.

(** serialization.test.ts, "fails for tool without name" and "extracts
    name and description" *)
Example serialization_tests :
  Serialization.validateRoundTrip js_call stack [("description", VStr "no name")]
    = Normal (Serialization.RoundTripFailed
                "serialized descriptor missing required name field") /\
  Serialization.serializeToolDescriptor js_call stack
    [("name", VStr "my-tool"); ("description", VStr "Does something");
     ("execute", VFun 0 "() => {}")]
    = Normal {| name := "my-tool"; label := None;
                description := Some "Does something"; parameters := None |}.
Proof. split; reflexivity. Qed.

End Scenarios.

(** ** Every state of a supervisor is sound *)

Section Soundness.

Import Rpc MainHost.

Implicit Types (rpc : RpcCorrelator) (l : Loop) (s : RpcCorrelator * Loop)
  (ps ts : list nat).

Lemma shrinks_refl s : shrinks s s.
Proof. repeat split; auto. Qed.

Lemma shrinks_trans s1 s2 s3 : shrinks s1 s2 -> shrinks s2 s3 -> shrinks s1 s3.
Proof.
  intros (Hp & Ht & He & Ha) (Hp' & Ht' & He' & Ha'). repeat split.
  - congruence.
  - congruence.
  - auto.
  - auto.
Qed.

Lemma shrinks_foreign_promise s s' p :
  shrinks s s' -> foreign_promise s p -> foreign_promise s' p.
Proof.
  intros (Hp & _ & He & _) [Hlt Hne]. split; [lia|].
  intros k e Hk. apply (Hne k). now apply He.
Qed.

Lemma shrinks_foreign_timer s s' t :
  shrinks s s' -> foreign_timer s t -> foreign_timer s' t.
Proof.
  intros (_ & Ht & _ & Ha) [Hlt Hcb]. split; [lia|].
  intros tm Htm. apply Hcb. now apply Ha.
Qed.

Lemma sound_with_shrinks s s' ps ts :
  sound_with s ps ts -> shrinks s s' -> consistent s' -> sound_with s' ps ts.
Proof.
  intros (_ & Hps & Hts & Hshut) Hsh Hc. split; [exact Hc|]. split; [|split].
  - eapply Forall_impl; [exact Hps|]. intros p. now apply shrinks_foreign_promise.
  - eapply Forall_impl; [exact Hts|]. intros t. now apply shrinks_foreign_timer.
  - intros u tm ep Hu Hcb. apply (shrinks_foreign_promise s s' ep Hsh).
    destruct Hsh as (_ & _ & _ & Ha). exact (Hshut u tm ep (Ha u tm Hu) Hcb).
Qed.

Lemma shrinks_settle rpc l p st : shrinks (rpc, l) (rpc, settle p st l).
Proof.
  repeat split; simpl; auto.
  - apply settle_length.
  - now rewrite settle_timers.
  - intros u tm. now rewrite settle_timers.
Qed.

Lemma shrinks_clearTimeout rpc l t : shrinks (rpc, l) (rpc, clearTimeout t l).
Proof.
  repeat split; simpl; auto.
  - apply length_insert.
  - intros u tm Hu. destruct (decide (u = t)) as [->|Hne].
    + destruct (decide (t < length (timers l))%nat).
      * rewrite list_lookup_insert_eq in Hu by lia. discriminate.
      * now rewrite list_insert_ge in Hu by lia.
    + now rewrite list_lookup_insert_ne in Hu by congruence.
Qed.

Lemma shrinks_delete rpc l k :
  NoDup (map_keys (pending rpc)) ->
  shrinks (rpc, l) ({| pending := map_delete k (pending rpc) |}, l).
Proof.
  intros Hnd. repeat split; simpl; auto.
  intros k' e Hk'. now apply map_get_delete_Some in Hk' as [_ Hk'].
Qed.

Lemma shrinks_finish rpc l k t p st :
  NoDup (map_keys (pending rpc)) ->
  shrinks (rpc, l)
          ({| pending := map_delete k (pending rpc) |}, settle p st (clearTimeout t l)).
Proof.
  intros Hnd.
  eapply shrinks_trans; [apply (shrinks_delete rpc l k Hnd)|].
  eapply shrinks_trans; [apply shrinks_clearTimeout|apply shrinks_settle].
Qed.

Lemma reject_each_length entries error l :
  length (promises (reject_each entries error l)) = length (promises l) /\
  length (timers (reject_each entries error l)) = length (timers l).
Proof.
  revert l. induction entries as [|[k e] entries IH]; intros l; simpl; [now split|].
  destruct (IH (settle (promise e) (Rejected error) (clearTimeout (timer e) l))) as [Hp Ht].
  rewrite Hp, Ht, settle_length, settle_timers. simpl. now rewrite length_insert.
Qed.

Lemma shrinks_rejectAll rpc l error : shrinks (rpc, l) (rejectAll error rpc l).
Proof.
  destruct (reject_each_length (pending rpc) error l) as [Hp Ht].
  repeat split; simpl; auto.
  - discriminate.
  - intros u tm. apply reject_each_keeps_armed.
Qed.

Lemma shrinks_resolve rpc l reqId value :
  NoDup (map_keys (pending rpc)) ->
  shrinks (rpc, l) (snd (fst (resolve reqId value rpc l)), snd (resolve reqId value rpc l)).
Proof.
  intros Hnd. unfold resolve. destruct (map_get reqId (pending rpc)); simpl.
  - now apply shrinks_finish.
  - apply shrinks_refl.
Qed.

Lemma shrinks_reject rpc l reqId error :
  NoDup (map_keys (pending rpc)) ->
  shrinks (rpc, l) (snd (fst (reject reqId error rpc l)), snd (reject reqId error rpc l)).
Proof.
  intros Hnd. unfold reject. destruct (map_get reqId (pending rpc)); simpl.
  - now apply shrinks_finish.
  - apply shrinks_refl.
Qed.

(** Settling a promise that is not the correlator's, and clearing a
    timer that is not, leave the correlator in agreement with the loop. *)
Lemma consistent_settle_foreign rpc l p st :
  consistent (rpc, l) -> foreign_promise (rpc, l) p -> consistent (rpc, settle p st l).
Proof.
  intros (Hnd & Hent & Htim & Hinj) [_ Hne]. simpl in Hne. simpl. repeat split; auto.
  - rewrite settle_other; [now destruct (Hent _ _ H)|]. now apply (Hne k).
  - destruct (Hent _ _ H) as (_ & tm & ms & Ht & Hcb).
    exists tm, ms. now rewrite settle_timers.
  - intros u tm k q ms Hu. rewrite settle_timers in Hu. now apply Htim.
Qed.

Lemma consistent_clear_foreign rpc l t :
  consistent (rpc, l) ->
  (forall tm, timers l !! t = Some (Some tm) ->
              forall k q ms, callback tm <> RpcTimeout k q ms) ->
  consistent (rpc, clearTimeout t l).
Proof.
  intros (Hnd & Hent & Htim & Hinj) Hcb. simpl. repeat split; auto.
  - now destruct (Hent _ _ H).
  - destruct (Hent _ _ H) as (_ & tm & ms & Ht & Hcbe).
    exists tm, ms. split; [|exact Hcbe].
    rewrite list_lookup_insert_ne; [exact Ht|].
    intros Heq. rewrite Heq in Hcb. exact (Hcb tm Ht _ _ _ Hcbe).
  - intros u tm k q ms Hu. apply (Htim u tm).
    now apply (proj2 (proj2 (proj2 (shrinks_clearTimeout rpc l t))) u tm).
Qed.

Lemma sound_settle_foreign rpc l ps ts p st :
  sound_with (rpc, l) ps ts -> foreign_promise (rpc, l) p ->
  sound_with (rpc, settle p st l) ps ts.
Proof.
  intros Hs Hp. apply (sound_with_shrinks (rpc, l)); [exact Hs|apply shrinks_settle|].
  apply consistent_settle_foreign; [now destruct Hs|exact Hp].
Qed.

Lemma sound_clear_foreign rpc l ps ts t :
  sound_with (rpc, l) ps ts ->
  (forall tm, timers l !! t = Some (Some tm) ->
              forall k q ms, callback tm <> RpcTimeout k q ms) ->
  sound_with (rpc, clearTimeout t l) ps ts.
Proof.
  intros Hs Ht. apply (sound_with_shrinks (rpc, l)); [exact Hs|apply shrinks_clearTimeout|].
  apply consistent_clear_foreign; [now destruct Hs|exact Ht].
Qed.

Lemma sound_resolve rpc l ps ts reqId value :
  sound_with (rpc, l) ps ts ->
  sound_with (snd (fst (resolve reqId value rpc l)), snd (resolve reqId value rpc l)) ps ts.
Proof.
  intros Hs. pose proof Hs as (Hc & _). pose proof Hc as (Hnd & _).
  apply (sound_with_shrinks (rpc, l)); [exact Hs|now apply shrinks_resolve|].
  now apply consistent_resolve.
Qed.

Lemma sound_reject rpc l ps ts reqId error :
  sound_with (rpc, l) ps ts ->
  sound_with (snd (fst (reject reqId error rpc l)), snd (reject reqId error rpc l)) ps ts.
Proof.
  intros Hs. pose proof Hs as (Hc & _). pose proof Hc as (Hnd & _).
  apply (sound_with_shrinks (rpc, l)); [exact Hs|now apply shrinks_reject|].
  now apply consistent_reject.
Qed.

Lemma sound_rejectAll rpc l ps ts error :
  sound_with (rpc, l) ps ts -> sound_with (rejectAll error rpc l) ps ts.
Proof.
  intros Hs. pose proof Hs as (Hc & _).
  apply (sound_with_shrinks (rpc, l)); [exact Hs|apply shrinks_rejectAll|].
  now apply consistent_rejectAll.
Qed.

End Soundness.

Section SoundSteps.

Import Rpc MainHost.

Implicit Types (rpc : RpcCorrelator) (l : Loop) (ps ts : list nat) (st : HostState).

Lemma sound_with_weaken rpc l ps ts ps' ts' :
  sound_with (rpc, l) ps ts ->
  (forall p, In p ps' -> In p ps) -> (forall t, In t ts' -> In t ts) ->
  sound_with (rpc, l) ps' ts'.
Proof.
  intros (Hc & Hps & Hts & Hshut) Hsubp Hsubt. split; [exact Hc|]. split; [|split].
  - apply List.Forall_forall. intros p Hp.
    now apply (proj1 (List.Forall_forall _ _) Hps), Hsubp.
  - apply List.Forall_forall. intros t Ht.
    now apply (proj1 (List.Forall_forall _ _) Hts), Hsubt.
  - exact Hshut.
Qed.

Lemma sound_with_promise rpc l ps ts p :
  sound_with (rpc, l) ps ts -> In p ps -> foreign_promise (rpc, l) p.
Proof. intros (_ & Hps & _) Hin. now apply (proj1 (List.Forall_forall _ _) Hps). Qed.

Lemma sound_with_timer rpc l ps ts t :
  sound_with (rpc, l) ps ts -> In t ts ->
  forall tm, timers l !! t = Some (Some tm) -> forall k q ms, callback tm <> RpcTimeout k q ms.
Proof.
  intros (_ & _ & Hts & _) Hin.
  now destruct (proj1 (List.Forall_forall _ _) Hts t Hin).
Qed.

Lemma sound_createRequest rpc l ps ts uuid timeoutMs :
  sound_with (rpc, l) ps ts ->
  map_get uuid (pending rpc) = None ->
  sound_with (snd (fst (createRequest uuid timeoutMs rpc l)),
              snd (createRequest uuid timeoutMs rpc l)) ps ts.
Proof.
  intros (Hc & Hps & Hts & Hshut) Hfresh.
  split; [now apply consistent_createRequest|].
  unfold createRequest. simpl.
  assert (Hfp : forall p, foreign_promise (rpc, l) p ->
                  foreign_promise
                    ({| pending := map_set uuid {| promise := length (promises l);
                                                   timer := length (timers l) |}
                                     (pending rpc) |},
                     {| now := now l; promises := promises l ++ [Pending];
                        timers := timers l
                                    ++ [Some {| due := now l + timer_delay timeoutMs;
                                                callback := RpcTimeout uuid
                                                              (length (promises l))
                                                              timeoutMs |}] |}) p).
  { intros p [Hlt Hne]. simpl in *. split; simpl; [rewrite length_app; simpl; lia|].
    intros k e Hk. destruct (decide (k = uuid)) as [->|Hk'].
    - rewrite map_get_set_eq in Hk. injection Hk as <-. simpl. lia.
    - rewrite map_get_set_ne in Hk by exact Hk'. now apply (Hne k). }
  split; [|split].
  - eapply Forall_impl; [exact Hps|]. exact Hfp.
  - eapply Forall_impl; [exact Hts|]. intros t [Hlt Hcb]. simpl in *.
    split; simpl; [rewrite length_app; simpl; lia|].
    intros tm Htm. rewrite lookup_app_l in Htm by exact Hlt. now apply Hcb.
  - intros u tm ep Hu Hcb. simpl in Hu. apply Hfp.
    destruct (decide (u < length (timers l))%nat) as [Hlt|Hge].
    + rewrite lookup_app_l in Hu by exact Hlt. exact (Hshut u tm ep Hu Hcb).
    + rewrite lookup_app_r in Hu by lia.
      destruct (u - length (timers l))%nat; simpl in Hu; [|discriminate].
      injection Hu as <-. discriminate.
Qed.

(** What [terminate] adds: a new promise and a shutdown timer that
    resolves it. *)
Lemma sound_shutdown_timer rpc l ps ts delay :
  sound_with (rpc, l) ps ts ->
  sound_with
    (rpc, snd (setTimeout (ShutdownTimeout (length (promises l))) delay (snd (newPromise l))))
    (ps ++ [length (promises l)]) (ts ++ [length (timers l)]).
Proof.
  intros (Hc & Hps & Hts & Hshut). pose proof Hc as (Hnd & Hent & Htim & Hinj).
  unfold setTimeout, newPromise. simpl.
  assert (Hbound : forall k e, map_get k (pending rpc) = Some e ->
                     (promise e < length (promises l))%nat /\
                     (timer e < length (timers l))%nat).
  { intros k e Hk. destruct (Hent k e Hk) as (Hp & tm & ms & Ht & _).
    split; [now apply lookup_lt_Some in Hp|now apply lookup_lt_Some in Ht]. }
  assert (Hfp : forall p, (p <= length (promises l))%nat ->
                  (forall k e, map_get k (pending rpc) = Some e -> promise e <> p) ->
                  foreign_promise
                    (rpc, {| now := now l; promises := promises l ++ [Pending];
                             timers := timers l
                                         ++ [Some {| due := now l + timer_delay delay;
                                                     callback := ShutdownTimeout
                                                                   (length (promises l)) |}] |})
                    p).
  { intros p Hle Hne. split; simpl; [rewrite length_app; simpl; lia|exact Hne]. }
  assert (Hnew : forall k e, map_get k (pending rpc) = Some e ->
                             promise e <> length (promises l)).
  { intros k e Hk. apply Hbound in Hk. lia. }
  split; [|split; [|split]].
  - simpl. repeat split; auto.
    + destruct (Hent _ _ H) as [Hp _].
      now rewrite lookup_app_l by (now apply lookup_lt_Some in Hp).
    + destruct (Hent _ _ H) as (_ & tm & ms & Ht & Hcb).
      exists tm, ms. rewrite lookup_app_l by (now apply lookup_lt_Some in Ht). now split.
    + intros u tm k q ms Hu Hcb.
      destruct (decide (u < length (timers l))%nat) as [Hlt|Hge].
      * rewrite lookup_app_l in Hu by exact Hlt. exact (Htim u tm k q ms Hu Hcb).
      * rewrite lookup_app_r in Hu by lia.
        destruct (u - length (timers l))%nat; simpl in Hu; [|discriminate].
        injection Hu as <-. discriminate.
  - apply Forall_app. split.
    + eapply Forall_impl; [exact Hps|]. intros p [Hlt Hne]. simpl in *.
      apply Hfp; [lia|exact Hne].
    + constructor; [|constructor]. now apply Hfp.
  - apply Forall_app. split.
    + eapply Forall_impl; [exact Hts|]. intros t [Hlt Hcb]. simpl in *.
      split; simpl; [rewrite length_app; simpl; lia|].
      intros tm Htm. rewrite lookup_app_l in Htm by exact Hlt. now apply Hcb.
    + constructor; [|constructor].
      split; simpl; [rewrite length_app; simpl; lia|].
      intros tm Htm. rewrite lookup_app_r, Nat.sub_diag in Htm by lia.
      injection Htm as <-. discriminate.
  - intros u tm ep Hu Hcb. simpl in Hu.
    destruct (decide (u < length (timers l))%nat) as [Hlt|Hge].
    + rewrite lookup_app_l in Hu by exact Hlt.
      destruct (Hshut u tm ep Hu Hcb) as [Hlt' Hne]. simpl in *.
      apply Hfp; [lia|exact Hne].
    + rewrite lookup_app_r in Hu by lia.
      destruct (u - length (timers l))%nat; simpl in Hu; [|discriminate].
      injection Hu as <-. simpl in Hcb. injection Hcb as <-. now apply Hfp.
Qed.

Lemma sound_advance rpc l ps ts dt :
  sound_with (rpc, l) ps ts -> sound_with (rpc, advance dt l) ps ts.
Proof. intros H. exact H. Qed.

Lemma sound_readyReject err st : sound st -> sound (readyReject err st).
Proof.
  intros H. unfold sound, readyReject, own_promises, own_timers in *. simpl.
  apply sound_settle_foreign; [exact H|].
  apply (sound_with_promise _ _ _ _ _ H). now left.
Qed.

Lemma sound_readyResolve st : sound st -> sound (readyResolve st).
Proof.
  intros H. unfold sound, readyResolve, own_promises, own_timers in *. simpl.
  apply sound_settle_foreign; [exact H|].
  apply (sound_with_promise _ _ _ _ _ H). now left.
Qed.

Lemma sound_clear_registrationTimer st : sound st -> sound (clear_registrationTimer st).
Proof.
  intros H. unfold sound, clear_registrationTimer, own_promises, own_timers in *. simpl.
  apply sound_clear_foreign; [exact H|].
  apply (sound_with_timer _ _ _ _ _ H). now left.
Qed.

Lemma sound_rpc_rejectAll err st : sound st -> sound (rpc_rejectAll err st).
Proof.
  intros H. unfold sound, rpc_rejectAll, own_promises, own_timers in *. simpl.
  now apply (sound_rejectAll (rpc st) (loop st)).
Qed.

End SoundSteps.

Section SoundSupervisor.

Import Rpc MainHost.

Implicit Types (st : HostState).

Lemma sound_on_message m st : sound st -> sound (on_message m st).
Proof.
  intros H. destruct m; cbn [on_message].
  - destruct (onRegisterTool (params st)); exact H.
  - destruct (onRegisterHook (params st)); exact H.
  - destruct (onRegisterService (params st)); exact H.
  - destruct (onRegisterCommand (params st)); exact H.
  - now apply sound_readyResolve, sound_clear_registrationTimer.
  - now apply sound_readyReject, sound_clear_registrationTimer.
  - exact H.
  - destruct ok.
    + pose proof (sound_resolve (rpc st) (loop st) (own_promises st) (own_timers st)
                    reqId (default VUndefined value) H) as Hs.
      now destruct (resolve reqId (default VUndefined value) (rpc st) (loop st))
        as [[b r] l].
    + pose proof (sound_reject (rpc st) (loop st) (own_promises st) (own_timers st)
                    reqId (Error (default "unknown worker error" err)) H) as Hs.
      now destruct (reject reqId (Error (default "unknown worker error" err))
                      (rpc st) (loop st)) as [[b r] l].
  - exact H.
Qed.

Lemma sound_on_error err st : sound st -> sound (on_error err st).
Proof.
  intros H.
  destruct (on_error_cases err st) as [(text & reason & _ & ->)|(e & _ & ->)].
  - now apply sound_rpc_rejectAll, sound_readyReject, sound_clear_registrationTimer.
  - now apply sound_clear_registrationTimer.
Qed.

Lemma sound_exit_once listeners rpc l ps ts :
  sound_with (rpc, l) ps ts ->
  (forall t ep, In (t, ep) listeners -> In t ts /\ In ep ps) ->
  sound_with (rpc, fold_left (fun l listener => run_exit_once listener l) listeners l) ps ts.
Proof.
  revert l. induction listeners as [|[t ep] listeners IH]; intros l H Hin; simpl; [exact H|].
  destruct (Hin t ep (or_introl eq_refl)) as [Ht Hep].
  apply IH; [|intros t' ep' Hin'; apply Hin; now right].
  apply sound_settle_foreign.
  - apply sound_clear_foreign; [exact H|]. now apply (sound_with_timer _ _ _ _ _ H).
  - apply (sound_with_promise _ (clearTimeout t l) ps ts).
    + apply sound_clear_foreign; [exact H|]. now apply (sound_with_timer _ _ _ _ _ H).
    + exact Hep.
Qed.

Lemma sound_on_exit code st : sound st -> sound (on_exit code st).
Proof.
  intros H. unfold on_exit.
  set (st1 := if negb (code =? 0)
              then rpc_rejectAll
                     (Error ("worker exited with code " +:+ Z_to_string code))
                     (readyReject
                        (Error ("worker exited with code " +:+ Z_to_string code)) st)
              else st).
  assert (H1 : sound st1).
  { subst st1. destruct (negb (code =? 0)); [|exact H].
    now apply sound_rpc_rejectAll, sound_readyReject. }
  unfold sound, own_promises, own_timers in *. simpl.
  apply (sound_with_weaken _ _ (ready st1 :: map snd (exit_once st1))
           (registrationTimer st1 :: map fst (exit_once st1))).
  - apply sound_exit_once; [exact H1|].
    intros t ep Hin. split; right.
    + apply in_map_iff. now exists (t, ep).
    + apply in_map_iff. now exists (t, ep).
  - intros p [<-|[]]. now left.
  - intros t [<-|[]]. now left.
Qed.

Lemma sound_on_timer t st : sound st -> sound (on_timer t st).
Proof.
  intros H. unfold on_timer. destruct (due_timer t (loop st)) as [tm|] eqn:Hdue; [|exact H].
  apply due_timer_Some in Hdue as [Ht _].
  pose proof H as (Hc & _ & _ & Hshut). pose proof Hc as (Hnd & _ & Htim & _).
  destruct (callback tm) as [reqId p timeoutMs| |ep] eqn:Hcb.
  - unfold sound, own_promises, own_timers in *. simpl.
    pose proof (Htim t tm reqId p timeoutMs Ht Hcb) as Hk.
    apply (sound_with_shrinks (rpc st, loop st)); [exact H|now apply shrinks_finish|].
    exact (consistent_finish (rpc st) (loop st) reqId {| promise := p; timer := t |} _ Hc Hk).
  - apply sound_readyReject.
    unfold sound, own_promises, own_timers in *. simpl.
    apply sound_clear_foreign; [exact H|].
    intros tm' Htm'. rewrite Ht in Htm'. injection Htm' as <-. rewrite Hcb. discriminate.
  - unfold sound, own_promises, own_timers in *. simpl.
    assert (Hclear : sound_with (rpc st, clearTimeout t (loop st))
                       (ready st :: map snd (exit_once st))
                       (registrationTimer st :: map fst (exit_once st))).
    { apply sound_clear_foreign; [exact H|].
      intros tm' Htm'. rewrite Ht in Htm'. injection Htm' as <-. rewrite Hcb. discriminate. }
    apply sound_settle_foreign; [exact Hclear|].
    apply (shrinks_foreign_promise (rpc st, loop st)); [apply shrinks_clearTimeout|].
    exact (Hshut t tm ep Ht Hcb).
Qed.

Lemma sound_terminate st : sound st -> sound (terminate st).
Proof.
  intros H. unfold terminate. destruct (terminated st); [exact H|].
  pose proof (sound_rpc_rejectAll (Error "worker terminated") (set_terminated true st) H)
    as H2.
  set (st2 := rpc_rejectAll (Error "worker terminated") (set_terminated true st)) in *.
  pose proof (sound_shutdown_timer (rpc st2) (loop st2) (own_promises st2) (own_timers st2)
                SHUTDOWN_TIMEOUT_MS H2) as H3.
  unfold sound, own_promises, own_timers in *. simpl in *.
  rewrite !map_app. simpl. exact H3.
Qed.

Lemma sound_resume i uuid st :
  sound st -> fresh_uuid (Resume i uuid) st = true -> sound (resume i uuid st).
Proof.
  intros H Hfresh. unfold resume. simpl in Hfresh.
  destruct (tasks st !! i) as [task|]; [|exact H].
  destruct task as [c|p with_value|ep|ep|result]; cbn [continue].
  - destruct (promise_state (ready st) (loop st)); try exact H.
    destruct (map_get uuid (pending (rpc st))) eqn:Hget; [discriminate|].
    pose proof (sound_createRequest (rpc st) (loop st) (own_promises st) (own_timers st)
                  uuid (timeout_of c) H Hget) as Hs.
    destruct (createRequest uuid (timeout_of c) (rpc st) (loop st)) as [[[reqId p] r] l].
    destruct (main_message_cloneable (message_of reqId c)); exact Hs.
  - destruct (promise_state p (loop st)); exact H.
  - destruct (exited st); exact H.
  - destruct (promise_state ep (loop st)); exact H.
  - exact H.
Qed.

Lemma sound_step e st : sound st -> fresh_uuid e st = true -> sound (step e st).
Proof.
  intros H Hfresh. destruct e; cbn [step].
  - now apply sound_on_message.
  - now apply sound_on_error.
  - now apply sound_on_exit.
  - now apply sound_on_timer.
  - exact H.
  - unfold invoke. destruct (terminated st); exact H.
  - now apply sound_terminate.
  - now apply sound_resume.
Qed.

Lemma sound_createWorkerHost p st : createWorkerHost p = Normal st -> sound st.
Proof.
  unfold createWorkerHost. simpl.
  destruct (cloneable_opt (params_pluginConfig p)); [|discriminate].
  intros [= <-]. unfold sound, own_promises, own_timers. simpl.
  split; [|split; [|split]].
  - simpl. repeat split; try discriminate.
    + apply NoDup_nil_2.
    + intros u tm k q ms Hu Hcb. destruct u; simpl in Hu; [|discriminate].
      injection Hu as <-. discriminate.
  - constructor; [|constructor]. split; simpl; [lia|discriminate].
  - constructor; [|constructor]. split; simpl; [lia|].
    intros tm [= <-]. discriminate.
  - intros u tm ep Hu Hcb. destruct u; simpl in Hu; [|discriminate].
    injection Hu as <-. discriminate.
Qed.

(** In every state that a supervisor reaches, its correlator agrees with
    its loop: every pending request has an outstanding promise and an
    armed timer of its own. The ids of new requests are taken to be
    fresh. *)
Lemma reachable_supervisor_is_sound p st events :
  createWorkerHost p = Normal st ->
  fresh_uuids events st = true ->
  sound (run events st) /\ consistent (rpc (run events st), loop (run events st)).
Proof.
  intros Hcreate. apply sound_createWorkerHost in Hcreate. revert st Hcreate.
  induction events as [|e events IH]; intros st Hs Hfresh; simpl.
  - split; [exact Hs|now destruct Hs].
  - simpl in Hfresh. apply andb_true_iff in Hfresh as [He Hrest].
    apply IH; [now apply sound_step|exact Hrest].
Qed.

End SoundSupervisor.

(** X23. No caller is left waiting on a dead unit: in a state that a
    supervisor has reached, an [error] event whose value converts to a
    string, as every [Error], primitive and plain object without
    conversion methods does, or an [exit] event with a code other than
    zero empties the table of pending requests, clears the timer of
    every request that was pending and rejects its promise. An [error]
    event whose value does not convert, [String(err)] throwing inside
    the listener, only clears the registration timer: [ready] and the
    pending requests stay as they were. *)
Lemma crash_leaves_no_request_pending :
  forall (p : MainHost.WorkerHostParams) (st0 : MainHost.HostState)
         (events : list MainHost.Event),
    MainHost.createWorkerHost p = Normal st0 ->
    MainHost.fresh_uuids events st0 = true ->
    let st := MainHost.run events st0 in
    (forall e : MainHost.Event,
        match e with
        | MainHost.WorkerError err => exists text, MainHost.host_String err = Normal text
        | MainHost.WorkerExit code => code <> 0
        | _ => False
        end ->
        Rpc.size (MainHost.rpc (MainHost.step e st)) = 0%nat /\
        forall reqId entry,
          In (reqId, entry) (Rpc.pending (MainHost.rpc st)) ->
          armed (Rpc.timer entry) (MainHost.loop (MainHost.step e st)) = false /\
          exists reason,
            promises (MainHost.loop (MainHost.step e st)) !! Rpc.promise entry
              = Some (Rejected reason)) /\
    (forall err thrown,
        MainHost.host_String err = Throw thrown ->
        MainHost.step (MainHost.WorkerError err) st
        = MainHost.clear_registrationTimer st).
Proof.
  intros p st0 events Hcreate Hfresh st. split.
  - intros e He.
    destruct (reachable_supervisor_is_sound p st0 events Hcreate Hfresh)
      as [_ (Hnd & Hent & _)].
    destruct (crash_rejects_ready_and_pending e st He) as (Hsize & _ & _ & Hentries).
    split; [exact Hsize|]. intros reqId entry Hin.
    destruct (Hentries reqId entry Hin) as [Htimer Hpromise].
    split; [exact Htimer|]. apply Hpromise.
    apply (Hent reqId). now apply In_map_get.
  - intros err thrown Hthrown. cbn [MainHost.step]. unfold MainHost.on_error.
    now rewrite Hthrown.
Qed.

(* ===================================================================== *)
(** * Further properties *)

(** A closing step for instances at a concrete input: the instance [H] and
    the goal are both evaluated, and the evaluated instance closes the
    evaluated goal. *)
Ltac conclude_by_evaluation H :=
  let T := type of H in
  let T' := eval vm_compute in T in
  let G := lazymatch goal with |- ?G => G end in
  let G' := eval vm_compute in G in
  let Hn := fresh "Hn" in
  assert (Hn : T') by exact H;
  cut G'; [exact (fun x => x) | exact Hn].

(* ===================================================================== *)

(** ** The correlator: a request and its reply *)

Section MoreMapFacts.

Context {V : Type}.
Implicit Types (m : JsMap V) (k : string) (v : V).


Lemma map_delete_set_absent m k v :
  map_get k m = None -> map_delete k (map_set k v m) = m.
Proof.
  induction m as [|[k' v'] m IH]; simpl.
  - now rewrite String.eqb_refl.
  - destruct (String.eqb_spec k k') as [->|Hne]; [discriminate|].
    intros H. simpl. destruct (String.eqb_spec k k'); [congruence|].
    now rewrite IH.
Qed.

End MoreMapFacts.



(** ** The serializer and the type guards *)

(** X2. The outcomes of [validateRoundTrip]. When the serializer returns
    a descriptor, the function accepts the tool with that descriptor if
    its name is not empty, and reports "serialized descriptor missing
    required name field" if it is. When the serializer throws [err], the
    function reports "serialization failed: " followed by [String(err)].
    When [String(err)] throws in turn, as it does for a thrown array
    that holds a symbol, the function itself throws. It never reports
    "round-trip name mismatch". *)
Theorem validateRoundTrip_outcomes :
  forall (js_call : nat -> JsValue -> list JsValue -> Completion JsValue) (stack : nat)
         (tool : list (string * JsValue)),
    match Serialization.serializeToolDescriptor js_call stack tool with
    | Normal d =>
        Serialization.validateRoundTrip js_call stack tool
        = Normal (if String.eqb (name d) ""
                  then Serialization.RoundTripFailed
                         "serialized descriptor missing required name field"
                  else Serialization.RoundTripOk d)
    | Throw err =>
        match String_ js_call err with
        | Normal text =>
            Serialization.validateRoundTrip js_call stack tool
            = Normal (Serialization.RoundTripFailed ("serialization failed: " +:+ text))
        | Throw e => Serialization.validateRoundTrip js_call stack tool = Throw e
        end
    end /\
    Serialization.validateRoundTrip js_call stack tool
      <> Normal (Serialization.RoundTripFailed "round-trip name mismatch").
Proof.
  intros js_call stack tool.
  destruct (Serialization.serializeToolDescriptor js_call stack tool) as [d|err] eqn:Hser.
  - rewrite (validateRoundTrip_returned js_call stack tool d Hser).
    split; [reflexivity|]. destruct (String.eqb (name d) ""); discriminate.
  - assert (Hcatch : Serialization.validateRoundTrip js_call stack tool
                     = bind (String_ js_call err) (fun text =>
                         Normal (Serialization.RoundTripFailed
                                   ("serialization failed: " +:+ text)))).
    { unfold Serialization.validateRoundTrip. now rewrite Hser. }
    rewrite Hcatch. split.
    + now destruct (String_ js_call err).
    + destruct (String_ js_call err); discriminate.
Qed.



(** X4. [isValidToolDescriptor] looks at the name and at nothing else.
    It accepts a value exactly when the value is an object, or an
    [Error], whose [name] is a string that is not empty: [null],
    [undefined], primitives, functions and arrays are rejected, and so is
    an object whose name is missing, empty or not a string; the other
    fields are not examined. *)
Theorem isValidToolDescriptor_checks_the_name_only :
  forall (desc : JsValue),
    Serialization.isValidToolDescriptor desc = true <->
    exists s, s <> "" /\
      ((exists props, desc = VObj props /\ prop "name" props = VStr s) \/
       (exists message, desc = VError s message)).
Proof.
  intros desc. unfold Serialization.isValidToolDescriptor. split.
  - destruct desc as [| |b|n|z|s|d|f src|n m|items|props]; simpl;
      rewrite ?orb_true_r; try discriminate.
    + destruct n as [|ch rest]; [discriminate|]. intros _.
      exists (String ch rest). split; [discriminate|]. right. now exists m.
    + destruct (prop "name" props) as [| | | | |s| | | | |] eqn:Hname; try discriminate.
      destruct s as [|ch rest]; [discriminate|]. intros _.
      exists (String ch rest). split; [discriminate|]. left. now exists props.
  - intros (s & Hs & [(props & -> & Hname)|(message & ->)]); simpl.
    + rewrite Hname. destruct s; [congruence|reflexivity].
    + destruct s; [congruence|reflexivity].
Qed.

(** X5. The two type guards are one test. Each accepts a value exactly
    when it is an object whose [type] property is a string; [null],
    primitives, functions, arrays and errors are rejected. Neither looks
    at which type it is, nor at any other field, so each accepts the
    messages of the other direction as well. *)
Theorem type_guards_accept_objects_with_a_string_type :
  forall (data : JsValue),
    isWorkerToMainMessage data = isMainToWorkerMessage data /\
    (isWorkerToMainMessage data = true <->
     exists props s, data = VObj props /\ prop "type" props = VStr s).
Proof.
  intros data. split; [reflexivity|].
  unfold isWorkerToMainMessage. split.
  - destruct data as [| |b|n|z|s|d|f src|n m|items|props]; simpl; try discriminate.
    destruct (prop "type" props) as [| | | | |s| | | | |] eqn:Htype; try discriminate.
    intros _. now exists props, s.
  - intros (props & s & -> & Htype). simpl. now rewrite Htype.
Qed.

(** ** The unit: invocations *)

Section InvocationFacts.

Import WorkerEntry.

Variable js_call : nat -> JsValue -> list JsValue -> Completion JsValue.

(** The error of a failed clone always converts to a string. *)
Lemma String_DataCloneError payload :
  String_ js_call (DataCloneError payload)
  = Normal (error_to_string "DataCloneError" (DataCloneError_message payload)).
Proof. reflexivity. Qed.

(** The body of a [catch] posts [String(err)], or throws what the
    conversion throws and posts nothing. *)
Lemma post_failure_unfold reqId err w :
  post_failure js_call reqId err w
  = match String_ js_call err with
    | Normal text => (Normal tt, with_posted (InvokeResult reqId false None (Some text)) w)
    | Throw e => (Throw e, w)
    end.
Proof.
  unfold post_failure, mbind, lift. destruct (String_ js_call err); reflexivity.
Qed.

(** What the [try]/[catch] around an awaited handler posts. *)
Lemma report_unfold reqId with_value (awaited : Async JsValue) w :
  report js_call reqId with_value awaited w
  = match awaited w with
    | (Fulfils value, w1) =>
        let sent := if with_value then Some value else None in
        (Fulfils tt,
         with_posted
           (if cloneable_opt sent
            then InvokeResult reqId true sent None
            else InvokeResult reqId false None
                   (Some (error_to_string "DataCloneError"
                            (DataCloneError_message (default VUndefined sent))))) w1)
    | (Rejects err, w1) =>
        match String_ js_call err with
        | Normal text =>
            (Fulfils tt, with_posted (InvokeResult reqId false None (Some text)) w1)
        | Throw e => (Rejects e, w1)
        end
    | (Hangs, w1) => (Hangs, w1)
    end.
Proof.
  unfold report. destruct (awaited w) as [[value|err|] w1]; [| |reflexivity].
  - unfold settled, try_catch, postMessage.
    cbn [worker_message_cloneable worker_message_payload]. cbn zeta.
    destruct (cloneable_opt (if with_value then Some value else None)); [reflexivity|].
    rewrite post_failure_unfold, String_DataCloneError. reflexivity.
  - unfold settled. rewrite post_failure_unfold.
    destruct (String_ js_call err); reflexivity.
Qed.

Variable call : nat -> list JsValue -> list ApiCall * Settlement JsValue.
Variable api : BridgeApi.

(** Awaiting a call either ran a closure of the plugin, or failed for
    want of a function, which left the state as it was. *)
Lemma await_call_cases callee h args w :
  (exists f source,
      h = VFun f source /\
      await_call call api callee h args w
      = (snd (call f args), plugin_calls api (fst (call f args)) w)) \/
  await_call call api callee h args w
  = (Rejects (TypeError (callee +:+ " is not a function")), w).
Proof.
  destruct h as [| |b|k|z|s|d|f src|k m|items|props]; try (right; reflexivity).
  left. now exists f, src.
Qed.



End InvocationFacts.




(** ** The unit: services, commands and hooks *)

Section MoreWorkerFacts.

Import WorkerEntry.

Lemma append_injective (a b c : string) : a +:+ b = a +:+ c -> b = c.
Proof.
  induction a as [|ch a IH]; [now intros H|].
  change (String ch (a +:+ b) = String ch (a +:+ c) -> b = c).
  intros [= H]. now apply IH.
Qed.

Lemma registerService_unfold trim js_call stack init id service_start service_stop w :
  registerService (createBridgeApi trim js_call stack init) id service_start service_stop w
  = match trim <$> id with
    | None => (Normal tt, w)
    | Some sid =>
        if String.eqb sid "" then (Normal tt, w)
        else
          (Normal tt,
           with_posted (RegisterService sid)
             {| toolHandlers := toolHandlers w; hookHandlers := hookHandlers w;
                serviceHandlers :=
                  map_set sid {| start := service_start; stop := service_stop |}
                    (serviceHandlers w);
                commandHandlers := commandHandlers w; posted := posted w |})
    end.
Proof.
  unfold createBridgeApi. cbn [registerService].
  destruct id as [raw|]; cbn [fmap option_fmap option_map]; [|reflexivity].
  destruct (String.eqb (trim raw) ""); reflexivity.
Qed.

Lemma registerCommand_unfold trim js_call stack init cname cdescription usage handler w :
  registerCommand (createBridgeApi trim js_call stack init) cname cdescription usage handler w
  = match trim <$> cname with
    | None => (Normal tt, w)
    | Some n =>
        if String.eqb n "" then (Normal tt, w)
        else
          (Normal tt,
           with_posted (RegisterCommand n cdescription usage)
             {| toolHandlers := toolHandlers w; hookHandlers := hookHandlers w;
                serviceHandlers := serviceHandlers w;
                commandHandlers := map_set n handler (commandHandlers w);
                posted := posted w |})
    end.
Proof.
  unfold createBridgeApi. cbn [registerCommand].
  destruct cname as [raw|]; cbn [fmap option_fmap option_map]; [|reflexivity].
  destruct (String.eqb (trim raw) ""); reflexivity.
Qed.

Lemma on_unfold trim js_call stack init hookName handler priority w :
  on (createBridgeApi trim js_call stack init) hookName handler priority w
  = (Normal tt,
     with_posted (RegisterHook hookName (pluginId init +:+ ":" +:+ hookName) priority)
       {| toolHandlers := toolHandlers w;
          hookHandlers := map_set (pluginId init +:+ ":" +:+ hookName) handler (hookHandlers w);
          serviceHandlers := serviceHandlers w;
          commandHandlers := commandHandlers w; posted := posted w |}).
Proof. reflexivity. Qed.

End MoreWorkerFacts.

(** X8. [registerService] keeps a service under its trimmed id. When
    the id is missing, or empty once trimmed, the call changes nothing
    and posts nothing. Otherwise it stores [{ start, stop }] under the
    trimmed id, replacing what was there, and posts one
    [register:service] with the trimmed id. An [invoke:service:start] for
    that id is then answered with [ok: true] and no value, without
    calling anything when [start] is [undefined] or [null], and after
    awaiting [start()] when it is a function, whose return value is not
    forwarded; what [start] throws is posted as [String(err)] with
    [ok: false], and when that conversion throws nothing is posted and
    the promise of [handleInvocation] is rejected; while [start] does not
    settle nothing is posted; and when [start] is any other value the
    [TypeError] of the failed call is posted with [ok: false]. The reply
    comes after the calls that [start] makes on the API object.
    [invoke:service:stop] does the same with [stop]. *)
Theorem registered_service_is_started_and_stopped :
  forall (trim : string -> string)
         (js_call : nat -> JsValue -> list JsValue -> Completion JsValue) (stack : nat)
         (call : nat -> list JsValue -> list WorkerEntry.ApiCall * WorkerEntry.Settlement JsValue)
         (init : WorkerInitMessage)
         (id : option string) (start stop : JsValue) (w : WorkerEntry.WorkerState),
    let api := WorkerEntry.createBridgeApi trim js_call stack init in
    let registered := WorkerEntry.registerService api id start stop w in
    let w' := snd registered in
    let answer (callee : string) (member : JsValue) (reqId : string) :=
      match member with
      | VUndefined | VNull =>
          (WorkerEntry.Fulfils tt,
           WorkerEntry.with_posted (InvokeResult reqId true None None) w')
      | VFun f _ =>
          let ran := WorkerEntry.plugin_calls api (fst (call f [])) w' in
          match snd (call f []) with
          | WorkerEntry.Fulfils _ =>
              (WorkerEntry.Fulfils tt,
               WorkerEntry.with_posted (InvokeResult reqId true None None) ran)
          | WorkerEntry.Rejects err =>
              match String_ js_call err with
              | Normal text =>
                  (WorkerEntry.Fulfils tt,
                   WorkerEntry.with_posted
                     (InvokeResult reqId false None (Some text)) ran)
              | Throw e => (WorkerEntry.Rejects e, ran)
              end
          | WorkerEntry.Hangs => (WorkerEntry.Hangs, ran)
          end
      | _ =>
          (WorkerEntry.Fulfils tt,
           WorkerEntry.with_posted
             (InvokeResult reqId false None
                (Some ("TypeError: " +:+ callee +:+ " is not a function"))) w')
      end in
    match trim <$> id with
    | None => registered = (Normal tt, w)
    | Some sid =>
        if String.eqb sid "" then registered = (Normal tt, w)
        else
          fst registered = Normal tt /\
          WorkerEntry.posted w' = (WorkerEntry.posted w ++ [RegisterService sid])%list /\
          map_get sid (WorkerEntry.serviceHandlers w')
            = Some {| WorkerEntry.start := start; WorkerEntry.stop := stop |} /\
          WorkerEntry.toolHandlers w' = WorkerEntry.toolHandlers w /\
          WorkerEntry.hookHandlers w' = WorkerEntry.hookHandlers w /\
          WorkerEntry.commandHandlers w' = WorkerEntry.commandHandlers w /\
          forall (reqId : string),
            WorkerEntry.handleInvocation js_call call api (InvokeServiceStart reqId sid) w'
            = answer "svc?.start" start reqId /\
            WorkerEntry.handleInvocation js_call call api (InvokeServiceStop reqId sid) w'
            = answer "svc?.stop" stop reqId
    end.
Proof.
  intros trim js_call stack call init id start stop w. cbn zeta.
  rewrite registerService_unfold.
  destruct id as [raw|]; cbn [fmap option_fmap option_map]; [|reflexivity].
  destruct (String.eqb (trim raw) "") eqn:Hempty; [reflexivity|].
  unfold WorkerEntry.with_posted.
  cbn [fst snd WorkerEntry.posted WorkerEntry.serviceHandlers
       WorkerEntry.toolHandlers WorkerEntry.hookHandlers WorkerEntry.commandHandlers].
  repeat (split; [reflexivity|]).
  split; [apply map_get_set_eq|].
  repeat (split; [reflexivity|]).
  intros reqId.
  split; unfold WorkerEntry.handleInvocation;
    cbn [WorkerEntry.serviceHandlers]; rewrite map_get_set_eq;
    cbn [WorkerEntry.start WorkerEntry.stop]; rewrite report_unfold.
  - destruct start as [| |b|n|z|s|d|f src|n m|items|props];
      reflexivity.
  - destruct stop as [| |b|n|z|s|d|f src|n m|items|props];
      reflexivity.
Qed.

(** X9. [registerCommand] keeps a command under its trimmed name. When
    the name is missing, or empty once trimmed, the call changes nothing
    and posts nothing. Otherwise it stores the handler under the trimmed
    name, replacing what was there, whatever the handler is, and posts
    one [register:command]. An [invoke:command] for the name then awaits
    the handler on the arguments and the context when it is a function,
    and after the calls that the handler makes on the API object posts
    the value it returns with [ok: true], the clone error with
    [ok: false] when the value cannot be cloned, or what the handler
    throws as [String(err)] with [ok: false]; when that conversion throws
    nothing is posted and the promise of [handleInvocation] is rejected.
    The invocation is answered "command not found: <name>" when the
    handler is [undefined] or another falsy value, although the command
    was announced; and is answered with the [TypeError] of the failed
    call when the handler is any other value. *)
Theorem registered_command_runs_its_handler :
  forall (trim : string -> string)
         (js_call : nat -> JsValue -> list JsValue -> Completion JsValue) (stack : nat)
         (call : nat -> list JsValue -> list WorkerEntry.ApiCall * WorkerEntry.Settlement JsValue)
         (init : WorkerInitMessage)
         (cname cdescription usage : option string) (handler : JsValue)
         (w : WorkerEntry.WorkerState),
    let api := WorkerEntry.createBridgeApi trim js_call stack init in
    let registered := WorkerEntry.registerCommand api cname cdescription usage handler w in
    let w' := snd registered in
    match trim <$> cname with
    | None => registered = (Normal tt, w)
    | Some n =>
        if String.eqb n "" then registered = (Normal tt, w)
        else
          fst registered = Normal tt /\
          WorkerEntry.posted w'
            = (WorkerEntry.posted w ++ [RegisterCommand n cdescription usage])%list /\
          map_get n (WorkerEntry.commandHandlers w') = Some handler /\
          WorkerEntry.toolHandlers w' = WorkerEntry.toolHandlers w /\
          WorkerEntry.hookHandlers w' = WorkerEntry.hookHandlers w /\
          WorkerEntry.serviceHandlers w' = WorkerEntry.serviceHandlers w /\
          forall (reqId : string) (args : list string) (context : JsValue),
            WorkerEntry.handleInvocation js_call call api
              (InvokeCommand reqId n args context) w'
            = match handler with
              | VFun f _ =>
                  let given := [VArr (map VStr args); context] in
                  let ran := WorkerEntry.plugin_calls api (fst (call f given)) w' in
                  match snd (call f given) with
                  | WorkerEntry.Fulfils value =>
                      (WorkerEntry.Fulfils tt,
                       WorkerEntry.with_posted
                         (if cloneable value
                          then InvokeResult reqId true (Some value) None
                          else InvokeResult reqId false None
                                 (Some (error_to_string "DataCloneError"
                                          (DataCloneError_message value)))) ran)
                  | WorkerEntry.Rejects err =>
                      match String_ js_call err with
                      | Normal text =>
                          (WorkerEntry.Fulfils tt,
                           WorkerEntry.with_posted
                             (InvokeResult reqId false None (Some text)) ran)
                      | Throw e => (WorkerEntry.Rejects e, ran)
                      end
                  | WorkerEntry.Hangs => (WorkerEntry.Hangs, ran)
                  end
              | _ =>
                  (WorkerEntry.Fulfils tt,
                   WorkerEntry.with_posted
                     (InvokeResult reqId false None
                        (Some (if truthy handler
                               then "TypeError: handler is not a function"
                               else "command not found: " +:+ n))) w')
              end
    end.
Proof.
  intros trim js_call stack call init cname cdescription usage handler w. cbn zeta.
  rewrite registerCommand_unfold.
  destruct cname as [raw|]; cbn [fmap option_fmap option_map]; [|reflexivity].
  destruct (String.eqb (trim raw) "") eqn:Hempty; [reflexivity|].
  unfold WorkerEntry.with_posted.
  cbn [fst snd WorkerEntry.posted WorkerEntry.serviceHandlers
       WorkerEntry.toolHandlers WorkerEntry.hookHandlers WorkerEntry.commandHandlers].
  repeat (split; [reflexivity|]).
  split; [apply map_get_set_eq|].
  repeat (split; [reflexivity|]).
  intros reqId args context.
  unfold WorkerEntry.handleInvocation, WorkerEntry.handler_of.
  cbn [WorkerEntry.commandHandlers]. rewrite map_get_set_eq.
  change (default VUndefined (Some handler)) with handler.
  destruct (truthy handler) eqn:Htruthy; cbn [negb].
  - rewrite report_unfold.
    destruct handler as [| |b|k|z|s|d|f src|k m|items|props];
      try discriminate; reflexivity.
  - destruct handler as [| |b|k|z|s|d|f src|k m|items|props];
      try discriminate; reflexivity.
Qed.

(** X10. [on] keeps one handler per hook name. A call stores the
    handler under the id "<pluginId>:<hookName>" and posts one
    [register:hook] with that id. A second call for the same hook name
    is announced as well, under the same id, but replaces the handler of
    the first: the map gets no new entry, and an [invoke:hook] for the id
    awaits the second handler only. After the calls that this handler
    makes on the API object, the value it returns is posted with
    [ok: true], or the clone error with [ok: false] when the value cannot
    be cloned; what it throws is posted as [String(err)] with
    [ok: false], and when that conversion throws nothing is posted and
    the promise of [handleInvocation] is rejected. Handlers of other hook
    names are kept, since different hook names give different ids. *)
Theorem second_handler_of_a_hook_replaces_the_first :
  forall (trim : string -> string)
         (js_call : nat -> JsValue -> list JsValue -> Completion JsValue) (stack : nat)
         (call : nat -> list JsValue -> list WorkerEntry.ApiCall * WorkerEntry.Settlement JsValue)
         (init : WorkerInitMessage) (hookName : string)
         (first second : JsValue) (priority1 priority2 : option JsNumber)
         (w : WorkerEntry.WorkerState),
    let api := WorkerEntry.createBridgeApi trim js_call stack init in
    let handlerId := pluginId init +:+ ":" +:+ hookName in
    let once := WorkerEntry.on api hookName first priority1 w in
    let twice := WorkerEntry.on api hookName second priority2 (snd once) in
    let w' := snd twice in
    fst once = Normal tt /\ fst twice = Normal tt /\
    WorkerEntry.posted w'
      = (WorkerEntry.posted w
           ++ [RegisterHook hookName handlerId priority1;
               RegisterHook hookName handlerId priority2])%list /\
    map_get handlerId (WorkerEntry.hookHandlers w') = Some second /\
    map_size (WorkerEntry.hookHandlers w') = map_size (WorkerEntry.hookHandlers (snd once)) /\
    (forall other,
        other <> hookName ->
        map_get (pluginId init +:+ ":" +:+ other) (WorkerEntry.hookHandlers w')
        = map_get (pluginId init +:+ ":" +:+ other) (WorkerEntry.hookHandlers w)) /\
    (forall (reqId : string) (event : JsValue) (f : nat) (source : string),
        second = VFun f source ->
        let ran := WorkerEntry.plugin_calls api (fst (call f [event])) w' in
        WorkerEntry.handleInvocation js_call call api
          (InvokeHook reqId hookName handlerId event) w'
        = match snd (call f [event]) with
          | WorkerEntry.Fulfils value =>
              (WorkerEntry.Fulfils tt,
               WorkerEntry.with_posted
                 (if cloneable value
                  then InvokeResult reqId true (Some value) None
                  else InvokeResult reqId false None
                         (Some (error_to_string "DataCloneError"
                                  (DataCloneError_message value)))) ran)
          | WorkerEntry.Rejects err =>
              match String_ js_call err with
              | Normal text =>
                  (WorkerEntry.Fulfils tt,
                   WorkerEntry.with_posted
                     (InvokeResult reqId false None (Some text)) ran)
              | Throw e => (WorkerEntry.Rejects e, ran)
              end
          | WorkerEntry.Hangs => (WorkerEntry.Hangs, ran)
          end).
Proof.
  intros trim js_call stack call init hookName first second priority1 priority2 w.
  cbn zeta. rewrite !on_unfold. unfold WorkerEntry.with_posted.
  cbn [fst snd WorkerEntry.posted WorkerEntry.serviceHandlers
       WorkerEntry.toolHandlers WorkerEntry.hookHandlers WorkerEntry.commandHandlers].
  set (handlerId := pluginId init +:+ ":" +:+ hookName).
  split; [reflexivity|]. split; [reflexivity|].
  split; [now rewrite <- app_assoc|].
  split; [apply map_get_set_eq|].
  split.
  { unfold map_size. rewrite <- !(length_map fst).
    change (map fst ?m) with (map_keys m).
    rewrite (map_keys_set_present (map_set handlerId first (WorkerEntry.hookHandlers w)));
      [reflexivity|]. now rewrite map_get_set_eq. }
  split.
  { intros other Hother.
    assert (Hne : pluginId init +:+ ":" +:+ other <> handlerId).
    { subst handlerId. intros Heq. apply append_injective in Heq.
      apply (append_injective ":") in Heq. contradiction. }
    now rewrite !map_get_set_ne by exact Hne. }
  intros reqId event f source ->.
  unfold WorkerEntry.handleInvocation, WorkerEntry.handler_of.
  cbn [WorkerEntry.hookHandlers]. rewrite map_get_set_eq.
  change (default VUndefined (Some (VFun f source))) with (VFun f source).
  cbn [truthy negb].
  rewrite report_unfold. cbn [WorkerEntry.await_call].
  destruct (snd (call f [event])); reflexivity.
Qed.

Lemma second_handler_of_a_hook_replaces_the_first_witness :
  let init :=
    {| pluginId := "p"; pluginSource := "/plugins/p.ts"; pluginConfig := None;
       metadata := {| meta_id := "p"; meta_name := "P"; meta_version := None;
                      meta_description := None |};
       jitiAlias := None |} in
  let api := WorkerEntry.createBridgeApi (fun s => s) no_method 0 init in
  let call := fun (f : nat) (_ : list JsValue) =>
                ([] : list WorkerEntry.ApiCall,
                 WorkerEntry.Fulfils (VNum (NumInt (Z.of_nat f)))) in
  let w1 := snd (WorkerEntry.on api "session_start" (VFun 1 "() => 1") None
                   WorkerEntry.initial_state) in
  let w2 := snd (WorkerEntry.on api "session_start" (VFun 2 "() => 2") None w1) in
  WorkerEntry.handleInvocation no_method call api
    (InvokeHook "req-1" "session_start" "p:session_start" VNull) w2
  = (WorkerEntry.Fulfils tt,
     WorkerEntry.with_posted (InvokeResult "req-1" true (Some (VNum (NumInt 2))) None) w2).
Proof.
  intros init api call w1 w2.
  destruct (second_handler_of_a_hook_replaces_the_first (fun s => s) no_method 0 call
              init "session_start" (VFun 1 "() => 1") (VFun 2 "() => 2") None None
              WorkerEntry.initial_state) as (_ & _ & _ & _ & _ & _ & Hrun).
  exact (Hrun "req-1" VNull 2%nat "() => 2" eq_refl).
Defined.

(** ** The unit: registration *)

Section RegistrationFacts.

Import WorkerEntry.

Implicit Types (w : WorkerState).

(** Code that only adds to the messages posted, and adds messages of
    one kind [Q] only. *)
Section Posts.

Variable Q : WorkerToMainMessage -> Prop.

#[local] Set Warnings "-notation-for-abbreviation".

Local Notation posts_only m :=
  (forall w, exists msgs, posted (snd (m w)) = (posted w ++ msgs)%list /\ Forall Q msgs).

Lemma posts_only_ret {A} (a : A) : posts_only (ret a).
Proof. intros w. exists []. split; [now rewrite app_nil_r|constructor]. Qed.

Lemma posts_only_throw {A} e : posts_only (@throw A e).
Proof. intros w. exists []. split; [now rewrite app_nil_r|constructor]. Qed.

Lemma posts_only_lift {A} (c : Completion A) : posts_only (lift c).
Proof. intros w. exists []. split; [now rewrite app_nil_r|constructor]. Qed.

Lemma posts_only_postMessage m : Q m -> posts_only (postMessage m).
Proof.
  intros Hm w. unfold postMessage. destruct (worker_message_cloneable m); simpl.
  - exists [m]. split; [reflexivity|now constructor].
  - exists []. split; [now rewrite app_nil_r|constructor].
Qed.

Lemma posts_only_mbind {A B} (m : M A) (k : A -> M B) :
  posts_only m -> (forall a, posts_only (k a)) -> posts_only (mbind m k).
Proof.
  intros Hm Hk w. unfold mbind. destruct (Hm w) as (msgs & Hposted & Hmsgs).
  destruct (m w) as [[a|e] w1]; simpl in *; [|now exists msgs].
  destruct (Hk a w1) as (more & Hposted1 & Hmore).
  exists (msgs ++ more)%list. split.
  - now rewrite Hposted1, Hposted, app_assoc.
  - now apply Forall_app.
Qed.

Lemma posts_only_set (m : M unit) :
  (forall w, posted (snd (m w)) = posted w) -> posts_only m.
Proof.
  intros H w. exists []. split; [now rewrite app_nil_r|constructor].
Qed.

Variable trim : string -> string.
Variable js_call : nat -> JsValue -> list JsValue -> Completion JsValue.
Variable stack : nat.
Variable init : WorkerInitMessage.

(** [Q] holds of every message that is neither a registration verdict
    nor the result of an invocation. *)
Hypothesis announcements :
  forall m,
    match m with
    | RegistrationComplete | RegistrationError _ | InvokeResult _ _ _ _ => False
    | _ => True
    end -> Q m.

(** A member of the API object posts announcements and log lines only. *)
Lemma posts_only_perform c :
  posts_only (perform (createBridgeApi trim js_call stack init) c).
Proof.
  destruct c as [tool o| |sid sstart sstop|cname cdesc cusage h|hook h prio|lvl msg args|m];
    cbn [perform].
  - unfold createBridgeApi. cbn [registerTool].
    apply posts_only_mbind; [apply posts_only_lift|]. intros d. cbn zeta.
    destruct (String.eqb (or_string o (name d)) "").
    + now apply posts_only_postMessage, announcements.
    + apply posts_only_mbind.
      * destruct (String.eqb (typeof (prop "execute" tool)) "function");
          [now apply posts_only_set|apply posts_only_ret].
      * intros _. now apply posts_only_postMessage, announcements.
  - now apply posts_only_postMessage, announcements.
  - unfold createBridgeApi. cbn [registerService].
    destruct sid as [sid|]; cbn [fmap option_fmap option_map]; [|apply (posts_only_ret tt)].
    destruct (String.eqb (trim sid) ""); [apply (posts_only_ret tt)|].
    apply posts_only_mbind; [now apply posts_only_set|].
    intros _. now apply posts_only_postMessage, announcements.
  - unfold createBridgeApi. cbn [registerCommand].
    destruct cname as [cname|]; cbn [fmap option_fmap option_map];
      [|apply (posts_only_ret tt)].
    destruct (String.eqb (trim cname) ""); [apply (posts_only_ret tt)|].
    apply posts_only_mbind; [now apply posts_only_set|].
    intros _. now apply posts_only_postMessage, announcements.
  - unfold createBridgeApi. cbn [on].
    apply posts_only_mbind; [now apply posts_only_set|].
    intros _. now apply posts_only_postMessage, announcements.
  - now apply posts_only_postMessage, announcements.
  - apply posts_only_mbind; [|intros _; apply posts_only_ret].
    destruct m as [method|]; cbn [access]; [|apply posts_only_throw].
    destruct (map_get method (stubs (createBridgeApi trim js_call stack init)))
      as [stub|] eqn:Hget; [|apply posts_only_throw].
    apply map_get_In in Hget. simpl in Hget.
    repeat (destruct Hget as [[= <- <-]|Hget];
            [apply posts_only_mbind;
             [now apply posts_only_postMessage, announcements
             |intros _; apply posts_only_throw]|]).
    destruct Hget.
Qed.

Lemma posts_only_script calls :
  posts_only (script calls (createBridgeApi trim js_call stack init)).
Proof.
  induction calls as [|c calls IH]; cbn [script]; [apply posts_only_ret|].
  apply posts_only_mbind; [apply posts_only_perform|intros _; exact IH].
Qed.


End Posts.

(** No sequence of calls on the API object posts a registration verdict. *)
Lemma posts_no_verdict_script trim js_call stack init calls :
  posts_no_verdict (script calls (createBridgeApi trim js_call stack init)).
Proof.
  intros w. apply posts_only_script. now intros [].
Qed.

End RegistrationFacts.

(** X11. The [init] message is answered with at most one verdict, which
    is the last message of the registration. When the module exports no
    registration function the unit posts [registration:error] with
    "plugin module missing register/activate export"; otherwise it runs
    the registration function on the API object and posts
    [registration:complete] if the function returned. When loading the
    plugin or the registration function throws, the unit posts
    [registration:error] with [String(err)]; what the function had
    stored and posted before it threw stays. When [String(err)] itself
    throws, no verdict is posted and the promise of the listener is
    rejected with what the conversion threw. When the registration
    function is a sequence of calls on the API object, no message before
    the last one is a verdict, the verdict is [registration:complete]
    exactly when every call returned, and the listener is rejected only
    when a call threw a value that does not convert. *)
Theorem registration_ends_with_at_most_one_verdict :
  forall (trim : string -> string)
         (js_call : nat -> JsValue -> list JsValue -> Completion JsValue) (stack : nat)
         (call : nat -> list JsValue -> list WorkerEntry.ApiCall * WorkerEntry.Settlement JsValue)
         (held : WorkerEntry.BridgeApi)
         (load_plugin : WorkerInitMessage ->
                        Completion (option (WorkerEntry.BridgeApi -> WorkerEntry.M unit)))
         (init : WorkerInitMessage) (w : WorkerEntry.WorkerState),
    let result :=
      WorkerEntry.on_message trim js_call stack call held load_plugin (Init init) w in
    let api := WorkerEntry.createBridgeApi trim js_call stack init in
    let failed (err : JsValue) (w0 : WorkerEntry.WorkerState) :=
      match String_ js_call err with
      | Normal text =>
          (WorkerEntry.Fulfils tt, WorkerEntry.with_posted (RegistrationError text) w0)
      | Throw e => (WorkerEntry.Rejects e, w0)
      end in
    result
    = match load_plugin init with
      | Throw err => failed err w
      | Normal None =>
          (WorkerEntry.Fulfils tt,
           WorkerEntry.with_posted
             (RegistrationError "plugin module missing register/activate export") w)
      | Normal (Some register) =>
          match register api w with
          | (Normal _, w1) =>
              (WorkerEntry.Fulfils tt, WorkerEntry.with_posted RegistrationComplete w1)
          | (Throw err, w1) => failed err w1
          end
      end /\
    forall (calls : list WorkerEntry.ApiCall),
      load_plugin init = Normal (Some (WorkerEntry.script calls)) ->
      exists msgs,
        Forall (fun msg => is_verdict msg = false) msgs /\
        match fst result with
        | WorkerEntry.Fulfils _ =>
            exists verdict,
              WorkerEntry.posted (snd result)
                = (WorkerEntry.posted w ++ msgs ++ [verdict])%list /\
              is_verdict verdict = true /\
              (verdict = RegistrationComplete <->
               fst (WorkerEntry.script calls api w) = Normal tt)
        | WorkerEntry.Rejects e =>
            WorkerEntry.posted (snd result) = (WorkerEntry.posted w ++ msgs)%list /\
            exists err,
              fst (WorkerEntry.script calls api w) = Throw err /\
              String_ js_call err = Throw e
        | WorkerEntry.Hangs => False
        end.
Proof.
  intros trim js_call stack call held load_plugin init w. cbn zeta.
  unfold WorkerEntry.on_message, WorkerEntry.settled, WorkerEntry.try_catch,
    WorkerEntry.mbind, WorkerEntry.lift.
  destruct (load_plugin init) as [[register|]|err] eqn:Hload.
  - destruct (register (WorkerEntry.createBridgeApi trim js_call stack init) w)
      as [[[]|err] w1] eqn:Hreg.
    + split; [reflexivity|]. intros calls [= ->].
      destruct (posts_no_verdict_script trim js_call stack init calls w)
        as (msgs & Hposted & Hmsgs).
      rewrite Hreg in Hposted |- *. cbn [fst snd] in *.
      exists msgs. split; [exact Hmsgs|].
      exists RegistrationComplete. cbn. rewrite Hposted, <- app_assoc. now repeat split.
    + split; [now destruct (String_ js_call err)|]. intros calls [= ->].
      destruct (posts_no_verdict_script trim js_call stack init calls w)
        as (msgs & Hposted & Hmsgs).
      rewrite Hreg in Hposted |- *. cbn [fst snd] in *.
      exists msgs. split; [exact Hmsgs|].
      destruct (String_ js_call err) as [text|e] eqn:Htext; cbn.
      * exists (RegistrationError text). rewrite Hposted, <- app_assoc.
        repeat split; try assumption; discriminate.
      * split; [exact Hposted|]. now exists err.
  - split; [reflexivity|]. discriminate.
  - split; [now destruct (String_ js_call err)|]. discriminate.
Qed.

Lemma registration_ends_with_at_most_one_verdict_witness :
  let init :=
    {| pluginId := "p"; pluginSource := "/plugins/p.ts"; pluginConfig := None;
       metadata := {| meta_id := "p"; meta_name := "P"; meta_version := None;
                      meta_description := None |};
       jitiAlias := None |} in
  let calls :=
    [WorkerEntry.CallRegisterService (Some "svc") VUndefined VUndefined;
     WorkerEntry.CallAccess WorkerEntry.RuntimeAccessor] in
  WorkerEntry.on_message (fun s => s) no_method 0 (fun _ _ => ([], WorkerEntry.Hangs))
    (WorkerEntry.createBridgeApi (fun s => s) no_method 0 init)
    (fun _ => Normal (Some (WorkerEntry.script calls))) (Init init)
    WorkerEntry.initial_state
  = (WorkerEntry.Fulfils tt,
     {| WorkerEntry.toolHandlers := []; WorkerEntry.hookHandlers := [];
        WorkerEntry.serviceHandlers :=
          [("svc", {| WorkerEntry.start := VUndefined; WorkerEntry.stop := VUndefined |})];
        WorkerEntry.commandHandlers := [];
        WorkerEntry.posted :=
          [RegisterService "svc";
           RegistrationError "Error: api.runtime is not available in isolated mode"] |}).
Proof.
  intros init calls.
  exact (proj1 (registration_ends_with_at_most_one_verdict (fun s => s) no_method 0
                  (fun _ _ => ([], WorkerEntry.Hangs))
                  (WorkerEntry.createBridgeApi (fun s => s) no_method 0 init)
                  (fun _ => Normal (Some (WorkerEntry.script calls))) init
                  WorkerEntry.initial_state)).
Defined.

(** X12. Which members of the API object can throw. [registerHook],
    [registerService], [registerCommand] and [on] always return;
    [registerHook] only posts a warning and stores nothing. A method of
    [logger] posts one [log] message with the level and the arguments,
    and throws the clone error, posting nothing, when an argument cannot
    be cloned. [registerTool] throws only what the serializer throws.
    The unsupported methods and [runtime] always throw. *)
Theorem api_members_that_throw :
  forall (trim : string -> string)
         (js_call : nat -> JsValue -> list JsValue -> Completion JsValue) (stack : nat)
         (init : WorkerInitMessage)
         (c : WorkerEntry.ApiCall) (w : WorkerEntry.WorkerState),
    let done :=
      WorkerEntry.perform (WorkerEntry.createBridgeApi trim js_call stack init) c w in
    match c with
    | WorkerEntry.CallRegisterHook =>
        done
        = (Normal tt,
           WorkerEntry.with_posted
             (Log LevelWarn
                "registerHook via legacy API is not supported in worker mode; use on() instead"
                None) w)
    | WorkerEntry.CallRegisterService _ _ _
    | WorkerEntry.CallRegisterCommand _ _ _ _
    | WorkerEntry.CallOn _ _ _ => fst done = Normal tt
    | WorkerEntry.CallLogger level msg args =>
        done
        = if forallb cloneable args
          then (Normal tt, WorkerEntry.with_posted (Log level msg (Some args)) w)
          else (Throw (DataCloneError (VArr args)), w)
    | WorkerEntry.CallRegisterTool tool _ =>
        match Serialization.serializeToolDescriptor js_call stack tool with
        | Normal _ => fst done = Normal tt
        | Throw err => done = (Throw err, w)
        end
    | WorkerEntry.CallAccess _ => exists err, fst done = Throw err
    end.
Proof.
  intros trim js_call stack init c w. cbn zeta.
  destruct c as [tool o| |sid sstart sstop|cname cdesc cusage h|hook h prio|lvl msg args|m];
    cbn [WorkerEntry.perform].
  - destruct (Serialization.serializeToolDescriptor js_call stack tool) as [d|err] eqn:Hser.
    + rewrite (registerTool_unfold trim js_call stack init tool o d w Hser). cbn zeta.
      destruct (String.eqb (WorkerEntry.or_string o (name d)) ""); [reflexivity|].
      destruct (String.eqb (typeof (prop "execute" tool)) "function"); reflexivity.
    + now apply registerTool_throws.
  - reflexivity.
  - rewrite registerService_unfold.
    destruct sid as [sid|]; cbn; [|reflexivity].
    destruct (String.eqb (trim sid) ""); reflexivity.
  - rewrite registerCommand_unfold.
    destruct cname as [cname|]; cbn; [|reflexivity].
    destruct (String.eqb (trim cname) ""); reflexivity.
  - reflexivity.
  - unfold WorkerEntry.createBridgeApi. cbn [WorkerEntry.logger].
    unfold WorkerEntry.sendLog, WorkerEntry.postMessage.
    cbn [worker_message_cloneable worker_message_payload].
    destruct (forallb cloneable args); reflexivity.
  - unfold WorkerEntry.mbind.
    destruct m as [method|]; cbn [WorkerEntry.access]; [|now eexists].
    destruct (map_get method
                (WorkerEntry.stubs (WorkerEntry.createBridgeApi trim js_call stack init)))
      as [stub|] eqn:Hget; [|now eexists].
    apply map_get_In in Hget. simpl in Hget.
    repeat (destruct Hget as [[= <- <-]|Hget]; [now eexists|]).
    destruct Hget.
Qed.

Section ToolMapFacts.

Import WorkerEntry.

Variable trim : string -> string.
Variable js_call : nat -> JsValue -> list JsValue -> Completion JsValue.
Variable stack : nat.
Variable call : nat -> list JsValue -> list ApiCall * Settlement JsValue.
Variable init : WorkerInitMessage.

(** One call on the API object keeps the entries of the tool map, or
    stores a function under one name. *)
Lemma perform_tools c w :
  toolHandlers (snd (perform (createBridgeApi trim js_call stack init) c w))
  = toolHandlers w \/
  exists n f source,
    toolHandlers (snd (perform (createBridgeApi trim js_call stack init) c w))
    = map_set n (VFun f source) (toolHandlers w).
Proof.
  destruct c as [tool o| |sid sstart sstop|cname cdesc cusage h|hook h prio|lvl msg args|m];
    try (left; apply (keeps_tools_perform trim js_call stack init); exact I).
  cbn [perform].
  destruct (Serialization.serializeToolDescriptor js_call stack tool) as [d|err] eqn:Hser.
  - rewrite (registerTool_unfold trim js_call stack init tool o d w Hser). cbn zeta.
    destruct (String.eqb (or_string o (name d)) ""); [now left|].
    destruct (String.eqb (typeof (prop "execute" tool)) "function") eqn:Hf; [|now left].
    right. destruct (prop "execute" tool) as [| |b|k|z|s|x|f src|k m|items|props];
      try discriminate.
    now exists (or_string o (name d)), f, src.
  - left. now rewrite (registerTool_throws trim js_call stack init tool o err w Hser).
Qed.

(** Servicing an invocation changes the tool map as the calls of the
    handler that ran do. *)
Lemma handleInvocation_tools msg w :
  exists calls,
    toolHandlers
      (snd (handleInvocation js_call call (createBridgeApi trim js_call stack init) msg w))
    = toolHandlers (plugin_calls (createBridgeApi trim js_call stack init) calls w).
Proof.
  assert (Hcall : forall callee h args,
             exists calls,
               toolHandlers
                 (snd (await_call call (createBridgeApi trim js_call stack init)
                         callee h args w))
               = toolHandlers
                   (plugin_calls (createBridgeApi trim js_call stack init) calls w)).
  { intros callee h args.
    destruct (await_call_cases call (createBridgeApi trim js_call stack init)
                callee h args w) as [(f & src & _ & ->)| ->].
    - now exists (fst (call f args)).
    - now exists []. }
  assert (Hoptional : forall callee h,
             exists calls,
               toolHandlers
                 (snd (await_optional_call call (createBridgeApi trim js_call stack init)
                         callee h w))
               = toolHandlers
                   (plugin_calls (createBridgeApi trim js_call stack init) calls w)).
  { intros callee h.
    destruct h as [| |b|k|z|s|d|f src|k m|items|props];
      try (now exists []); apply Hcall. }
  unfold handleInvocation. destruct msg.
  - now exists [].
  - destruct (negb (truthy (handler_of (toolHandlers w) toolName))).
    + exists []. now rewrite (keeps_tools_settled _ (keeps_tools_postMessage _)).
    + rewrite report_tools. apply Hcall.
  - destruct (negb (truthy (handler_of (hookHandlers w) handlerId))).
    + exists []. now rewrite (keeps_tools_settled _ (keeps_tools_postMessage _)).
    + rewrite report_tools. apply Hcall.
  - rewrite report_tools.
    destruct (map_get serviceId (serviceHandlers w)); [apply Hoptional|now exists []].
  - rewrite report_tools.
    destruct (map_get serviceId (serviceHandlers w)); [apply Hoptional|now exists []].
  - destruct (negb (truthy (handler_of (commandHandlers w) commandName))).
    + exists []. now rewrite (keeps_tools_settled _ (keeps_tools_postMessage _)).
    + rewrite report_tools. apply Hcall.
Qed.

(** What storing a function preserves, the life of the unit preserves. *)
Lemma unit_run_tools (P : JsMap JsValue -> Prop) :
  (forall m n f source, P m -> P (map_set n (VFun f source) m)) ->
  forall events w,
    P (toolHandlers w) ->
    P (toolHandlers (unit_run trim js_call stack call init events w)).
Proof.
  intros Hset.
  assert (Hperform : forall c w,
             P (toolHandlers w) ->
             P (toolHandlers
                  (snd (perform (createBridgeApi trim js_call stack init) c w)))).
  { intros c w Hw. destruct (perform_tools c w) as [->|(n & f & src & ->)];
      [exact Hw|now apply Hset]. }
  assert (Hcalls : forall calls w,
             P (toolHandlers w) ->
             P (toolHandlers
                  (plugin_calls (createBridgeApi trim js_call stack init) calls w))).
  { unfold plugin_calls. induction calls as [|c calls IH]; intros w Hw; simpl;
      [exact Hw|]. apply IH, Hperform, Hw. }
  induction events as [|e events IH]; intros w Hw; simpl; [exact Hw|].
  apply IH. destruct e as [c|msg]; unfold unit_step.
  - now apply Hperform.
  - destruct (handleInvocation_tools msg w) as [calls ->]. now apply Hcalls.
Qed.

Lemma unit_run_app events more w :
  unit_run trim js_call stack call init (events ++ more) w
  = unit_run trim js_call stack call init more
      (unit_run trim js_call stack call init events w).
Proof. unfold unit_run. apply fold_left_app. Qed.

End ToolMapFacts.

(** X13. The map of tool executors holds functions only, and never
    loses a name. In every state that the unit reaches from its initial
    state, by calls of plugin code on the API object and by invocation
    messages, whose handlers may call the API object as well, each entry
    of [toolHandlers] is a function; and a name that has an executor
    keeps one in every later state. So an [invoke:tool] for a stored
    name is never answered "tool not found", and calling the stored
    executor never fails for want of a function. *)
Theorem tool_handlers_are_functions :
  forall (trim : string -> string)
         (js_call : nat -> JsValue -> list JsValue -> Completion JsValue) (stack : nat)
         (call : nat -> list JsValue -> list WorkerEntry.ApiCall * WorkerEntry.Settlement JsValue)
         (init : WorkerInitMessage)
         (events later : list WorkerEntry.UnitEvent) (n : string) (h : JsValue),
    let api := WorkerEntry.createBridgeApi trim js_call stack init in
    let w := WorkerEntry.unit_run trim js_call stack call init events
               WorkerEntry.initial_state in
    map_get n (WorkerEntry.toolHandlers w) = Some h ->
    (exists f source, h = VFun f source) /\
    (exists f source,
        let w' := WorkerEntry.unit_run trim js_call stack call init later w in
        map_get n (WorkerEntry.toolHandlers w') = Some (VFun f source) /\
        forall reqId args,
          WorkerEntry.handleInvocation js_call call api (InvokeTool reqId n args) w'
          = WorkerEntry.report js_call reqId true
              (fun w0 => (snd (call f [args]),
                          WorkerEntry.plugin_calls api (fst (call f [args])) w0)) w').
Proof.
  intros trim js_call stack call init events later n h. cbn zeta.
  assert (Hinv : forall evs w0,
            (forall k x, map_get k (WorkerEntry.toolHandlers w0) = Some x ->
                         exists f source, x = VFun f source) ->
            forall k x,
              map_get k (WorkerEntry.toolHandlers
                           (WorkerEntry.unit_run trim js_call stack call init evs w0))
              = Some x ->
              exists f source, x = VFun f source).
  { intros evs w0.
    apply (unit_run_tools trim js_call stack call init
             (fun m => forall k x, map_get k m = Some x -> exists f source, x = VFun f source)).
    intros m k f src Hm k' x'.
    destruct (decide (k' = k)) as [->|Hne].
    - rewrite map_get_set_eq. intros [= <-]. now exists f, src.
    - rewrite map_get_set_ne by exact Hne. apply Hm. }
  assert (Hkeep : forall evs w0,
            map_get n (WorkerEntry.toolHandlers w0) <> None ->
            map_get n (WorkerEntry.toolHandlers
                         (WorkerEntry.unit_run trim js_call stack call init evs w0))
            <> None).
  { intros evs w0.
    apply (unit_run_tools trim js_call stack call init (fun m => map_get n m <> None)).
    intros m k f src Hm.
    destruct (decide (n = k)) as [->|Hne].
    - now rewrite map_get_set_eq.
    - now rewrite map_get_set_ne by exact Hne. }
  intros Hget.
  assert (Hinit : forall k x,
            map_get k (WorkerEntry.toolHandlers WorkerEntry.initial_state) = Some x ->
            exists f source, x = VFun f source) by discriminate.
  split; [exact (Hinv events _ Hinit n h Hget)|].
  set (w' := WorkerEntry.unit_run trim js_call stack call init later
               (WorkerEntry.unit_run trim js_call stack call init events
                  WorkerEntry.initial_state)).
  assert (Hlater : exists x, map_get n (WorkerEntry.toolHandlers w') = Some x).
  { destruct (map_get n (WorkerEntry.toolHandlers w')) as [x|] eqn:Hx; [now exists x|].
    exfalso. apply (Hkeep later _ (ltac:(now rewrite Hget)) Hx). }
  destruct Hlater as [x Hx]. pose proof Hx as Hfun.
  unfold w' in Hfun. rewrite <- unit_run_app in Hfun.
  destruct (Hinv (events ++ later)%list _ Hinit n x Hfun) as (f & src & ->).
  exists f, src. split; [exact Hx|].
  intros reqId args. unfold WorkerEntry.handleInvocation, WorkerEntry.handler_of.
  now rewrite Hx.
Qed.

Lemma tool_handlers_are_functions_witness :
  let init :=
    {| pluginId := "p"; pluginSource := "/plugins/p.ts"; pluginConfig := None;
       metadata := {| meta_id := "p"; meta_name := "P"; meta_version := None;
                      meta_description := None |};
       jitiAlias := None |} in
  let register :=
    WorkerEntry.PluginCalls
      (WorkerEntry.CallRegisterTool [("name", VStr "sum"); ("execute", VFun 1 "(a) => a")]
         None) in
  let w := WorkerEntry.unit_run (fun s => s) no_method 0
             (fun _ _ => ([], WorkerEntry.Hangs)) init [register]
             WorkerEntry.initial_state in
  map_get "sum" (WorkerEntry.toolHandlers w) = Some (VFun 1 "(a) => a") /\
  exists f source, VFun 1 "(a) => a" = VFun f source.
Proof.
  intros init register w. split; [reflexivity|].
  exact (proj1 (tool_handlers_are_functions (fun s => s) no_method 0
                  (fun _ _ => ([], WorkerEntry.Hangs)) init
                  [register] [] "sum" (VFun 1 "(a) => a") eq_refl)).
Defined.

(** ** The supervisor: promises *)

(** [started] is the state that [createWorkerHost] returns. *)
Example started_is_created :
  MainHost.createWorkerHost (Fixtures.params "p" "/plugins/p.ts") = Normal Fixtures.started.
Proof. reflexivity. Qed.

Section SettledFacts.

Import MainHost.

Implicit Types (st : HostState) (p : nat) (x : PromiseState).

Ltac break_match :=
  match goal with
  | |- context [match ?x with _ => _ end] => destruct x eqn:?
  end.

Lemma ready_on_message m st : ready (on_message m st) = ready st.
Proof. unfold on_message. repeat break_match; reflexivity. Qed.

Lemma ready_on_error err st : ready (on_error err st) = ready st.
Proof.
  destruct (on_error_cases err st) as [(text & reason & _ & ->)|(e & _ & ->)];
    reflexivity.
Qed.

Lemma ready_on_exit code st : ready (on_exit code st) = ready st.
Proof. unfold on_exit. repeat break_match; reflexivity. Qed.

Lemma ready_on_timer t st : ready (on_timer t st) = ready st.
Proof. unfold on_timer. repeat break_match; reflexivity. Qed.

Lemma ready_terminate st : ready (terminate st) = ready st.
Proof. unfold terminate. repeat break_match; reflexivity. Qed.

Lemma ready_continue task uuid st : ready (snd (continue task uuid st)) = ready st.
Proof. unfold continue. repeat break_match; reflexivity. Qed.

Lemma ready_resume i uuid st : ready (resume i uuid st) = ready st.
Proof.
  unfold resume. destruct (tasks st !! i) as [task|]; [|reflexivity].
  pose proof (ready_continue task uuid st) as H.
  destruct (continue task uuid st) as [task1 st1]. exact H.
Qed.

Lemma ready_step e st : ready (step e st) = ready st.
Proof.
  destruct e; cbn [step].
  - apply ready_on_message.
  - apply ready_on_error.
  - apply ready_on_exit.
  - apply ready_on_timer.
  - reflexivity.
  - unfold invoke. now destruct (terminated st).
  - apply ready_terminate.
  - apply ready_resume.
Qed.

Lemma ready_run events st : ready (run events st) = ready st.
Proof.
  revert st. induction events as [|e events IH]; intros st; simpl; [reflexivity|].
  now rewrite IH, ready_step.
Qed.

Lemma settled_app p x (ps more : list PromiseState) :
  ps !! p = Some x -> (ps ++ more)%list !! p = Some x.
Proof. intros H. rewrite lookup_app_l; [exact H|]. now apply lookup_lt_Some in H. Qed.

Lemma settled_resolve reqId value r l p x :
  promises l !! p = Some x -> x <> Pending ->
  promises (snd (Rpc.resolve reqId value r l)) !! p = Some x.
Proof.
  intros Hp Hx. unfold Rpc.resolve. destruct (map_get reqId (Rpc.pending r)); [|exact Hp].
  simpl. now apply settle_settled.
Qed.

Lemma settled_reject reqId error r l p x :
  promises l !! p = Some x -> x <> Pending ->
  promises (snd (Rpc.reject reqId error r l)) !! p = Some x.
Proof.
  intros Hp Hx. unfold Rpc.reject. destruct (map_get reqId (Rpc.pending r)); [|exact Hp].
  simpl. now apply settle_settled.
Qed.

Lemma settled_on_message m st p x :
  promises (loop st) !! p = Some x -> x <> Pending ->
  promises (loop (on_message m st)) !! p = Some x.
Proof.
  intros Hp Hx. destruct m; cbn [on_message].
  - now destruct (onRegisterTool (params st)).
  - now destruct (onRegisterHook (params st)).
  - now destruct (onRegisterService (params st)).
  - now destruct (onRegisterCommand (params st)).
  - simpl. now apply settle_settled.
  - simpl. now apply settle_settled.
  - exact Hp.
  - destruct ok.
    + pose proof (settled_resolve reqId (default VUndefined value) (rpc st) (loop st) p x
                    Hp Hx) as H.
      destruct (Rpc.resolve reqId (default VUndefined value) (rpc st) (loop st))
        as [[b r] l]. exact H.
    + pose proof (settled_reject reqId (Error (default "unknown worker error" err))
                    (rpc st) (loop st) p x Hp Hx) as H.
      destruct (Rpc.reject reqId (Error (default "unknown worker error" err))
                  (rpc st) (loop st)) as [[b r] l]. exact H.
  - exact Hp.
Qed.

Lemma settled_on_error err st p x :
  promises (loop st) !! p = Some x -> x <> Pending ->
  promises (loop (on_error err st)) !! p = Some x.
Proof.
  intros Hp Hx.
  destruct (on_error_cases err st) as [(text & reason & _ & ->)|(e & _ & ->)].
  - unfold rpc_rejectAll, readyReject, clear_registrationTimer. simpl.
    apply reject_each_settled; [|exact Hx]. now apply settle_settled.
  - exact Hp.
Qed.

Lemma settled_on_exit code st p x :
  promises (loop st) !! p = Some x -> x <> Pending ->
  promises (loop (on_exit code st)) !! p = Some x.
Proof.
  intros Hp Hx. unfold on_exit. destruct (negb (code =? 0)); simpl.
  - apply exit_once_settled; [|exact Hx].
    apply reject_each_settled; [|exact Hx]. now apply settle_settled.
  - now apply exit_once_settled.
Qed.

Lemma settled_on_timer t st p x :
  promises (loop st) !! p = Some x -> x <> Pending ->
  promises (loop (on_timer t st)) !! p = Some x.
Proof.
  intros Hp Hx. unfold on_timer. destruct (due_timer t (loop st)) as [tm|]; [|exact Hp].
  destruct (callback tm); simpl; now apply settle_settled.
Qed.

Lemma settled_terminate st p x :
  promises (loop st) !! p = Some x -> x <> Pending ->
  promises (loop (terminate st)) !! p = Some x.
Proof.
  intros Hp Hx. unfold terminate. destruct (terminated st); [exact Hp|].
  unfold rpc_rejectAll. simpl. apply settled_app. now apply reject_each_settled.
Qed.

Lemma settled_resume i uuid st p x :
  promises (loop st) !! p = Some x -> x <> Pending ->
  promises (loop (resume i uuid st)) !! p = Some x.
Proof.
  intros Hp Hx. unfold resume. destruct (tasks st !! i) as [task|]; [|exact Hp].
  unfold continue. destruct task as [c|q wv|ep|ep|r].
  - destruct (promise_state (ready st) (loop st)); try exact Hp.
    unfold Rpc.createRequest. simpl.
    destruct (main_message_cloneable (message_of uuid c)); simpl; now apply settled_app.
  - destruct (promise_state q (loop st)); exact Hp.
  - destruct (exited st); exact Hp.
  - destruct (promise_state ep (loop st)); exact Hp.
  - exact Hp.
Qed.

Lemma settled_step e st p x :
  promises (loop st) !! p = Some x -> x <> Pending ->
  promises (loop (step e st)) !! p = Some x.
Proof.
  intros Hp Hx. destruct e; cbn [step].
  - now apply settled_on_message.
  - now apply settled_on_error.
  - now apply settled_on_exit.
  - now apply settled_on_timer.
  - exact Hp.
  - unfold invoke. now destruct (terminated st).
  - now apply settled_terminate.
  - now apply settled_resume.
Qed.

Lemma settled_host_run events st p x :
  promises (loop st) !! p = Some x -> x <> Pending ->
  promises (loop (run events st)) !! p = Some x.
Proof.
  revert st. induction events as [|e events IH]; intros st Hp Hx; simpl; [exact Hp|].
  apply IH; [|exact Hx]. now apply settled_step.
Qed.

End SettledFacts.

(** X14. A promise of the supervisor is settled once. Whatever the
    supervisor goes through afterwards (messages, an [error] or [exit]
    event, timers, calls, [terminate]), a promise that is fulfilled or
    rejected keeps its state. In particular the first registration
    verdict, failure or timeout decides [ready] for good, and a reply
    that arrives after the timeout of its request, or after [terminate],
    changes nothing for the caller. *)
Theorem settled_promise_keeps_its_state :
  forall (st : MainHost.HostState) (events : list MainHost.Event)
         (p : nat) (x : PromiseState),
    promises (MainHost.loop st) !! p = Some x ->
    x <> Pending ->
    promises (MainHost.loop (MainHost.run events st)) !! p = Some x /\
    MainHost.ready (MainHost.run events st) = MainHost.ready st /\
    (p = MainHost.ready st ->
     promise_state (MainHost.ready (MainHost.run events st))
       (MainHost.loop (MainHost.run events st)) = x).
Proof.
  intros st events p x Hp Hx.
  pose proof (settled_host_run events st p x Hp Hx) as Hrun.
  split; [exact Hrun|]. split; [apply ready_run|].
  intros ->. rewrite ready_run. unfold promise_state. now rewrite Hrun.
Qed.

Lemma settled_promise_keeps_its_state_witness :
  let failed := MainHost.on_message (RegistrationError "boom") Fixtures.started in
  promise_state 0
    (MainHost.loop
       (MainHost.run [MainHost.Message RegistrationComplete; MainHost.TimePasses 10000;
                      MainHost.TimerFires 0; MainHost.WorkerExit 1] failed))
  = Rejected (Error "plugin p registration failed: boom").
Proof.
  intros failed.
  assert (Hsettled : Rejected (Error "plugin p registration failed: boom") <> Pending)
    by discriminate.
  pose proof (proj2 (proj2 (settled_promise_keeps_its_state failed
                              [MainHost.Message RegistrationComplete;
                               MainHost.TimePasses 10000;
                               MainHost.TimerFires 0; MainHost.WorkerExit 1]
                              0%nat (Rejected (Error "plugin p registration failed: boom"))
                              eq_refl Hsettled)) eq_refl) as H.
  conclude_by_evaluation H.
Defined.

(** ** The supervisor: calls *)

Section CallFacts.

Import MainHost.

Implicit Types (st : HostState) (c : Invocation).

Lemma timer_delay_timeout_of c : timer_delay (timeout_of c) = timeout_of c.
Proof. now destruct c. Qed.

(** A call on a supervisor that is not terminated, continued once
    [ready] is fulfilled: the request is created and the message sent. *)
Lemma invoke_resume_sends c uuid st v :
  terminated st = false ->
  promise_state (ready st) (loop st) = Fulfilled v ->
  main_message_cloneable (message_of uuid c) = true ->
  run [Invoke c; Resume (length (tasks st)) uuid] st
  = let created := Rpc.createRequest uuid (timeout_of c) (rpc st) (loop st) in
    {| params := params st; loop := snd created; rpc := snd (fst created);
       terminated := terminated st; ready := ready st;
       registrationTimer := registrationTimer st;
       sent := sent st ++ [message_of uuid c]; calls := calls st;
       exit_once := exit_once st; terminate_requested := terminate_requested st;
       exited := exited st;
       tasks := tasks st ++ [AwaitRequest (length (promises (loop st))) (returns_value c)] |}.
Proof.
  intros Hterm Hready Hclone. cbn [run fold_left step]. unfold invoke. rewrite Hterm.
  unfold resume. cbn [tasks set_tasks].
  rewrite lookup_app_r by lia. rewrite Nat.sub_diag. cbn [lookup list_lookup].
  unfold continue. cbn [ready loop set_tasks rpc]. rewrite Hready.
  unfold Rpc.createRequest, newPromise, setTimeout. cbn [fst snd].
  rewrite Hclone. cbn [set_sent set_loop set_rpc set_tasks params loop rpc terminated ready
                       registrationTimer sent calls exit_once terminate_requested exited
                       tasks].
  rewrite insert_app_r_alt by lia. rewrite Nat.sub_diag.
  unfold set_tasks, set_sent, set_loop, set_rpc. cbn. now rewrite Hterm.
Qed.

End CallFacts.

Section ReplyFacts.

Import MainHost.

Implicit Types (st : HostState).

(** A suspended call whose request is pending, when the reply arrives. *)
Lemma reply_settles_call st i q wv reqId t (ok : bool) value err u :
  tasks st !! i = Some (AwaitRequest q wv) ->
  map_get reqId (Rpc.pending (rpc st)) = Some {| Rpc.promise := q; Rpc.timer := t |} ->
  promises (loop st) !! q = Some Pending ->
  tasks (run [Message (InvokeResult reqId ok value err); Resume i u] st) !! i
  = Some (Done (if ok
                then Fulfilled (if wv then default VUndefined value else VUndefined)
                else Rejected (Error (default "unknown worker error" err)))).
Proof.
  intros Htask Hentry Hq. cbn [run fold_left step].
  set (answer := if ok then Fulfilled (default VUndefined value)
                 else Rejected (Error (default "unknown worker error" err))).
  assert (Hreply : promises (loop (on_message (InvokeResult reqId ok value err) st)) !! q
                   = Some answer /\
                   tasks (on_message (InvokeResult reqId ok value err) st) = tasks st).
  { unfold on_message, Rpc.resolve, Rpc.reject. rewrite Hentry.
    cbn [Rpc.promise Rpc.timer]. subst answer.
    destruct ok; cbn [loop set_loop set_rpc tasks]; (split; [|reflexivity]);
      apply settle_pending; exact Hq. }
  destruct Hreply as [Hanswer Htasks].
  unfold resume. rewrite Htasks, Htask. unfold continue, promise_state. rewrite Hanswer.
  change (default Pending (Some answer)) with answer.
  apply lookup_lt_Some in Htask.
  subst answer. destruct ok; cbn [tasks set_tasks]; rewrite Htasks;
    now apply list_lookup_insert_eq.
Qed.


End ReplyFacts.

(** X15. A call of an invocation method is settled by the reply to its
    request. On a supervisor that is not terminated and whose [ready] is
    fulfilled, the call creates a request with the timeout of its method
    (60 s for a tool or a command, 5 s for a hook, 30 s for a service
    start, 5 s for a service stop) and sends one message that carries the
    request id. When [invoke:result] arrives for that id with [ok: true],
    the call is fulfilled with the value of the message for [invokeTool],
    [invokeHook] and [invokeCommand], and with [undefined] for the two
    service methods; with [ok: false] it is rejected with an [Error]
    whose message is the error text of the reply, or "unknown worker
    error" when the reply has none. *)
Theorem invocation_settles_with_the_reply :
  forall (st : MainHost.HostState) (c : MainHost.Invocation) (uuid : string)
         (ready_value : JsValue),
    MainHost.terminated st = false ->
    promise_state (MainHost.ready st) (MainHost.loop st) = Fulfilled ready_value ->
    main_message_cloneable (MainHost.message_of uuid c) = true ->
    let i := length (MainHost.tasks st) in
    let p := length (promises (MainHost.loop st)) in
    let t := length (timers (MainHost.loop st)) in
    let st1 := MainHost.run [MainHost.Invoke c; MainHost.Resume i uuid] st in
    MainHost.sent st1 = (MainHost.sent st ++ [MainHost.message_of uuid c])%list /\
    reqId_of (MainHost.message_of uuid c) = Some uuid /\
    MainHost.tasks st1 !! i = Some (MainHost.AwaitRequest p (MainHost.returns_value c)) /\
    map_get uuid (Rpc.pending (MainHost.rpc st1))
      = Some {| Rpc.promise := p; Rpc.timer := t |} /\
    timers (MainHost.loop st1) !! t
      = Some (Some {| due := now (MainHost.loop st) + MainHost.timeout_of c;
                      callback := RpcTimeout uuid p (MainHost.timeout_of c) |}) /\
    (forall value err u,
        MainHost.tasks
          (MainHost.run [MainHost.Message (InvokeResult uuid true value err);
                         MainHost.Resume i u] st1) !! i
        = Some (MainHost.Done
                  (Fulfilled (if MainHost.returns_value c
                              then default VUndefined value else VUndefined)))) /\
    (forall value err u,
        MainHost.tasks
          (MainHost.run [MainHost.Message (InvokeResult uuid false value err);
                         MainHost.Resume i u] st1) !! i
        = Some (MainHost.Done
                  (Rejected (Error (default "unknown worker error" err))))).
Proof.
  intros st c uuid ready_value Hterm Hready Hclone i p t st1.
  pose proof (invoke_resume_sends c uuid st ready_value Hterm Hready Hclone) as Hst1.
  change (MainHost.run _ st) with st1 in Hst1. cbn zeta in Hst1.
  assert (Htask : MainHost.tasks st1 !! i
                  = Some (MainHost.AwaitRequest p (MainHost.returns_value c))).
  { rewrite Hst1. cbn [MainHost.tasks]. subst i.
    rewrite lookup_app_r by lia. now rewrite Nat.sub_diag. }
  assert (Hentry : map_get uuid (Rpc.pending (MainHost.rpc st1))
                   = Some {| Rpc.promise := p; Rpc.timer := t |}).
  { rewrite Hst1. apply map_get_set_eq. }
  assert (Hp : promises (MainHost.loop st1) !! p = Some Pending).
  { rewrite Hst1. unfold Rpc.createRequest, newPromise, setTimeout.
    cbn [MainHost.loop snd promises]. subst p.
    rewrite lookup_app_r by lia. now rewrite Nat.sub_diag. }
  split; [now rewrite Hst1|]. split; [now destruct c|]. split; [exact Htask|].
  split; [exact Hentry|].
  split.
  { rewrite Hst1. unfold Rpc.createRequest, newPromise, setTimeout.
    cbn [MainHost.loop snd timers now]. subst t.
    rewrite lookup_app_r by lia. rewrite Nat.sub_diag.
    now rewrite timer_delay_timeout_of. }
  split; intros value err u.
  - exact (reply_settles_call st1 i p _ uuid t true value err u Htask Hentry Hp).
  - exact (reply_settles_call st1 i p _ uuid t false value err u Htask Hentry Hp).
Qed.

Lemma invocation_settles_with_the_reply_witness :
  MainHost.tasks
    (MainHost.run [MainHost.Invoke (MainHost.ToolCall "echo" (VObj []));
                   MainHost.Resume 0 "3f2a";
                   MainHost.Message (InvokeResult "3f2a" true (Some (VStr "done")) None);
                   MainHost.Resume 0 ""] Fixtures.registered) !! 0%nat
  = Some (MainHost.Done (Fulfilled (VStr "done"))).
Proof.
  destruct (invocation_settles_with_the_reply Fixtures.registered
              (MainHost.ToolCall "echo" (VObj [])) "3f2a" VUndefined eq_refl eq_refl eq_refl)
    as (_ & _ & _ & _ & _ & Hok & _).
  specialize (Hok (Some (VStr "done")) None "").
  conclude_by_evaluation Hok.
Defined.

Section TimeoutFacts.

Import MainHost.

Lemma on_message_unknown_id reqId ok value err st :
  map_get reqId (Rpc.pending (rpc st)) = None ->
  on_message (InvokeResult reqId ok value err) st = st.
Proof.
  intros H. unfold on_message, Rpc.resolve, Rpc.reject. rewrite H.
  destruct ok; now destruct st.
Qed.

End TimeoutFacts.

(** X16. A call that gets no reply is rejected by the timeout of its
    method. After the request was created under an id that is not in the
    table, its timer does nothing while less than the method's timeout
    has passed; once the timeout has passed, the timer removes the
    request, so that the table is as before the call, and the call is
    rejected with "RPC timeout after <ms>ms (reqId: <id>)". A reply for
    the id that arrives afterwards leaves the supervisor unchanged. *)
Theorem unanswered_invocation_times_out :
  forall (st : MainHost.HostState) (c : MainHost.Invocation) (uuid : string)
         (ready_value : JsValue) (dt : Z) (u : string),
    MainHost.terminated st = false ->
    promise_state (MainHost.ready st) (MainHost.loop st) = Fulfilled ready_value ->
    main_message_cloneable (MainHost.message_of uuid c) = true ->
    map_get uuid (Rpc.pending (MainHost.rpc st)) = None ->
    let i := length (MainHost.tasks st) in
    let t := length (timers (MainHost.loop st)) in
    let st1 := MainHost.run [MainHost.Invoke c; MainHost.Resume i uuid] st in
    let waited := MainHost.step (MainHost.TimePasses dt) st1 in
    (dt < MainHost.timeout_of c ->
     MainHost.step (MainHost.TimerFires t) waited = waited) /\
    (MainHost.timeout_of c <= dt ->
     let st2 := MainHost.run [MainHost.TimerFires t; MainHost.Resume i u] waited in
     MainHost.tasks st2 !! i
       = Some (MainHost.Done
                 (Rejected
                    (Error ("RPC timeout after " +:+ Z_to_string (MainHost.timeout_of c)
                              +:+ "ms (reqId: " +:+ uuid +:+ ")")))) /\
     Rpc.pending (MainHost.rpc st2) = Rpc.pending (MainHost.rpc st) /\
     armed t (MainHost.loop st2) = false /\
     forall ok value err,
       MainHost.on_message (InvokeResult uuid ok value err) st2 = st2).
Proof.
  intros st c uuid ready_value dt u Hterm Hready Hclone Hfresh i t st1 waited.
  pose proof (invoke_resume_sends c uuid st ready_value Hterm Hready Hclone) as Hst1.
  change (MainHost.run _ st) with st1 in Hst1. cbn zeta in Hst1.
  set (p := length (promises (MainHost.loop st))).
  assert (Hdelay : 0 < MainHost.timeout_of c) by now destruct c.
  assert (Htimer : timers (MainHost.loop waited) !! t
                   = Some (Some {| due := now (MainHost.loop st) + MainHost.timeout_of c;
                                   callback := RpcTimeout uuid p (MainHost.timeout_of c) |})).
  { subst waited. rewrite Hst1. cbn [MainHost.step MainHost.loop MainHost.set_loop].
    unfold Rpc.createRequest, newPromise, setTimeout. cbn [snd advance timers now]. subst t.
    rewrite lookup_app_r by lia. rewrite Nat.sub_diag.
    now rewrite timer_delay_timeout_of. }
  assert (Hnow : now (MainHost.loop waited) = now (MainHost.loop st) + Z.max 0 dt).
  { subst waited. now rewrite Hst1. }
  split.
  - intros Hearly. cbn [MainHost.step]. unfold MainHost.on_timer, due_timer.
    rewrite Htimer. cbn [due]. rewrite Hnow.
    destruct (now (MainHost.loop st) + MainHost.timeout_of c
              <=? now (MainHost.loop st) + Z.max 0 dt) eqn:Hdue; [lia|reflexivity].
  - intros Hlate st2.
    assert (Hfired : MainHost.step (MainHost.TimerFires t) waited
                     = MainHost.set_loop
                         (settle p (Rejected (Rpc.timeout_error (MainHost.timeout_of c) uuid))
                            (clearTimeout t (MainHost.loop waited)))
                         (MainHost.set_rpc
                            {| Rpc.pending := Rpc.pending (MainHost.rpc st) |} waited)).
    { cbn [MainHost.step]. unfold MainHost.on_timer, due_timer.
      rewrite Htimer. cbn [due callback]. rewrite Hnow.
      destruct (now (MainHost.loop st) + MainHost.timeout_of c
                <=? now (MainHost.loop st) + Z.max 0 dt) eqn:Hdue; [|lia].
      cbn [callback]. unfold Rpc.on_timeout.
      cbn [MainHost.rpc MainHost.loop MainHost.set_loop MainHost.set_rpc].
      replace (Rpc.pending (MainHost.rpc waited))
        with (map_set uuid {| Rpc.promise := p; Rpc.timer := t |}
                (Rpc.pending (MainHost.rpc st)))
        by (subst waited; now rewrite Hst1).
      now rewrite (map_delete_set_absent _ _ _ Hfresh). }
    assert (Hp : promises (MainHost.loop waited) !! p = Some Pending).
    { subst waited. rewrite Hst1. cbn [MainHost.step MainHost.loop MainHost.set_loop].
      unfold Rpc.createRequest, newPromise, setTimeout. cbn [snd advance promises]. subst p.
      rewrite lookup_app_r by lia. now rewrite Nat.sub_diag. }
    assert (Htask : MainHost.tasks waited !! i
                    = Some (MainHost.AwaitRequest p (MainHost.returns_value c))).
    { subst waited. rewrite Hst1. cbn [MainHost.step MainHost.tasks MainHost.set_loop].
      subst i. rewrite lookup_app_r by lia. now rewrite Nat.sub_diag. }
    subst st2. cbn [MainHost.run fold_left]. rewrite Hfired.
    set (fired := MainHost.set_loop _ _).
    assert (Hrejected : promises (MainHost.loop fired) !! p
                        = Some (Rejected (Rpc.timeout_error (MainHost.timeout_of c) uuid))).
    { subst fired. cbn [MainHost.loop MainHost.set_loop]. now apply settle_pending. }
    assert (Hresumed : MainHost.step (MainHost.Resume i u) fired
                       = MainHost.set_tasks
                           (<[i := MainHost.Done
                                     (Rejected (Rpc.timeout_error (MainHost.timeout_of c) uuid))]>
                              (MainHost.tasks fired)) fired).
    { cbn [MainHost.step]. unfold MainHost.resume.
      change (MainHost.tasks fired) with (MainHost.tasks waited). rewrite Htask.
      unfold MainHost.continue, promise_state. rewrite Hrejected. reflexivity. }
    rewrite Hresumed. cbn [MainHost.tasks MainHost.set_tasks MainHost.rpc MainHost.loop].
    split.
    { apply list_lookup_insert_eq. change (MainHost.tasks fired) with (MainHost.tasks waited).
      now apply lookup_lt_Some in Htask. }
    split; [reflexivity|]. split.
    { subst fired. cbn [MainHost.loop MainHost.set_loop].
      rewrite settle_armed. apply clearTimeout_armed_same. }
    intros ok value err. apply on_message_unknown_id. exact Hfresh.
Qed.

Lemma unanswered_invocation_times_out_witness :
  MainHost.tasks
    (MainHost.run [MainHost.Invoke (MainHost.HookCall "session_start" "p:session_start" VNull);
                   MainHost.Resume 0 "3f2a"; MainHost.TimePasses 5000;
                   MainHost.TimerFires 1; MainHost.Resume 0 ""] Fixtures.registered) !! 0%nat
  = Some (MainHost.Done (Rejected (Error "RPC timeout after 5000ms (reqId: 3f2a)"))).
Proof.
  destruct (unanswered_invocation_times_out Fixtures.registered
              (MainHost.HookCall "session_start" "p:session_start" VNull) "3f2a" VUndefined
              5000 "" eq_refl eq_refl eq_refl eq_refl) as [_ Hlate].
  assert (Htimeout : MainHost.timeout_of
                       (MainHost.HookCall "session_start" "p:session_start" VNull) <= 5000)
    by discriminate.
  pose proof (proj1 (Hlate Htimeout)) as H.
  conclude_by_evaluation H.
Defined.

(** X17. A call made before registration has finished waits for
    [ready] and sends nothing meanwhile. On a supervisor that is not
    terminated and whose [ready] is outstanding, the call stays suspended
    however often it is continued: no request is created and no message
    is sent. If registration then fails, the call is rejected with the
    error of [ready], "plugin <id> registration failed: <error>", still
    without a request or a message; if the registration timer fires
    first, it is rejected with "plugin <id> registration timed out after
    10000ms". *)
Theorem invocation_waits_for_registration :
  forall (st : MainHost.HostState) (c : MainHost.Invocation) (u : string),
    MainHost.terminated st = false ->
    promises (MainHost.loop st) !! MainHost.ready st = Some Pending ->
    let i := length (MainHost.tasks st) in
    let called := MainHost.invoke c st in
    MainHost.tasks called !! i = Some (MainHost.AwaitReady c) /\
    MainHost.resume i u called = called /\
    MainHost.sent called = MainHost.sent st /\
    MainHost.rpc called = MainHost.rpc st /\
    (forall error,
        let st' := MainHost.run [MainHost.Message (RegistrationError error);
                                 MainHost.Resume i u] called in
        MainHost.tasks st' !! i
          = Some (MainHost.Done
                    (Rejected
                       (Error ("plugin " +:+ MainHost.params_pluginId (MainHost.params st)
                                 +:+ " registration failed: " +:+ error)))) /\
        MainHost.sent st' = MainHost.sent st /\
        MainHost.rpc st' = MainHost.rpc st) /\
    (forall tm,
        timers (MainHost.loop st) !! MainHost.registrationTimer st = Some (Some tm) ->
        callback tm = RegistrationTimeout ->
        due tm <= now (MainHost.loop st) ->
        let st' := MainHost.run [MainHost.TimerFires (MainHost.registrationTimer st);
                                 MainHost.Resume i u] called in
        MainHost.tasks st' !! i
          = Some (MainHost.Done
                    (Rejected
                       (Error ("plugin " +:+ MainHost.params_pluginId (MainHost.params st)
                                 +:+ " registration timed out after 10000ms")))) /\
        MainHost.sent st' = MainHost.sent st /\
        MainHost.rpc st' = MainHost.rpc st).
Proof.
  intros st c u Hterm Hready i called.
  assert (Hcalled : called = MainHost.set_tasks (MainHost.tasks st ++ [MainHost.AwaitReady c]) st).
  { subst called. unfold MainHost.invoke. now rewrite Hterm. }
  assert (Htask : MainHost.tasks called !! i = Some (MainHost.AwaitReady c)).
  { rewrite Hcalled. cbn [MainHost.tasks MainHost.set_tasks]. subst i.
    rewrite lookup_app_r by lia. now rewrite Nat.sub_diag. }
  assert (Hrejected : forall st1 reason,
            MainHost.tasks st1 = MainHost.tasks called ->
            MainHost.ready st1 = MainHost.ready st ->
            promises (MainHost.loop st1) !! MainHost.ready st = Some (Rejected reason) ->
            let st' := MainHost.resume i u st1 in
            MainHost.tasks st' !! i = Some (MainHost.Done (Rejected reason)) /\
            MainHost.sent st' = MainHost.sent st1 /\ MainHost.rpc st' = MainHost.rpc st1).
  { intros st1 reason Htasks Hr Hp st'. subst st'. unfold MainHost.resume.
    rewrite Htasks, Htask. unfold MainHost.continue, promise_state. rewrite Hr, Hp.
    change (default Pending (Some (Rejected reason))) with (Rejected reason).
    cbn [MainHost.tasks MainHost.set_tasks MainHost.sent MainHost.rpc].
    split; [|now split]. rewrite Htasks. apply list_lookup_insert_eq.
    now apply lookup_lt_Some in Htask. }
  split; [exact Htask|]. split.
  { unfold MainHost.resume. rewrite Htask. unfold MainHost.continue, promise_state.
    rewrite Hcalled. cbn [MainHost.ready MainHost.loop MainHost.set_tasks]. rewrite Hready.
    change (default Pending (Some Pending)) with Pending.
    cbn [MainHost.tasks MainHost.set_tasks]. unfold MainHost.set_tasks. cbn.
    f_equal. apply list_insert_id.
    rewrite Hcalled in Htask. exact Htask. }
  split; [now rewrite Hcalled|]. split; [now rewrite Hcalled|].
  split.
  - intros error st'. subst st'. cbn [MainHost.run fold_left MainHost.step].
    destruct (Hrejected (MainHost.on_message (RegistrationError error) called)
                (Error ("plugin " +:+ MainHost.params_pluginId (MainHost.params st)
                          +:+ " registration failed: " +:+ error)))
      as (Hdone & Hsent & Hrpc).
    + reflexivity.
    + now rewrite Hcalled.
    + rewrite Hcalled. cbn. now apply settle_pending.
    + split; [exact Hdone|]. rewrite Hsent, Hrpc, Hcalled. now split.
  - intros tm Htm Hcb Hdue st'. subst st'. cbn [MainHost.run fold_left MainHost.step].
    assert (Hfired : MainHost.on_timer (MainHost.registrationTimer st) called
                     = MainHost.readyReject
                         (Error ("plugin " +:+ MainHost.params_pluginId (MainHost.params st)
                                   +:+ " registration timed out after 10000ms"))
                         (MainHost.set_loop
                            (clearTimeout (MainHost.registrationTimer st) (MainHost.loop st))
                            called)).
    { unfold MainHost.on_timer, due_timer. rewrite Hcalled.
      cbn [MainHost.loop MainHost.set_tasks]. rewrite Htm.
      destruct (due tm <=? now (MainHost.loop st)) eqn:Hd; [|lia].
      rewrite Hcb. reflexivity. }
    rewrite Hfired.
    destruct (Hrejected
                (MainHost.readyReject
                   (Error ("plugin " +:+ MainHost.params_pluginId (MainHost.params st)
                             +:+ " registration timed out after 10000ms"))
                   (MainHost.set_loop
                      (clearTimeout (MainHost.registrationTimer st) (MainHost.loop st))
                      called))
                (Error ("plugin " +:+ MainHost.params_pluginId (MainHost.params st)
                          +:+ " registration timed out after 10000ms")))
      as (Hdone & Hsent & Hrpc).
    + reflexivity.
    + now rewrite Hcalled.
    + rewrite Hcalled. cbn. now apply settle_pending.
    + split; [exact Hdone|]. rewrite Hsent, Hrpc, Hcalled. now split.
Qed.

Lemma invocation_waits_for_registration_witness :
  MainHost.tasks
    (MainHost.run [MainHost.Invoke (MainHost.ToolCall "echo" (VObj []));
                   MainHost.Message (RegistrationError "boom");
                   MainHost.Resume 0 ""] Fixtures.started) !! 0%nat
  = Some (MainHost.Done (Rejected (Error "plugin p registration failed: boom"))).
Proof.
  destruct (invocation_waits_for_registration Fixtures.started
              (MainHost.ToolCall "echo" (VObj [])) "" eq_refl eq_refl)
    as (_ & _ & _ & _ & Hfailed & _).
  pose proof (proj1 (Hfailed "boom")) as H.
  conclude_by_evaluation H.
Defined.

(** ** The supervisor: requests, timers and the end of the worker *)

Section ExitFacts.

Import MainHost.

Implicit Types (st : HostState) (l : Loop) (listeners : list (nat * nat)).

Lemma exit_once_other_promise listeners l p :
  ~ In p (map snd listeners) ->
  promises (fold_left (fun l listener => run_exit_once listener l) listeners l) !! p
  = promises l !! p.
Proof.
  revert l. induction listeners as [|[t ep] listeners IH]; intros l Hp; simpl; [reflexivity|].
  simpl in Hp. rewrite IH by tauto. rewrite settle_other by (intros ->; tauto). reflexivity.
Qed.

Lemma exit_once_other_timer listeners l u :
  ~ In u (map fst listeners) ->
  timers (fold_left (fun l listener => run_exit_once listener l) listeners l) !! u
  = timers l !! u.
Proof.
  revert l. induction listeners as [|[t ep] listeners IH]; intros l Hu; simpl; [reflexivity|].
  simpl in Hu. rewrite IH by tauto. rewrite settle_timers. unfold clearTimeout. simpl.
  apply list_lookup_insert_ne. intros ->. tauto.
Qed.

Lemma exit_once_now listeners l :
  now (fold_left (fun l listener => run_exit_once listener l) listeners l) = now l.
Proof.
  revert l. induction listeners as [|[t ep] listeners IH]; intros l; simpl; [reflexivity|].
  rewrite IH. now rewrite settle_now.
Qed.

(** The listeners of [terminate] fulfil their promises and clear their
    timers. *)
Lemma exit_once_fulfils listeners l t ep :
  In (t, ep) listeners ->
  promises l !! ep = Some Pending ->
  promises (fold_left (fun l listener => run_exit_once listener l) listeners l) !! ep
  = Some (Fulfilled VUndefined).
Proof.
  revert l. induction listeners as [|[u q] listeners IH]; intros l Hin Hp; simpl;
    [destruct Hin|].
  destruct (decide (q = ep)) as [->|Hne].
  - apply exit_once_settled; [|discriminate]. now apply settle_pending.
  - destruct Hin as [[= -> ->]|Hin]; [congruence|].
    apply IH; [exact Hin|]. now rewrite settle_other by congruence.
Qed.

Lemma exit_once_clears listeners l t ep :
  In (t, ep) listeners ->
  armed t (fold_left (fun l listener => run_exit_once listener l) listeners l) = false.
Proof.
  revert l. induction listeners as [|[u q] listeners IH]; intros l Hin; simpl;
    [destruct Hin|].
  destruct Hin as [[= -> ->]|Hin]; [|now apply IH].
  apply exit_once_armed_false. rewrite settle_armed. apply clearTimeout_armed_same.
Qed.

(** In a sound state the promise and the timer of a pending request are
    none of the supervisor's own. *)
Lemma sound_request_is_not_own st k e :
  sound st ->
  map_get k (Rpc.pending (rpc st)) = Some e ->
  promises (loop st) !! Rpc.promise e = Some Pending /\
  armed (Rpc.timer e) (loop st) = true /\
  ~ In (Rpc.promise e) (own_promises st) /\
  ~ In (Rpc.timer e) (own_timers st).
Proof.
  intros (Hc & Hps & Hts & _) Hk.
  destruct Hc as (_ & Hent & _).
  destruct (Hent k e Hk) as (Hp & tm & ms & Htm & Hcb).
  split; [exact Hp|]. split; [unfold armed; now rewrite Htm|]. split.
  - intros Hin. rewrite Forall_forall in Hps.
    apply list_elem_of_In in Hin. destruct (Hps _ Hin) as [_ Hforeign].
    now apply (Hforeign k e Hk).
  - intros Hin. rewrite Forall_forall in Hts.
    apply list_elem_of_In in Hin. destruct (Hts _ Hin) as [_ Hforeign].
    now apply (Hforeign tm Htm k (Rpc.promise e) ms).
Qed.

End ExitFacts.

(** X18. In every state that a supervisor reaches, the correlator and
    the timers agree. The ids in the table are distinct; every pending
    request has an outstanding promise and an armed timer of its own,
    which are neither [ready] nor the registration timer; and every
    armed timer that would time a request out belongs to the request it
    names, which is pending. So no request is left without a timeout,
    and no timer outlives its request. The ids of new requests are taken
    to be fresh, as [crypto.randomUUID()] provides. *)
Theorem pending_requests_and_timers_agree :
  forall (p : MainHost.WorkerHostParams) (st0 : MainHost.HostState)
         (events : list MainHost.Event),
    MainHost.createWorkerHost p = Normal st0 ->
    MainHost.fresh_uuids events st0 = true ->
    let st := MainHost.run events st0 in
    NoDup (map_keys (Rpc.pending (MainHost.rpc st))) /\
    (forall k e,
        map_get k (Rpc.pending (MainHost.rpc st)) = Some e ->
        promise_state (Rpc.promise e) (MainHost.loop st) = Pending /\
        armed (Rpc.timer e) (MainHost.loop st) = true /\
        Rpc.promise e <> MainHost.ready st /\
        Rpc.timer e <> MainHost.registrationTimer st) /\
    (forall u tm k q ms,
        timers (MainHost.loop st) !! u = Some (Some tm) ->
        callback tm = RpcTimeout k q ms ->
        map_get k (Rpc.pending (MainHost.rpc st))
        = Some {| Rpc.promise := q; Rpc.timer := u |}) /\
    (forall k k' e e',
        map_get k (Rpc.pending (MainHost.rpc st)) = Some e ->
        map_get k' (Rpc.pending (MainHost.rpc st)) = Some e' ->
        k <> k' -> Rpc.promise e <> Rpc.promise e' /\ Rpc.timer e <> Rpc.timer e').
Proof.
  intros p st0 events Hcreate Hfresh st.
  destruct (reachable_supervisor_is_sound p st0 events Hcreate Hfresh) as [Hsound Hc].
  fold st in Hsound, Hc. pose proof Hc as (Hnd & Hent & Htimers & Hinj).
  split; [exact Hnd|]. split; [|split; [exact Htimers|]].
  - intros k e Hk.
    destruct (sound_request_is_not_own st k e Hsound Hk) as (Hp & Harmed & Hnp & Hnt).
    split; [unfold promise_state; now rewrite Hp|]. split; [exact Harmed|].
    split; intros Heq; [apply Hnp|apply Hnt]; rewrite Heq; now left.
  - intros k k' e e' Hk Hk' Hne. split.
    + intros Heq. apply Hne. now apply (Hinj k k' e e').
    + intros Heq. apply Hne.
      destruct (Hent k e Hk) as (_ & tm & ms & Htm & Hcb).
      destruct (Hent k' e' Hk') as (_ & tm' & ms' & Htm' & Hcb').
      rewrite Heq in Htm. rewrite Htm in Htm'. injection Htm' as <-.
      congruence.
Qed.

Lemma pending_requests_and_timers_agree_witness :
  let events := [MainHost.Message RegistrationComplete;
                 MainHost.Invoke (MainHost.ToolCall "echo" (VObj []));
                 MainHost.Resume 0 "3f2a"] in
  armed 1 (MainHost.loop (MainHost.run events Fixtures.started)) = true.
Proof.
  intros events.
  destruct (pending_requests_and_timers_agree (Fixtures.params "p" "/plugins/p.ts")
              Fixtures.started events eq_refl eq_refl) as (_ & Hpending & _).
  pose proof (proj1 (proj2 (Hpending "3f2a" {| Rpc.promise := 1; Rpc.timer := 1 |}
                               eq_refl))) as H.
  conclude_by_evaluation H.
Defined.

(** X19. A worker that exits with code 0 fails no pending request. In
    a state that a supervisor has reached, the [exit] event with code 0
    leaves the table unchanged, and every pending request keeps its
    outstanding promise and its armed timer, so its caller goes on
    waiting until the timeout of the request. When no [terminate] is
    waiting for the exit, no promise and no timer changes at all. *)
Theorem clean_exit_rejects_nothing :
  forall (p : MainHost.WorkerHostParams) (st0 : MainHost.HostState)
         (events : list MainHost.Event),
    MainHost.createWorkerHost p = Normal st0 ->
    MainHost.fresh_uuids events st0 = true ->
    let st := MainHost.run events st0 in
    let st' := MainHost.on_exit 0 st in
    MainHost.rpc st' = MainHost.rpc st /\
    MainHost.exited st' = true /\
    (MainHost.exit_once st = [] -> MainHost.loop st' = MainHost.loop st) /\
    (forall k e,
        map_get k (Rpc.pending (MainHost.rpc st)) = Some e ->
        promise_state (Rpc.promise e) (MainHost.loop st') = Pending /\
        timers (MainHost.loop st') !! Rpc.timer e = timers (MainHost.loop st) !! Rpc.timer e /\
        armed (Rpc.timer e) (MainHost.loop st') = true).
Proof.
  intros p st0 events Hcreate Hfresh st st'.
  destruct (reachable_supervisor_is_sound p st0 events Hcreate Hfresh) as [Hsound _].
  fold st in Hsound. subst st'. unfold MainHost.on_exit. cbn.
  split; [reflexivity|]. split; [reflexivity|].
  split; [now intros ->|].
  intros k e Hk.
  destruct (sound_request_is_not_own st k e Hsound Hk) as (Hp & Harmed & Hnp & Hnt).
  assert (Hpromise : ~ In (Rpc.promise e) (map snd (MainHost.exit_once st))).
  { intros Hin. apply Hnp. now right. }
  assert (Htimer : ~ In (Rpc.timer e) (map fst (MainHost.exit_once st))).
  { intros Hin. apply Hnt. now right. }
  split; [|split].
  - unfold promise_state. now rewrite exit_once_other_promise, Hp.
  - now apply exit_once_other_timer.
  - unfold armed in *. now rewrite exit_once_other_timer.
Qed.

Lemma clean_exit_rejects_nothing_witness :
  let events := [MainHost.Message RegistrationComplete;
                 MainHost.Invoke (MainHost.ToolCall "echo" (VObj []));
                 MainHost.Resume 0 "3f2a"] in
  promise_state 1
    (MainHost.loop (MainHost.on_exit 0 (MainHost.run events Fixtures.started)))
  = Pending.
Proof.
  intros events.
  destruct (clean_exit_rejects_nothing (Fixtures.params "p" "/plugins/p.ts")
              Fixtures.started events eq_refl eq_refl) as (_ & _ & _ & Hpending).
  pose proof (proj1 (Hpending "3f2a" {| Rpc.promise := 1; Rpc.timer := 1 |} eq_refl)) as H.
  conclude_by_evaluation H.
Defined.

Section TerminateFacts.

Import MainHost.

Implicit Types (st : HostState) (l : Loop).

Lemma reject_each_now entries error l : now (Rpc.reject_each entries error l) = now l.
Proof.
  revert l. induction entries as [|[k e] entries IH]; intros l; simpl; [reflexivity|].
  rewrite IH. now rewrite settle_now.
Qed.

(** [terminate()] on a supervisor that is not terminated, spelled out. *)
Lemma terminate_unfold st :
  terminated st = false ->
  let l2 := Rpc.reject_each (Rpc.pending (rpc st)) (Error "worker terminated") (loop st) in
  let ep := length (promises (loop st)) in
  let t := length (timers (loop st)) in
  terminate st
  = {| params := params st;
       loop := {| now := now (loop st);
                  promises := promises l2 ++ [Pending];
                  timers := timers l2
                              ++ [Some {| due := now (loop st) + SHUTDOWN_TIMEOUT_MS;
                                          callback := ShutdownTimeout ep |}] |};
       rpc := {| Rpc.pending := [] |};
       terminated := true; ready := ready st;
       registrationTimer := registrationTimer st; sent := sent st; calls := calls st;
       exit_once := exit_once st ++ [(t, ep)];
       terminate_requested := true; exited := exited st;
       tasks := tasks st ++ [AwaitWorkerTerminate ep] |}.
Proof.
  intros Hterm l2 ep t. unfold terminate. rewrite Hterm.
  unfold rpc_rejectAll, Rpc.rejectAll, newPromise, setTimeout. cbn.
  destruct (reject_each_length (Rpc.pending (rpc st)) (Error "worker terminated") (loop st))
    as [Hp Ht].
  rewrite Hp, Ht, !reject_each_now. reflexivity.
Qed.

(** The two continuations of [terminate] after [await worker.terminate()]. *)
Lemma terminate_resumes st i ep u :
  tasks st !! i = Some (AwaitWorkerTerminate ep) ->
  exited st = true ->
  tasks (resume i u st) !! i = Some (AwaitExit ep) /\
  loop (resume i u st) = loop st /\
  tasks (resume i u (resume i u st)) !! i
  = Some match promise_state ep (loop st) with
         | Fulfilled _ => Done (Fulfilled VUndefined)
         | _ => AwaitExit ep
         end /\
  loop (resume i u (resume i u st)) = loop st.
Proof.
  intros Htask Hexited.
  assert (Hlt : (i < length (tasks st))%nat) by now apply lookup_lt_Some in Htask.
  assert (H1 : resume i u st = set_tasks (<[i := AwaitExit ep]> (tasks st)) st).
  { unfold resume. rewrite Htask. unfold continue. now rewrite Hexited. }
  assert (Htask1 : tasks (resume i u st) !! i = Some (AwaitExit ep)).
  { rewrite H1. cbn. now apply list_lookup_insert_eq. }
  split; [exact Htask1|]. split; [now rewrite H1|].
  unfold resume at 1 3. rewrite Htask1. unfold continue.
  replace (loop (resume i u st)) with (loop st) by now rewrite H1.
  assert (Hlt1 : (i < length (tasks (resume i u st)))%nat)
    by now apply lookup_lt_Some in Htask1.
  destruct (promise_state ep (loop st)) eqn:Hep; cbn [tasks set_tasks loop];
    (split; [now apply list_lookup_insert_eq|now rewrite H1]).
Qed.

End TerminateFacts.

(** X20. [terminate()] fails the pending requests at once and resolves
    when the worker has exited. In a state that a supervisor has reached
    and in which it is not terminated, [terminate] sets the flag, rejects
    every pending request with "worker terminated" and clears its timer,
    empties the table, sends no message to the worker, and arms a timer
    for 5 s. Its promise stays outstanding while the worker has not
    exited. When the [exit] event arrives, with whatever code, the promise
    of [terminate] is fulfilled and the 5 s timer is cleared. *)
Theorem terminate_resolves_when_the_worker_exits :
  forall (p : MainHost.WorkerHostParams) (st0 : MainHost.HostState)
         (events : list MainHost.Event) (code : Z) (u : string),
    MainHost.createWorkerHost p = Normal st0 ->
    MainHost.fresh_uuids events st0 = true ->
    let st := MainHost.run events st0 in
    MainHost.terminated st = false ->
    let i := length (MainHost.tasks st) in
    let ep := length (promises (MainHost.loop st)) in
    let t := length (timers (MainHost.loop st)) in
    let st1 := MainHost.terminate st in
    MainHost.terminated st1 = true /\
    Rpc.size (MainHost.rpc st1) = 0%nat /\
    MainHost.sent st1 = MainHost.sent st /\
    MainHost.tasks st1 !! i = Some (MainHost.AwaitWorkerTerminate ep) /\
    timers (MainHost.loop st1) !! t
      = Some (Some {| due := now (MainHost.loop st) + 5000;
                      callback := ShutdownTimeout ep |}) /\
    (forall k e,
        map_get k (Rpc.pending (MainHost.rpc st)) = Some e ->
        promise_state (Rpc.promise e) (MainHost.loop st1)
          = Rejected (Error "worker terminated") /\
        armed (Rpc.timer e) (MainHost.loop st1) = false) /\
    (MainHost.exited st = false -> MainHost.resume i u st1 = st1) /\
    (let st2 := MainHost.run [MainHost.WorkerExit code; MainHost.Resume i u;
                              MainHost.Resume i u] st1 in
     MainHost.tasks st2 !! i = Some (MainHost.Done (Fulfilled VUndefined)) /\
     armed t (MainHost.loop st2) = false).
Proof.
  intros p st0 events code u Hcreate Hfresh st Hterm i ep t st1.
  destruct (reachable_supervisor_is_sound p st0 events Hcreate Hfresh) as [Hsound Hc].
  fold st in Hsound, Hc.
  pose proof (terminate_unfold st Hterm) as Hst1. cbn zeta in Hst1.
  fold st1 ep t in Hst1.
  set (l2 := Rpc.reject_each (Rpc.pending (MainHost.rpc st)) (Error "worker terminated")
               (MainHost.loop st)) in *.
  destruct (reject_each_length (Rpc.pending (MainHost.rpc st)) (Error "worker terminated")
              (MainHost.loop st)) as [Hlp Hlt].
  fold l2 in Hlp, Hlt.
  assert (Htask : MainHost.tasks st1 !! i = Some (MainHost.AwaitWorkerTerminate ep)).
  { rewrite Hst1. cbn [MainHost.tasks]. subst i.
    rewrite lookup_app_r by lia. now rewrite Nat.sub_diag. }
  split; [now rewrite Hst1|]. split; [now rewrite Hst1|]. split; [now rewrite Hst1|].
  split; [exact Htask|].
  split.
  { rewrite Hst1. cbn [MainHost.loop timers]. subst t. rewrite <- Hlt.
    rewrite lookup_app_r by lia. now rewrite Nat.sub_diag. }
  split.
  { intros k e Hk. pose proof Hc as (Hnd & Hent & _).
    destruct (Hent k e Hk) as (Hp & _).
    assert (Hin : In (k, e) (Rpc.pending (MainHost.rpc st))) by now apply map_get_In.
    rewrite Hst1. cbn [MainHost.loop]. split.
    - unfold promise_state. cbn [promises].
      erewrite settled_app; [reflexivity|].
      now apply (reject_each_rejects _ _ _ k).
    - pose proof (reject_each_clears _ (Error "worker terminated") (MainHost.loop st) k e Hin)
        as Hclear.
      fold l2 in Hclear. unfold armed in *. cbn [timers].
      destruct (timers l2 !! Rpc.timer e) as [slot|] eqn:Hslot.
      + rewrite lookup_app_l by (now apply lookup_lt_Some in Hslot). now rewrite Hslot.
      + apply lookup_ge_None in Hslot.
        pose proof (proj1 (proj2 (sound_request_is_not_own st k e Hsound Hk))) as Harmed.
        apply armed_lt in Harmed. lia. }
  split.
  { intros Hexited. unfold MainHost.resume. rewrite Htask. unfold MainHost.continue.
    replace (MainHost.exited st1) with false by now rewrite Hst1.
    rewrite (list_insert_id _ _ _ Htask). now destruct st1. }
  cbn zeta. cbn [MainHost.run fold_left MainHost.step].
  set (exited := MainHost.on_exit code st1).
  assert (Hready : (MainHost.ready st < length (promises (MainHost.loop st)))%nat).
  { destruct Hsound as (_ & Hps & _). apply Forall_cons in Hps as [[Hlt' _] _]. exact Hlt'. }
  assert (Hfacts : MainHost.tasks exited = MainHost.tasks st1 /\
                   MainHost.exited exited = true /\
                   promises (MainHost.loop exited) !! ep = Some (Fulfilled VUndefined) /\
                   armed t (MainHost.loop exited) = false).
  { subst exited. unfold MainHost.on_exit.
    assert (Hin : In (t, ep) (MainHost.exit_once st ++ [(t, ep)])).
    { apply in_or_app. right. now left. }
    destruct (negb (code =? 0)); rewrite Hst1;
      unfold MainHost.rpc_rejectAll, MainHost.readyReject, Rpc.rejectAll;
      cbn [MainHost.tasks MainHost.exited MainHost.loop MainHost.rpc MainHost.exit_once
           MainHost.set_exited MainHost.set_exit_once MainHost.set_loop MainHost.set_rpc
           MainHost.ready Rpc.pending Rpc.reject_each fst snd];
      (split; [reflexivity|]); (split; [reflexivity|]); split.
    - apply (exit_once_fulfils _ _ t ep Hin).
      rewrite settle_other by (subst ep; lia). cbn [promises].
      subst ep. rewrite <- Hlp. rewrite lookup_app_r by lia. now rewrite Nat.sub_diag.
    - now apply (exit_once_clears _ _ t ep).
    - apply (exit_once_fulfils _ _ t ep Hin). cbn [promises].
      subst ep. rewrite <- Hlp. rewrite lookup_app_r by lia. now rewrite Nat.sub_diag.
    - now apply (exit_once_clears _ _ t ep). }
  destruct Hfacts as (Htasks & Hexited & Hep & Harmed).
  assert (Htask' : MainHost.tasks exited !! i = Some (MainHost.AwaitWorkerTerminate ep))
    by now rewrite Htasks.
  destruct (terminate_resumes exited i ep u Htask' Hexited) as (_ & _ & Hdone & Hloop).
  split.
  - rewrite Hdone. unfold promise_state. now rewrite Hep.
  - now rewrite Hloop.
Qed.

Lemma terminate_resolves_when_the_worker_exits_witness :
  let events := [MainHost.Message RegistrationComplete;
                 MainHost.Invoke (MainHost.ToolCall "echo" (VObj []));
                 MainHost.Resume 0 "3f2a"] in
  let st := MainHost.run events Fixtures.started in
  MainHost.tasks
    (MainHost.run [MainHost.WorkerExit 1; MainHost.Resume 1 ""; MainHost.Resume 1 ""]
       (MainHost.terminate st)) !! 1%nat
  = Some (MainHost.Done (Fulfilled VUndefined)).
Proof.
  intros events st.
  destruct (terminate_resolves_when_the_worker_exits (Fixtures.params "p" "/plugins/p.ts")
              Fixtures.started events 1 "" eq_refl eq_refl eq_refl)
    as (_ & _ & _ & _ & _ & _ & _ & Hdone & _).
  conclude_by_evaluation Hdone.
Defined.

(** X21. [terminate()] on a worker that has already exited resolves
    only when the 5 s timer fires. When the [exit] event came before
    [terminate] was called, the listener that [terminate] adds for it is
    never run: the call passes [await worker.terminate()] at once and
    then waits for its exit promise, which only the timer fulfils. While
    less than 5 s have passed the timer does nothing and the call stays
    suspended; once 5 s have passed the timer fulfils the promise and
    the call returns. *)
Theorem terminate_after_exit_waits_for_the_timer :
  forall (st : MainHost.HostState) (u : string) (dt : Z),
    MainHost.terminated st = false ->
    MainHost.exited st = true ->
    let i := length (MainHost.tasks st) in
    let ep := length (promises (MainHost.loop st)) in
    let t := length (timers (MainHost.loop st)) in
    let st1 := MainHost.run [MainHost.Terminate; MainHost.Resume i u; MainHost.Resume i u] st in
    let waited := MainHost.step (MainHost.TimePasses dt) st1 in
    MainHost.tasks st1 !! i = Some (MainHost.AwaitExit ep) /\
    promise_state ep (MainHost.loop st1) = Pending /\
    MainHost.resume i u st1 = st1 /\
    (dt < 5000 -> MainHost.step (MainHost.TimerFires t) waited = waited) /\
    (5000 <= dt ->
     let st2 := MainHost.run [MainHost.TimerFires t; MainHost.Resume i u] waited in
     MainHost.tasks st2 !! i = Some (MainHost.Done (Fulfilled VUndefined)) /\
     armed t (MainHost.loop st2) = false).
Proof.
  intros st u dt Hterm Hexited i ep t st1 waited.
  pose proof (terminate_unfold st Hterm) as Hst. cbn zeta in Hst. fold ep t in Hst.
  set (l2 := Rpc.reject_each (Rpc.pending (MainHost.rpc st)) (Error "worker terminated")
               (MainHost.loop st)) in *.
  destruct (reject_each_length (Rpc.pending (MainHost.rpc st)) (Error "worker terminated")
              (MainHost.loop st)) as [Hlp Hlt].
  fold l2 in Hlp, Hlt.
  set (st' := MainHost.terminate st) in *.
  assert (Htask : MainHost.tasks st' !! i = Some (MainHost.AwaitWorkerTerminate ep)).
  { rewrite Hst. cbn [MainHost.tasks]. subst i.
    rewrite lookup_app_r by lia. now rewrite Nat.sub_diag. }
  assert (Hexited' : MainHost.exited st' = true) by now rewrite Hst.
  assert (Hep : promises (MainHost.loop st') !! ep = Some Pending).
  { rewrite Hst. cbn [MainHost.loop promises]. subst ep. rewrite <- Hlp.
    rewrite lookup_app_r by lia. now rewrite Nat.sub_diag. }
  assert (Htimer : timers (MainHost.loop st') !! t
                   = Some (Some {| due := now (MainHost.loop st) + 5000;
                                   callback := ShutdownTimeout ep |})).
  { rewrite Hst. cbn [MainHost.loop timers]. subst t. rewrite <- Hlt.
    rewrite lookup_app_r by lia. now rewrite Nat.sub_diag. }
  destruct (terminate_resumes st' i ep u Htask Hexited') as (_ & _ & Htask1 & Hloop1).
  change (MainHost.resume i u (MainHost.resume i u st')) with st1 in Htask1, Hloop1.
  unfold promise_state in Htask1. rewrite Hep in Htask1.
  change (default Pending (Some Pending)) with Pending in Htask1.
  split; [exact Htask1|]. split; [unfold promise_state; now rewrite Hloop1, Hep|].
  assert (Hstay : forall s, MainHost.tasks s !! i = Some (MainHost.AwaitExit ep) ->
                            promises (MainHost.loop s) !! ep = Some Pending ->
                            MainHost.resume i u s = s).
  { intros s Hs Hp. unfold MainHost.resume. rewrite Hs.
    unfold MainHost.continue, promise_state. rewrite Hp.
    change (default Pending (Some Pending)) with Pending. cbv beta iota zeta.
    rewrite (list_insert_id _ _ _ Hs). now destruct s. }
  split; [apply Hstay; [exact Htask1|now rewrite Hloop1]|].
  assert (Hwaited : MainHost.loop waited = advance dt (MainHost.loop st') /\
                    MainHost.tasks waited = MainHost.tasks st1).
  { subst waited. cbn [MainHost.step MainHost.loop MainHost.set_loop MainHost.tasks].
    now rewrite Hloop1. }
  destruct Hwaited as [Hwl Hwt].
  split.
  - intros Hearly. cbn [MainHost.step]. unfold MainHost.on_timer, due_timer.
    rewrite Hwl. cbn [advance timers now]. rewrite Htimer. cbn [due].
    replace (now (MainHost.loop st')) with (now (MainHost.loop st)) by now rewrite Hst.
    destruct (now (MainHost.loop st) + 5000 <=? now (MainHost.loop st) + Z.max 0 dt)
      eqn:Hdue; [lia|reflexivity].
  - intros Hlate st2. subst st2. cbn [MainHost.run fold_left MainHost.step].
    assert (Hfired : MainHost.on_timer t waited
                     = MainHost.set_loop
                         (settle ep (Fulfilled VUndefined)
                            (clearTimeout t (MainHost.loop waited))) waited).
    { unfold MainHost.on_timer, due_timer.
      rewrite Hwl. cbn [advance timers now]. rewrite Htimer. cbn [due].
      replace (now (MainHost.loop st')) with (now (MainHost.loop st)) by now rewrite Hst.
      destruct (now (MainHost.loop st) + 5000 <=? now (MainHost.loop st) + Z.max 0 dt)
        eqn:Hdue; [|lia].
      cbn [callback]. now destruct waited. }
    rewrite Hfired. set (fired := MainHost.set_loop _ waited).
    assert (Hfulfilled : promises (MainHost.loop fired) !! ep = Some (Fulfilled VUndefined)).
    { subst fired. cbn [MainHost.loop MainHost.set_loop]. apply settle_pending.
      rewrite Hwl. exact Hep. }
    assert (Htaskf : MainHost.tasks fired !! i = Some (MainHost.AwaitExit ep)).
    { subst fired. cbn [MainHost.tasks MainHost.set_loop]. now rewrite Hwt. }
    assert (Hresumed : MainHost.resume i u fired
                       = MainHost.set_tasks
                           (<[i := MainHost.Done (Fulfilled VUndefined)]>
                              (MainHost.tasks fired)) fired).
    { unfold MainHost.resume. rewrite Htaskf. unfold MainHost.continue, promise_state.
      rewrite Hfulfilled. reflexivity. }
    rewrite Hresumed. cbn [MainHost.tasks MainHost.loop MainHost.set_tasks]. split.
    + apply list_lookup_insert_eq. now apply lookup_lt_Some in Htaskf.
    + subst fired. cbn [MainHost.loop MainHost.set_loop]. rewrite settle_armed.
      apply clearTimeout_armed_same.
Qed.

Lemma terminate_after_exit_waits_for_the_timer_witness :
  let st := MainHost.on_exit 0 Fixtures.registered in
  MainHost.tasks
    (MainHost.run [MainHost.Terminate; MainHost.Resume 0 ""; MainHost.Resume 0 ""] st) !! 0%nat
  = Some (MainHost.AwaitExit 1).
Proof.
  intros st.
  pose proof (proj1 (terminate_after_exit_waits_for_the_timer st "" 0 eq_refl eq_refl)) as H.
  conclude_by_evaluation H.
Defined.

(** ** The supervisor: registration *)

(** X22. A new supervisor waits for the verdict of the registration for
    ten seconds. [createWorkerHost] sends one [init] message made of its
    parameters, leaves [ready] outstanding and arms the registration
    timer for 10 s. [registration:complete] fulfils [ready] and
    [registration:error] rejects it with "plugin <id> registration
    failed: <error>", each clearing the timer. With no verdict, the timer
    does nothing while less than 10 s have passed, and after 10 s it
    rejects [ready] with "plugin <id> registration timed out after
    10000ms". *)
Theorem new_supervisor_awaits_the_verdict :
  forall (p : MainHost.WorkerHostParams) (st : MainHost.HostState),
    MainHost.createWorkerHost p = Normal st ->
    let t := MainHost.registrationTimer st in
    let ready_of s := promise_state (MainHost.ready s) (MainHost.loop s) in
    MainHost.sent st
      = [Init {| pluginId := MainHost.params_pluginId p;
                 pluginSource := MainHost.params_pluginSource p;
                 pluginConfig := MainHost.params_pluginConfig p;
                 metadata := MainHost.params_metadata p;
                 jitiAlias := MainHost.params_jitiAlias p |}] /\
    ready_of st = Pending /\
    MainHost.terminated st = false /\
    Rpc.size (MainHost.rpc st) = 0%nat /\
    timers (MainHost.loop st) !! t
      = Some (Some {| due := 10000; callback := RegistrationTimeout |}) /\
    (let st' := MainHost.on_message RegistrationComplete st in
     ready_of st' = Fulfilled VUndefined /\ armed t (MainHost.loop st') = false) /\
    (forall error,
        let st' := MainHost.on_message (RegistrationError error) st in
        ready_of st'
          = Rejected (Error ("plugin " +:+ MainHost.params_pluginId p
                               +:+ " registration failed: " +:+ error)) /\
        armed t (MainHost.loop st') = false) /\
    (forall dt,
        dt < 10000 ->
        MainHost.step (MainHost.TimerFires t) (MainHost.step (MainHost.TimePasses dt) st)
        = MainHost.step (MainHost.TimePasses dt) st) /\
    (forall dt,
        10000 <= dt ->
        let st' := MainHost.run [MainHost.TimePasses dt; MainHost.TimerFires t] st in
        ready_of st'
          = Rejected (Error ("plugin " +:+ MainHost.params_pluginId p
                               +:+ " registration timed out after 10000ms")) /\
        armed t (MainHost.loop st') = false).
Proof.
  intros p st Hcreate. unfold MainHost.createWorkerHost in Hcreate. simpl in Hcreate.
  destruct (cloneable_opt (MainHost.params_pluginConfig p)); [|discriminate].
  injection Hcreate as <-. cbn zeta.
  repeat (split; [reflexivity|]).
  split; [now split|]. split; [now split|]. split.
  - intros dt Hdt. cbn [MainHost.step]. unfold MainHost.on_timer, due_timer. cbn.
    match goal with
    | |- context [?a <=? ?b] => destruct (a <=? b) eqn:Hdue
    end; [unfold MainHost.REGISTRATION_TIMEOUT_MS in Hdue; lia|reflexivity].
  - intros dt Hdt. cbn [MainHost.run fold_left MainHost.step].
    unfold MainHost.on_timer, due_timer. cbn.
    match goal with
    | |- context [?a <=? ?b] => destruct (a <=? b) eqn:Hdue
    end; [|unfold MainHost.REGISTRATION_TIMEOUT_MS in Hdue; lia].
    now split.
Qed.

Lemma new_supervisor_awaits_the_verdict_witness :
  exists st,
    MainHost.createWorkerHost
      {| MainHost.params_pluginId := "p"; MainHost.params_pluginSource := "/plugins/p.ts";
         MainHost.params_pluginConfig := None;
         MainHost.params_metadata :=
           {| meta_id := "p"; meta_name := "P"; meta_version := None;
              meta_description := None |};
         MainHost.params_jitiAlias := None;
         MainHost.onRegisterTool := true; MainHost.onRegisterHook := true;
         MainHost.onRegisterService := true; MainHost.onRegisterCommand := true |}
    = Normal st /\
    promise_state (MainHost.ready st) (MainHost.loop st) = Pending.
Proof.
  match goal with
  | |- exists st, ?c = Normal st /\ _ => destruct c as [st|e] eqn:Hcreate
  end.
  - exists st. split; [reflexivity|].
    exact (proj1 (proj2 (new_supervisor_awaits_the_verdict _ st Hcreate))).
  - vm_compute in Hcreate. discriminate.
Defined.

Lemma crash_leaves_no_request_pending_witness :
  let events := [MainHost.Message RegistrationComplete;
                 MainHost.Invoke (MainHost.ToolCall "echo" (VObj []));
                 MainHost.Resume 0 "3f2a"] in
  let st := MainHost.run events Fixtures.started in
  Rpc.size (MainHost.rpc (MainHost.step (MainHost.WorkerError (VStr "out of memory")) st))
  = 0%nat /\
  Rpc.size
    (MainHost.rpc
       (MainHost.step (MainHost.WorkerError (VObj [("toString", VNum (NumInt 1))])) st))
  = 1%nat.
Proof.
  intros events st. split.
  - pose proof (proj1 (proj1 (crash_leaves_no_request_pending
                                (Fixtures.params "p" "/plugins/p.ts")
                                Fixtures.started events eq_refl eq_refl)
                         (MainHost.WorkerError (VStr "out of memory"))
                         (ex_intro _ "out of memory" eq_refl))) as H.
    conclude_by_evaluation H.
  - pose proof (f_equal (fun s => Rpc.size (MainHost.rpc s))
                  (proj2 (crash_leaves_no_request_pending
                            (Fixtures.params "p" "/plugins/p.ts")
                            Fixtures.started events eq_refl eq_refl)
                     (VObj [("toString", VNum (NumInt 1))])
                     (TypeError "Cannot convert object to primitive value") eq_refl)) as H.
    conclude_by_evaluation H.
Defined.

(** ** Both sides *)

Section BridgeFacts.

Import MainHost.



End BridgeFacts.



